(** * CmdLineParams: a shallow embedding of the CTK command line parameter
    registry (StringUtil.hxx, ctkCmdLineApplication.hxx, ctkParam.hxx).

    Conventions of the embedding.
    - [std::string] is [string]; [char] is [ascii].
    - [int] is a [Z] in the 32-bit range.
    - [std::vector<T>] is [list T].
    - [std::map<std::string,V>] is a key-sorted association list ([StrMap]),
      so that iteration follows the order of the keys as in the source.
    - A [char*] is an [option string]; [None] is the null pointer [0x0].
    - Operations whose behaviour is undefined in C++ (popping an empty
      vector, building a string from a null pointer, calling through a null
      parameter pointer, reading past the end of an array, returning an
      [int] that was declared and never written) return [Err].
    - The instantiations of the templates at [float] and [double] are left
      out: their text form is produced by the floating-point formatting of
      the stream library. *)

From Stdlib Require Import ZArith List String Ascii Bool Lia.
From Stdlib Require Import DecimalString DecimalPos DecimalFacts.
Import ListNotations.

Open Scope string_scope.
Open Scope Z_scope.

(** ** Outcomes *)

Inductive error : Type :=
  | PopBackEmpty   (* std::vector::pop_back on an empty vector *)
  | BadParse       (* operator>> wrote nothing: the value read has never been set *)
  | NullString     (* std::string constructed from a null char* *)
  | NullDeref      (* member call through a null ctkParamDataInterface* *)
  | OutOfBounds    (* read past the end of the argv array *)
  | OutOfFuel.     (* a loop bound was reached; see [terminates] *)

Inductive result (A : Type) : Type :=
  | Ok (a : A)
  | Err (e : error).
Arguments Ok {A} a.
Arguments Err {A} e.

Definition bind {A B : Type} (r : result A) (f : A -> result B) : result B :=
  match r with
  | Ok a => f a
  | Err e => Err e
  end.

Notation "x <- r ;; k" := (bind r (fun x => k))
  (at level 61, r at next level, right associativity).
Notation "' p <- r ;; k" := (bind r (fun p => k))
  (at level 61, p pattern, r at next level, right associativity).

(** The loops with fuel are given enough of it: a run that [terminates]
    is a result of the program, not of the bound. *)
Definition terminates {A : Type} (r : result A) : Prop := r <> Err OutOfFuel.

(** ** StringUtil.hxx *)

Module StringUtil.

(** *** The string streams used by the conversions *)

(** An [std::istringstream]: the characters not yet read and the two state
    bits a string stream can get. *)
Record istream : Type := mkIstream {
  buf : string;
  eofbit : bool;
  failbit : bool
}.

Definition istringstream (s : string) : istream := mkIstream s false false.

Definition good (st : istream) : bool := negb (eofbit st) && negb (failbit st).

(** [if (stream)] is [!stream.fail()]. *)
Definition stream_ok (st : istream) : bool := negb (failbit st).

Definition eof (st : istream) : bool := eofbit st.

(** Characters up to the first [delim]: the characters before it, the
    characters after it, and whether a delimiter was met before the end. *)
Fixpoint extract_until (s : string) (delim : ascii) : string * string * bool :=
  match s with
  | EmptyString => (EmptyString, EmptyString, false)
  | String c s' =>
      if Ascii.eqb c delim then (EmptyString, s', true)
      else let '(it, rest, found) := extract_until s' delim in
           (String c it, rest, found)
  end.

(** [std::getline(is, str, delim)].  When the stream is not good the sentry
    fails: [failbit] is set and [str] keeps its old contents.  Otherwise
    [str] is erased and filled up to the delimiter (extracted, not stored) or
    to the end of the input ([eofbit]); extracting nothing sets [failbit]. *)
Definition getline (st : istream) (str : string) (delim : ascii)
  : istream * string :=
  if good st then
    let '(it, rest, found) := extract_until (buf st) delim in
    if found then (mkIstream rest false false, it)
    else (mkIstream EmptyString true (String.eqb it EmptyString), it)
  else (mkIstream (buf st) (eofbit st) true, str).

(** *** Scalar conversions *)

Definition INT_MAX : Z := 2147483647.
Definition INT_MIN : Z := -2147483648.

Definition isspace (c : ascii) : bool :=
  let n := nat_of_ascii c in
  Nat.eqb n 32 || (Nat.leb 9 n && Nat.leb n 13).

Definition digit_of (c : ascii) : option Z :=
  let n := nat_of_ascii c in
  if Nat.leb 48 n && Nat.leb n 57 then Some (Z.of_nat n - 48) else None.

Fixpoint skipws (s : string) : string :=
  match s with
  | String c s' => if isspace c then skipws s' else s
  | EmptyString => EmptyString
  end.

(** The digits at the head of [s], accumulated in base ten; [n] counts
    them. *)
Fixpoint read_digits (s : string) (acc : Z) (n : nat) : Z * nat :=
  match s with
  | String c s' =>
      match digit_of c with
      | Some d => read_digits s' (10 * acc + d) (S n)
      | None => (acc, n)
      end
  | EmptyString => (acc, n)
  end.

(** [toString<int>]: [strstr << in]. *)
Definition toString_int (z : Z) : string :=
  NilZero.string_of_int (Z.to_int z).

(** [stringTo<int>]: [T value; strstr >> value; return value;].  The
    extraction skips white space.  When that takes it to the end of the
    text, nothing is written and [value] is returned as it was declared,
    without initialiser.  Otherwise an optional sign and the decimal
    digits that follow are taken: without a digit the extraction fails
    and writes [0]; out of the range of [int] it fails and writes the
    bound on the side of the sign. *)
Definition stringTo_int (s : string) : result Z :=
  let s1 := skipws s in
  if String.eqb s1 EmptyString then Err BadParse
  else
    let '(neg, s2) :=
      match s1 with
      | String "-"%char r => (true, r)
      | String "+"%char r => (false, r)
      | _ => (false, s1)
      end in
    let '(v, n) := read_digits s2 0 0 in
    if Nat.eqb n 0 then Ok 0
    else
      let z := if neg then - v else v in
      if (INT_MIN <=? z) && (z <=? INT_MAX) then Ok z
      else Ok (if neg then INT_MIN else INT_MAX).

Definition toString_string (s : string) : string := s.
Definition stringTo_string (s : string) : result string := Ok s.

Definition toString_bool (b : bool) : string :=
  if b then "true" else "false".

Definition stringTo_bool (s : string) : result bool :=
  if String.eqb s "true" || String.eqb s "yes" then Ok true
  else if String.eqb s "false" || String.eqb s "no" then Ok false
  else v <- stringTo_int s ;; Ok (0 <? v).

(** The function templates [toString<T>] and [stringTo<T>] with their
    specialisations. *)
Class StringConv (T : Type) : Type := {
  toString : T -> string;
  stringTo : string -> result T
}.

#[export] Instance conv_int : StringConv Z :=
  {| toString := toString_int; stringTo := stringTo_int |}.
#[export] Instance conv_string : StringConv string :=
  {| toString := toString_string; stringTo := stringTo_string |}.
#[export] Instance conv_bool : StringConv bool :=
  {| toString := toString_bool; stringTo := stringTo_bool |}.

(** *** Vector conversions *)

Definition vectortoString {T : Type} `{StringConv T}
  (l : list T) (delim : string) : string :=
  match l with
  | [] => EmptyString
  | x :: rest =>
      fold_left (fun ret y => ret ++ (delim ++ toString y)) rest (toString x)
  end.

Definition pop_back {T : Type} (ret : list T) : result (list T) :=
  match ret with
  | [] => Err PopBackEmpty
  | _ => Ok (removelast ret)
  end.

(** The loop [for (;std::getline(str,item,delim);str&&!str.eof())
    ret.push_back(stringTo<T>(item));] (its third expression has no
    effect). *)
Fixpoint stringToVector_loop {T : Type} `{StringConv T} (fuel : nat)
  (str : istream) (item : string) (ret : list T) (delim : ascii)
  : result (string * list T) :=
  match fuel with
  | O => Err OutOfFuel
  | S fuel' =>
      let '(str', item') := getline str item delim in
      if stream_ok str' then
        v <- stringTo item' ;;
        stringToVector_loop fuel' str' item' (ret ++ [v]) delim
      else Ok (item', ret)
  end.

Definition stringToVector {T : Type} `{StringConv T}
  (s : string) (delim : ascii) : result (list T) :=
  '(item, ret) <-
     stringToVector_loop (String.length s + 2) (istringstream s)
       EmptyString [] delim ;;
  if String.eqb item EmptyString then pop_back ret else Ok ret.

#[export] Instance conv_vector_int : StringConv (list Z) :=
  {| toString := fun l => vectortoString l ",";
     stringTo := fun s => stringToVector s ","%char |}.
#[export] Instance conv_vector_string : StringConv (list string) :=
  {| toString := fun l => vectortoString l ",";
     stringTo := fun s => stringToVector s ","%char |}.

(** *** Trimming *)

Fixpoint mem_char (c : ascii) (t : string) : bool :=
  match t with
  | EmptyString => false
  | String c' t' => Ascii.eqb c c' || mem_char c t'
  end.

(** [str.erase(0,str.find_first_not_of(t))]: when every character is in
    [t] the position is [npos] and the whole string is erased. *)
Fixpoint ltrim (str : string) (t : string) : string :=
  match str with
  | EmptyString => EmptyString
  | String c s' => if mem_char c t then ltrim s' t else str
  end.

(** [str.erase(str.find_last_not_of(t)+1)]: [npos+1] is [0]. *)
Fixpoint rtrim (str : string) (t : string) : string :=
  match str with
  | EmptyString => EmptyString
  | String c s' =>
      match rtrim s' t with
      | EmptyString => if mem_char c t then EmptyString else String c EmptyString
      | r => String c r
      end
  end.

Definition blanks : string := String " "%char (String (ascii_of_nat 9) EmptyString).

Definition trim (str : string) : string := rtrim (ltrim str blanks) blanks.

End StringUtil.

Import StringUtil.

(** ** std::map<std::string,V> *)

Module StrMap.

Definition t (V : Type) : Type := list (string * V).

Definition empty {V : Type} : t V := [].

(** [m.find(k)]; [None] is [m.end()]. *)
Fixpoint find {V : Type} (k : string) (m : t V) : option V :=
  match m with
  | [] => None
  | (k', v) :: m' => if String.eqb k k' then Some v else find k m'
  end.

(** [m[k]=v]: the entry is overwritten, or inserted at its place in the
    order of the keys. *)
Fixpoint insert {V : Type} (k : string) (v : V) (m : t V) : t V :=
  match m with
  | [] => [(k, v)]
  | (k', v') :: m' =>
      match String.compare k k' with
      | Lt => (k, v) :: m
      | Eq => (k, v) :: m'
      | Gt => (k', v') :: insert k v m'
      end
  end.

(** Reading [m[k]]: a missing key is inserted with the default value. *)
Definition index {V : Type} (k : string) (default : V) (m : t V) : V * t V :=
  match find k m with
  | Some v => (v, m)
  | None => (default, insert k default m)
  end.

End StrMap.

(** ** ctkCmdLineApplication.hxx, namespace ctkCLI *)

Module ctkCLI.

(** The member [value] of [ctkParamData<T>] and of the classes made by
    [DEFINE_TYPE_SPECIALIZATION], at each storage type. *)
Inductive Value : Type :=
  | VBool (b : bool)
  | VInt (z : Z)
  | VString (s : string)
  | VIntVector (l : list Z)
  | VStringVector (l : list string).

(** An object behind a [ctkParamDataInterface*]: the string its class
    returns from [getType], its value and the three maps of the
    interface. *)
Record ctkParamData : Type := mkParam {
  type_name : string;
  value : Value;
  tags : StrMap.t string;
  attribs : StrMap.t string;
  constraints : StrMap.t string
}.

Definition getTypeName_bool : string := "boolean".
Definition getTypeName_int : string := "integer".
Definition getTypeName_string : string := "string".
Definition getTypeName_vector_int : string := "integer-vector".
Definition getTypeName_vector_string : string := "string-vector".

Definition new_param (ty : string) (v : Value) : ctkParamData :=
  mkParam ty v StrMap.empty StrMap.empty StrMap.empty.

(** [new ctkParamData<T>()] *)
Definition new_bool : ctkParamData := new_param getTypeName_bool (VBool false).
Definition new_int : ctkParamData := new_param getTypeName_int (VInt 0).
Definition new_string : ctkParamData :=
  new_param getTypeName_string (VString EmptyString).
Definition new_vector_int : ctkParamData :=
  new_param getTypeName_vector_int (VIntVector []).
Definition new_vector_string : ctkParamData :=
  new_param getTypeName_vector_string (VStringVector []).

(** [new ctkParamData##TYPE()] of ctkParam.hxx *)
Definition new_EnumInt : ctkParamData := new_param "integer-enumeration" (VInt 0).
Definition new_EnumString : ctkParamData :=
  new_param "string-enumeration" (VString EmptyString).
Definition new_File : ctkParamData := new_param "file" (VString EmptyString).
Definition new_Directory : ctkParamData :=
  new_param "directory" (VString EmptyString).
Definition new_Image : ctkParamData := new_param "image" (VString EmptyString).
Definition new_Geometry : ctkParamData :=
  new_param "geometry" (VString EmptyString).
Definition new_Point : ctkParamData := new_param "point" (VStringVector []).
Definition new_Region : ctkParamData := new_param "region" (VStringVector []).
Definition new_Double : ctkParamData := new_param "double" (VString EmptyString).

Definition getType (p : ctkParamData) : string := type_name p.

Definition getString (p : ctkParamData) : string :=
  match value p with
  | VBool b => toString b
  | VInt z => toString z
  | VString s => toString s
  | VIntVector l => toString l
  | VStringVector l => toString l
  end.

Definition set_value (p : ctkParamData) (v : Value) : ctkParamData :=
  mkParam (type_name p) v (tags p) (attribs p) (constraints p).

Definition set_tags (p : ctkParamData) (m : StrMap.t string) : ctkParamData :=
  mkParam (type_name p) (value p) m (attribs p) (constraints p).

(** [value=stringTo<T>(new_value);] *)
Definition setString (new_value : string) (p : ctkParamData)
  : result ctkParamData :=
  match value p with
  | VBool _ => b <- stringTo new_value ;; Ok (set_value p (VBool b))
  | VInt _ => z <- stringTo new_value ;; Ok (set_value p (VInt z))
  | VString _ => s <- stringTo new_value ;; Ok (set_value p (VString s))
  | VIntVector _ => l <- stringTo new_value ;; Ok (set_value p (VIntVector l))
  | VStringVector _ =>
      l <- stringTo new_value ;; Ok (set_value p (VStringVector l))
  end.

End ctkCLI.

Import ctkCLI.

(** ** class ctkCmdLineApplication *)

Definition newline : ascii := ascii_of_nat 10.
Definition nl : string := String newline EmptyString.
Definition dq : string := String (ascii_of_nat 34) EmptyString.
Definition NUL : ascii := ascii_of_nat 0.

(** What the process can see and change besides the registry: the two
    output streams, the files by name, and the names under which no file
    can be opened for writing (a directory, a missing directory in the
    path, a file the process may not write). *)
Record World : Type := mkFileWorld {
  cout : string;
  cerr : string;
  files : StrMap.t string;
  readonly : list string
}.

(** A world in which nothing stands in the way of writing. *)
Definition mkWorld (cout cerr : string) (files : StrMap.t string) : World :=
  mkFileWorld cout cerr files [].

Definition put_cout (s : string) (w : World) : World :=
  mkFileWorld (cout w ++ s) (cerr w) (files w) (readonly w).
Definition put_cerr (s : string) (w : World) : World :=
  mkFileWorld (cout w) (cerr w ++ s) (files w) (readonly w).
Definition put_file (name content : string) (w : World) : World :=
  mkFileWorld (cout w) (cerr w) (StrMap.insert name content (files w))
    (readonly w).

(** [std::ofstream file(name)] is open: the empty name never opens. *)
Definition can_write (name : string) (w : World) : bool :=
  negb (String.eqb name EmptyString)
  && negb (existsb (String.eqb name) (readonly w)).

(** [std::ifstream file(name)] is open, and what it reads. *)
Definition open_in (name : string) (w : World) : option string :=
  if String.eqb name EmptyString then None else StrMap.find name (files w).

Module App.

(** The parameters of one section, by key. *)
Abbreviation Section_ := (StrMap.t ctkParamData).

Record ctkCmdLineApplication : Type := mkApp {
  param : StrMap.t Section_;
  commandLineFlags : StrMap.t (string * string);
  tags : StrMap.t string
}.

(** The private constructor. *)
Definition ctor (titel description : string) : ctkCmdLineApplication :=
  mkApp StrMap.empty StrMap.empty
    (StrMap.insert "title" titel
       (StrMap.insert "description" description StrMap.empty)).

Definition set_param (a : ctkCmdLineApplication) (m : StrMap.t Section_) :=
  mkApp m (commandLineFlags a) (tags a).
Definition set_tags (a : ctkCmdLineApplication) (m : StrMap.t string) :=
  mkApp (param a) (commandLineFlags a) m.

(** [CTK_APP_DEFINE_TAG(XMLTAG,FUNCNAME)]: [tags[XMLTAG]=str]. *)
Definition set_tag (xmltag str : string) (a : ctkCmdLineApplication) :=
  set_tags a (StrMap.insert xmltag str (tags a)).

Definition setCategory := set_tag "category".
Definition setTitel := set_tag "titel".
Definition setDescription := set_tag "description".
Definition setVersion := set_tag "version".
Definition setDocumentationUrl := set_tag "documentationUrl".
Definition setLicense := set_tag "license".
Definition setContributor := set_tag "contributor".
Definition setAcknowledgements := set_tag "acknowledgements".

Definition setFlag (flag section key : string) (a : ctkCmdLineApplication) :=
  mkApp (param a) (StrMap.insert flag (section, key) (commandLineFlags a))
    (tags a).

Definition getParam (section key : string) (a : ctkCmdLineApplication)
  : option ctkParamData :=
  match StrMap.find section (param a) with
  | Some sec => StrMap.find key sec
  | None => None
  end.

(** [param[section][key]=p] *)
Definition store (section key : string) (p : ctkParamData)
  (a : ctkCmdLineApplication) : ctkCmdLineApplication :=
  let (sec, m) := StrMap.index section StrMap.empty (param a) in
  set_param a (StrMap.insert section (StrMap.insert key p sec) m).

(** [setParam]: the string of a parameter already stored under the pair is
    taken before that parameter is deleted; the new object is stored, and
    a string that is not empty is given to it. *)
Definition setParam (section key : string) (p : ctkParamData)
  (a : ctkCmdLineApplication) : result ctkCmdLineApplication :=
  let (sec, _) := StrMap.index section StrMap.empty (param a) in
  let value :=
    match StrMap.find key sec with
    | Some old => getString old
    | None => EmptyString
    end in
  if negb (String.eqb value EmptyString) then
    p' <- setString value p ;; Ok (store section key p' a)
  else Ok (store section key p a).

(** [param[section][key]->setString(value)]: an object missing from the
    maps is a null pointer put there by [operator[]]. *)
Definition setString_at (section key value : string)
  (a : ctkCmdLineApplication) : result ctkCmdLineApplication :=
  match getParam section key a with
  | Some p => p' <- setString value p ;; Ok (store section key p' a)
  | None => Err NullDeref
  end.

(** One line of the ini text: what the body of the loop of [parse] does
    with it. *)
Inductive ini_line : Type :=
  | Skip
  | Header (list_ : string)
  | Assign (key value : string).

Definition first_char (s : string) : ascii :=
  match s with
  | String c _ => c
  | EmptyString => NUL
  end.

Definition classify (line : string) : ini_line :=
  if (String.length line <? 2)%nat || Ascii.eqb (first_char line) "#"%char
  then Skip
  else if Ascii.eqb (first_char line) "["%char
  then Header (String.substring 1 (String.length line - 2) line)
  else
    let linestr := istringstream line in
    let '(linestr1, key) := getline linestr EmptyString "="%char in
    let '(_, value) := getline linestr1 EmptyString NUL in
    Assign (trim key) (trim value).

Fixpoint parse_loop (fuel : nat) (strstr : istream) (list_ : string)
  (a : ctkCmdLineApplication) : result ctkCmdLineApplication :=
  match fuel with
  | O => Err OutOfFuel
  | S fuel' =>
      if eof strstr then Ok a
      else
        let '(strstr', line) := getline strstr EmptyString newline in
        match classify line with
        | Skip => parse_loop fuel' strstr' list_ a
        | Header l => parse_loop fuel' strstr' l a
        | Assign key value =>
            a' <- setString_at list_ key value a ;;
            parse_loop fuel' strstr' list_ a'
        end
  end.

Definition parse (ini : string) (a : ctkCmdLineApplication)
  : result ctkCmdLineApplication :=
  parse_loop (String.length ini + 2) (istringstream ini) "Global" a.

(** [load]: a file that cannot be opened gives [false]; otherwise its
    text up to the first NUL character is parsed. *)
Definition load (iniFile : string) (a : ctkCmdLineApplication) (w : World)
  : result (bool * ctkCmdLineApplication) :=
  match open_in iniFile w with
  | None => Ok (false, a)
  | Some content =>
      let '(_, all) := getline (istringstream content) EmptyString NUL in
      a' <- parse all a ;; Ok (true, a')
  end.

Definition save_section (sec : string * Section_) : string :=
  nl ++ "[" ++ fst sec ++ "]" ++ nl ++ nl
  ++ String.concat EmptyString
       (map (fun kp => fst kp ++ " = " ++ getString (snd kp) ++ nl) (snd sec))
  ++ nl ++ nl.

Definition save_text (a : ctkCmdLineApplication) : string :=
  String.concat EmptyString (map save_section (param a)).

(** [save]: the stream is written without a look at its state; when the
    file could not be opened every [<<] fails and nothing is written
    anywhere. *)
Definition save (iniFile : string) (a : ctkCmdLineApplication) (w : World)
  : World :=
  if can_write iniFile w then put_file iniFile (save_text a) w else w.

(** *** getXMLDescription *)

Definition app_tags : list string :=
  [ "category"; "title"; "description"; "version"; "documentation-url";
    "license"; "contributor"; "acknowledgements" ].

(** The loop over [app_tags]: one line for each name found in [tags]. *)
Definition xml_app_tags (a : ctkCmdLineApplication) : string :=
  String.concat EmptyString
    (map (fun tag =>
            match StrMap.find tag (tags a) with
            | Some v => "  <" ++ tag ++ ">" ++ v ++ "</" ++ tag ++ ">" ++ nl
            | None => EmptyString
            end) app_tags).

Definition xml_attribs (m : StrMap.t string) : string :=
  String.concat EmptyString
    (map (fun kv : string * string =>
            if String.eqb (snd kv) EmptyString then EmptyString
            else " " ++ fst kv ++ "=" ++ dq ++ snd kv ++ dq) m).

Definition xml_tag (kv : string * string) : result string :=
  if String.eqb (snd kv) EmptyString then Ok EmptyString
  else if String.eqb (fst kv) "enumeration" then
    enumeration <- stringToVector (T := string) (snd kv) ","%char ;;
    match enumeration with
    | [] => Ok EmptyString
    | _ =>
        Ok ("      <enumeration>" ++ nl
            ++ String.concat EmptyString
                 (map (fun e => "        <element>" ++ e ++ "</element>" ++ nl)
                    enumeration)
            ++ "      </enumeration>" ++ nl)
    end
  else Ok ("      <" ++ fst kv ++ ">" ++ snd kv ++ "</" ++ fst kv ++ ">" ++ nl).

Fixpoint concat_results (l : list (result string)) : result string :=
  match l with
  | [] => Ok EmptyString
  | r :: l' => s <- r ;; rest <- concat_results l' ;; Ok (s ++ rest)
  end.

Definition xml_constraints (m : StrMap.t string) : string :=
  match m with
  | [] => EmptyString
  | _ =>
      "      <constraints>" ++ nl
      ++ String.concat EmptyString
           (map (fun kv : string * string =>
                   "        <" ++ fst kv ++ ">" ++ snd kv
                   ++ "</" ++ fst kv ++ ">" ++ nl) m)
      ++ "      </constraints>" ++ nl
  end.

Definition xml_param (kp : string * ctkParamData) : result string :=
  let p := snd kp in
  tags_xml <- concat_results (map xml_tag (ctkCLI.tags p)) ;;
  Ok ("    <" ++ getType p ++ xml_attribs (attribs p) ++ ">" ++ nl
      ++ "      <name>" ++ fst kp ++ "</name>" ++ nl
      ++ "      <default>" ++ getString p ++ "</default>" ++ nl
      ++ tags_xml
      ++ xml_constraints (constraints p)
      ++ "    </" ++ getType p ++ ">" ++ nl).

Definition xml_section (sec : string * Section_) : result string :=
  params_xml <- concat_results (map xml_param (snd sec)) ;;
  Ok ("  <parameters>" ++ nl
      ++ "    <label>" ++ fst sec ++ "</label>" ++ nl
      ++ "    <description>" ++ fst sec ++ " - Section" ++ "</description>" ++ nl
      ++ params_xml
      ++ "  </parameters>" ++ nl).

Definition getXMLDescription (a : ctkCmdLineApplication) : result string :=
  sections_xml <- concat_results (map xml_section (param a)) ;;
  Ok ("<?xml version=" ++ dq ++ "1.0" ++ dq ++ " encoding=" ++ dq ++ "utf-8"
      ++ dq ++ "?>" ++ nl
      ++ "<executable>" ++ nl
      ++ xml_app_tags a
      ++ sections_xml
      ++ "</executable>" ++ nl).

(** *** getSynopsis *)

(** [m[k]] on a map of strings. *)
Definition at_ (k : string) (m : StrMap.t string) : string * StrMap.t string :=
  StrMap.index k EmptyString m.

Definition is_empty (s : string) : bool := String.eqb s EmptyString.

(** [printOptionVerbose]: the text added to [str], and the parameter with
    the tags its reads have inserted. *)
Definition printOptionVerbose (p : ctkParamData) : string * ctkParamData :=
  let (flag, t1) := at_ "flag" (ctkCLI.tags p) in
  let (longflag, t2) := at_ "longflag" t1 in
  if is_empty flag && is_empty longflag then ("", ctkCLI.set_tags p t2)
  else
    let head :=
      if is_empty flag then
        " [--" ++ longflag ++ " <" ++ getType p ++ ">]" ++ nl
      else if is_empty longflag then
        " [-" ++ flag ++ " <" ++ getType p ++ ">]" ++ nl
      else
        " [-" ++ flag ++ "|--" ++ longflag ++ " <" ++ getType p ++ ">]" ++ nl in
    let (description, t3) := at_ "description" t2 in
    let tail :=
      if is_empty description then ""
      else "    " ++ description ++ nl ++ nl in
    (head ++ tail, ctkCLI.set_tags p t3).

(** The first loop over the parameters: the usage line of one parameter,
    the name under which it enters [indexed], and the parameter after the
    reads of its tags. *)
Definition usage_line (indent : string) (p : ctkParamData)
  : string * option string * ctkParamData :=
  let (flag, t1) := at_ "flag" (ctkCLI.tags p) in
  if is_empty flag then
    let (longflag, t2) := at_ "longflag" t1 in
    if is_empty longflag then
      let (idx, t3) := at_ "index" t2 in
      ("", if is_empty idx then None else Some idx, ctkCLI.set_tags p t3)
    else
      (indent ++ "[--" ++ longflag ++ " <" ++ getType p ++ ">]" ++ nl, None,
       ctkCLI.set_tags p t2)
  else
    (indent ++ "[-" ++ flag ++ " <" ++ getType p ++ ">]" ++ nl, None,
     ctkCLI.set_tags p t1).

(** A pass over all parameters in the order of the maps; [f] gets the
    section, the key, the parameter and the accumulator. *)
Definition visit_section {A : Type}
  (f : string -> string -> ctkParamData -> A -> ctkParamData * A)
  (section : string) (sec : Section_) (acc : A) : Section_ * A :=
  fold_left
    (fun (st : Section_ * A) (kp : string * ctkParamData) =>
       let (p', acc') := f section (fst kp) (snd kp) (snd st) in
       ((fst st ++ [(fst kp, p')])%list, acc'))
    sec ([], acc).

Definition visit_params {A : Type}
  (f : string -> string -> ctkParamData -> A -> ctkParamData * A)
  (m : StrMap.t Section_) (acc : A) : StrMap.t Section_ * A :=
  fold_left
    (fun (st : StrMap.t Section_ * A) (ks : string * Section_) =>
       let (sec', acc') := visit_section f (fst ks) (snd ks) (snd st) in
       ((fst st ++ [(fst ks, sec')])%list, acc'))
    m ([], acc).

Fixpoint spaces (n : nat) : string :=
  match n with
  | O => EmptyString
  | S n' => String " "%char (spaces n')
  end.

(** The synopsis and the application after the reads of [tags] and of the
    tags of the parameters.  [indexed] holds pointers to parameters; here
    it holds their section and key, read back from the registry. *)
Definition getSynopsis (a : ctkCmdLineApplication)
  : string * ctkCmdLineApplication :=
  let (titel, tg1) := at_ "titel" (tags a) in
  let indent := "      " ++ spaces (String.length titel) in
  let head :=
    "USAGE:" ++ nl ++ nl
    ++ "   " ++ "./" ++ titel ++ " [-h] [--xml]" ++ nl
    ++ indent ++ "[--ctk-save-ini <file>] [--ctk-load-ini <file>]" ++ nl in
  let '(m1, (usage, indexed)) :=
    visit_params
      (fun section key p (acc : string * StrMap.t (string * string)) =>
         let '(line, idx, p') := usage_line indent p in
         (p', (fst acc ++ line,
               match idx with
               | Some n => StrMap.insert n (section, key) (snd acc)
               | None => snd acc
               end)))
      (param a) ("", StrMap.empty) in
  let deref (m : StrMap.t Section_) (sk : string * string) :=
    match StrMap.find (fst sk) m with
    | Some sec =>
        match StrMap.find (snd sk) sec with
        | Some p => p
        | None => new_string
        end
    | None => new_string
    end in
  let index_args :=
    String.concat EmptyString
      (map (fun e : string * (string * string) =>
              indent ++ "<" ++ getType (deref m1 (snd e)) ++ ">") indexed) in
  let '(m2, verbose) :=
    fold_left
      (fun (st : StrMap.t Section_ * string) (ks : string * Section_) =>
         let '(sec', text) :=
           visit_section
             (fun _ _ p (acc : string) =>
                let (t, p') := printOptionVerbose p in (p', acc ++ t))
             (fst ks) (snd ks) (nl ++ nl ++ fst ks ++ ":" ++ nl ++ nl) in
         ((fst st ++ [(fst ks, sec')])%list, snd st ++ text))
      m1 ([], "") in
  let index_verbose :=
    String.concat EmptyString
      (map (fun e : string * (string * string) =>
              let p := deref m2 (snd e) in
              nl ++ nl ++ getType p ++ "("
              ++ fst (at_ "index" (ctkCLI.tags p)) ++ "):" ++ nl
              ++ "    " ++ fst (at_ "description" (ctkCLI.tags p)) ++ nl)
         indexed) in
  let m3 :=
    fold_left
      (fun (m : StrMap.t Section_) (e : string * (string * string)) =>
         let p := deref m (snd e) in
         let t := snd (at_ "description" (snd (at_ "index" (ctkCLI.tags p)))) in
         match StrMap.find (fst (snd e)) m with
         | Some sec =>
             StrMap.insert (fst (snd e))
               (StrMap.insert (snd (snd e)) (ctkCLI.set_tags p t) sec) m
         | None => m
         end)
      indexed m2 in
  let (description, tg2) := at_ "description" tg1 in
  let (contributor, tg3) := at_ "contributor" tg2 in
  let (acknowledgements, tg4) := at_ "acknowledgements" tg3 in
  let foot :=
    (if is_empty description then "" else nl ++ nl ++ description ++ nl ++ nl)
    ++ (if is_empty contributor then ""
        else nl ++ nl ++ "Author: " ++ contributor ++ nl ++ nl)
    ++ (if is_empty acknowledgements then ""
        else nl ++ nl ++ "Acknowledgements: " ++ acknowledgements ++ nl ++ nl) in
  (head ++ usage ++ index_args ++ verbose ++ index_verbose ++ foot,
   mkApp m3 (commandLineFlags a) tg4).

(** *** parseCommandLine *)

(** The array [argv]: reading a cell that is not there is out of bounds. *)
Definition argv_get (argv : list (option string)) (i : Z)
  : result (option string) :=
  if i <? 0 then Err OutOfBounds
  else match nth_error argv (Z.to_nat i) with
       | Some p => Ok p
       | None => Err OutOfBounds
       end.

Fixpoint list_set {A : Type} (l : list A) (n : nat) (x : A) : list A :=
  match l, n with
  | [], _ => []
  | _ :: l', O => x :: l'
  | y :: l', S n' => y :: list_set l' n' x
  end.

Definition argv_set (argv : list (option string)) (i : Z) (p : option string)
  : list (option string) :=
  if i <? 0 then argv else list_set argv (Z.to_nat i) p.

(** The conversion of a [char*] to [std::string]. *)
Definition cstring (p : option string) : result string :=
  match p with
  | Some s => Ok s
  | None => Err NullString
  end.

(** [cmd[n]] *)
Definition char_at (n : nat) (cmd : string) : ascii :=
  match String.get n cmd with
  | Some c => c
  | None => NUL
  end.

(** The variables of the scan loop and what it works on. *)
Record scan_state : Type := mkScan {
  i : Z;
  index : Z;
  argv : list (option string);
  app : ctkCmdLineApplication;
  world : World
}.

Inductive control : Type := Continue | Break.

Definition expected_value (cmd : string) (w : World) : World :=
  put_cerr ("Ignored command line argument " ++ cmd ++ nl)
    (put_cerr ("Expected value but found end of argument list." ++ nl) w).

(** The switches the loop handles before it looks at the flags. *)
Definition builtin (cmd : string) : bool :=
  String.eqb cmd "--xml"
  || (String.eqb cmd "--help" || String.eqb cmd "-h")
  || (String.eqb cmd "--ctk-save-ini" || String.eqb cmd "--ctk-load-ini").

(** The lookup of [cmd] in [commandLineFlags] and what follows it, up to
    the [i++] that ends the body of the loop. *)
Definition dispatch (cmd : string) (st : scan_state)
  : result (control * scan_state) :=
  match StrMap.find cmd (commandLineFlags (app st)) with
  | Some (section, key) =>
      match getParam section key (app st) with
      | None => Err NullDeref
      | Some p =>
          p' <-
            (if String.eqb (getType p) getTypeName_bool then
               b <- stringTo (T := bool) (getString p) ;;
               setString (toString (negb b)) p
             else
               arg <- argv_get (argv st) (i st) ;;
               new_value <- cstring arg ;;
               setString new_value p) ;;
          Ok (Continue,
              mkScan (i st + 1) (index st) (argv st)
                (store section key p' (app st)) (world st))
      end
  | None =>
      let w :=
        if Ascii.eqb (char_at 0 cmd) "-"%char
        then put_cerr ("Ignored command line argument " ++ cmd ++ nl) (world st)
        else world st in
      Ok (Continue, mkScan (i st + 1) (index st) (argv st) (app st) w)
  end.

(** The body of [for (int i=0;i<*argc;)]. *)
Definition scan_step (argc : Z) (st : scan_state)
  : result (control * scan_state) :=
  arg <- argv_get (argv st) (i st) ;;
  cmd <- cstring arg ;;
  if String.eqb cmd "--xml" then
    xml <- getXMLDescription (app st) ;;
    Ok (Continue,
        mkScan (i st + 1) (index st) (argv_set (argv st) (i st) None)
          (app st) (put_cout xml (world st)))
  else if String.eqb cmd "--help" || String.eqb cmd "-h" then
    let (synopsis, a') := getSynopsis (app st) in
    Ok (Continue,
        mkScan (i st + 1) (index st) (argv_set (argv st) (i st) None)
          a' (put_cout synopsis (world st)))
  else if String.eqb cmd "--ctk-save-ini" || String.eqb cmd "--ctk-load-ini"
  then
    if i st =? argc - 1 then
      Ok (Break,
          mkScan (i st) (index st) (argv st) (app st)
            (expected_value cmd (world st)))
    else
      let argv1 := argv_set (argv st) (i st) None in
      file <- argv_get argv1 (i st + 1) ;;
      name <- cstring file ;;
      if Ascii.eqb (char_at 6 cmd) "s"%char then
        Ok (Continue,
            mkScan (i st + 2) (index st) argv1 (app st)
              (save name (app st) (world st)))
      else
        '(_, a') <- load name (app st) (world st) ;;
        Ok (Continue, mkScan (i st + 2) (index st) argv1 a' (world st))
  else if Ascii.eqb (char_at 0 cmd) "-"%char then
    if i st =? argc - 1 then
      Ok (Break,
          mkScan (i st) (index st) (argv st) (app st)
            (expected_value cmd (world st)))
    else
      dispatch cmd
        (mkScan (i st) (index st) (argv_set (argv st) (i st) None)
           (app st) (world st))
  else
    dispatch (toString (index st))
      (mkScan (i st) (index st + 1) (argv st) (app st) (world st)).

Fixpoint scan_loop (fuel : nat) (argc : Z) (st : scan_state)
  : result scan_state :=
  if i st <? argc then
    match fuel with
    | O => Err OutOfFuel
    | S fuel' =>
        '(c, st') <- scan_step argc st ;;
        match c with
        | Continue => scan_loop fuel' argc st'
        | Break => Ok st'
        end
    end
  else Ok st.

(** The loop that removes the handled arguments:
    [if (argv[i]==0x0) { handled++; argv[i]=argv[i+handled]; i--; }]. *)
Fixpoint compact_loop (fuel : nat) (argc : Z) (i handled : Z)
  (argv : list (option string)) : result (list (option string) * Z) :=
  if i <? argc then
    match fuel with
    | O => Err OutOfFuel
    | S fuel' =>
        arg <- argv_get argv i ;;
        match arg with
        | None =>
            next <- argv_get argv (i + (handled + 1)) ;;
            compact_loop fuel' argc i (handled + 1) (argv_set argv i next)
        | Some _ => compact_loop fuel' argc (i + 1) handled argv
        end
    end
  else Ok (argv, handled).

Definition compact (argc : Z) (argv : list (option string))
  : result (list (option string) * Z) :=
  compact_loop (Z.to_nat argc + List.length argv + 1) argc 0 0 argv.

(** What the caller has after the call. *)
Record parsed : Type := mkParsed {
  argc_out : Z;                      (* the int [argc] points to *)
  argv_out : list (option string);   (* the array [argv] *)
  handled_out : Z;                   (* the local count of removed cells *)
  app_out : ctkCmdLineApplication;
  world_out : World
}.

(** [parseCommandLine(int *argc, char ** argv)].  The last statement,
    [argc-=handled;], moves the local pointer [argc]; the caller's int is
    not written. *)
Definition parseCommandLine (argc : Z) (argv : list (option string))
  (a : ctkCmdLineApplication) (w : World) : result parsed :=
  st <- scan_loop (Z.to_nat argc) argc (mkScan 0 0 argv a w) ;;
  '(argv', handled) <- compact argc (App.argv st) ;;
  Ok (mkParsed argc argv' handled (app st) (world st)).

(** The array a C program gets in [main]: the arguments followed by the
    null pointer [argv[argc]]. *)
Definition main_argv (args : list string) : list (option string) :=
  (map Some args ++ [None])%list.

End App.

(** ** ctkParam.hxx: the proxy class ctkParam<BasicType> *)

Module ctkParam.

Import App.

Definition tolower (c : ascii) : ascii :=
  let n := nat_of_ascii c in
  if Nat.leb 65 n && Nat.leb n 90 then ascii_of_nat (n + 32) else c.

Fixpoint map_string (f : ascii -> ascii) (s : string) : string :=
  match s with
  | EmptyString => EmptyString
  | String c s' => String (f c) (map_string f s')
  end.

Definition getNormName (section key : string) : string :=
  map_string (fun c => if Ascii.eqb c " "%char then "-"%char else c)
    (map_string tolower (section ++ "-" ++ key)).

(** [app.getParam(section,key)->tags[k]=v] *)
Definition set_param_tag (section key k v : string)
  (a : ctkCmdLineApplication) : result ctkCmdLineApplication :=
  match getParam section key a with
  | Some p =>
      Ok (store section key
            (ctkCLI.set_tags p (StrMap.insert k v (ctkCLI.tags p))) a)
  | None => Err NullDeref
  end.

(** [declare(description, shortflag)] *)
Definition declare (section key description shortflag : string)
  (a : ctkCmdLineApplication) : result ctkCmdLineApplication :=
  let name := getNormName section key in
  a1 <- set_param_tag section key "longflag" name a ;;
  let a2 := setFlag ("--" ++ name) section key a1 in
  a3 <- set_param_tag section key "description" description a2 ;;
  if negb (String.eqb shortflag EmptyString) then
    set_param_tag section key "flag" shortflag
      (setFlag ("-" ++ shortflag) section key a3)
  else Ok a3.

(** [declare(description, idx)] *)
Definition declare_index (section key description : string) (idx : Z)
  (a : ctkCmdLineApplication) : result ctkCmdLineApplication :=
  match getParam section key a with
  | None => Err NullDeref
  | Some p =>
      let (longflag, t1) := at_ "longflag" (ctkCLI.tags p) in
      let a1 :=
        store section key (ctkCLI.set_tags p (StrMap.insert "flag" longflag t1))
          a in
      a2 <- set_param_tag section key "index" (toString idx) a1 ;;
      let a3 := setFlag (toString idx) section key a2 in
      set_param_tag section key "description" description a3
  end.

(** [declareType()] with [fresh] for the object made by [new]. *)
Definition declareType (section key : string) (fresh : ctkParamData)
  (a : ctkCmdLineApplication) : result ctkCmdLineApplication :=
  a1 <- setParam section key fresh a ;;
  declare section key "" "" a1.

(** The constructor [ctkParam(s,k)]. *)
Definition ctor (section key : string) (fresh : ctkParamData)
  (a : ctkCmdLineApplication) : result ctkCmdLineApplication :=
  a1 <- (match getParam section key a with
         | None => declareType section key fresh a
         | Some _ => Ok a
         end) ;;
  set_param_tag section key "name" (getNormName section key) a1.

(** The constructor of the classes [ctkParam##TYPE]: it does not write the
    tag [name]. *)
Definition ctor_special (section key : string) (fresh : ctkParamData)
  (a : ctkCmdLineApplication) : result ctkCmdLineApplication :=
  match getParam section key a with
  | None => declareType section key fresh a
  | Some _ => Ok a
  end.

(** [setValue(in)] at [BasicType] bool, int, string and the two vectors: the
    [dynamic_cast] succeeds when the object is a [ctkParamData<BasicType>],
    which is when its type string is [getTypeName<BasicType>()]. *)
Definition type_of_value (v : Value) : string :=
  match v with
  | VBool _ => getTypeName_bool
  | VInt _ => getTypeName_int
  | VString _ => getTypeName_string
  | VIntVector _ => getTypeName_vector_int
  | VStringVector _ => getTypeName_vector_string
  end.

Definition setValue (section key : string) (v : Value)
  (a : ctkCmdLineApplication) : result ctkCmdLineApplication :=
  match getParam section key a with
  | None => Err NullDeref
  | Some p =>
      if String.eqb (getType p) (type_of_value v) then
        Ok (store section key (set_value p v) a)
      else
        p' <- setString (getString (set_value p v)) p ;;
        Ok (store section key p' a)
  end.

(** The static type [BasicType] of a proxy [ctkParam<BasicType>]. *)
Inductive BasicType : Type :=
  | TBool | TInt | TString | TVectorInt | TVectorString.

Definition getTypeName (t : BasicType) : string :=
  match t with
  | TBool => getTypeName_bool
  | TInt => getTypeName_int
  | TString => getTypeName_string
  | TVectorInt => getTypeName_vector_int
  | TVectorString => getTypeName_vector_string
  end.

Definition kind_of (v : Value) : BasicType :=
  match v with
  | VBool _ => TBool
  | VInt _ => TInt
  | VString _ => TString
  | VIntVector _ => TVectorInt
  | VStringVector _ => TVectorString
  end.

Definition same_kind (t : BasicType) (v : Value) : bool :=
  match t, v with
  | TBool, VBool _ | TInt, VInt _ | TString, VString _
  | TVectorInt, VIntVector _ | TVectorString, VStringVector _ => true
  | _, _ => false
  end.

(** [ctkCLI::stringTo<BasicType>(s)] *)
Definition stringTo_at (t : BasicType) (s : string) : result Value :=
  match t with
  | TBool => b <- stringTo s ;; Ok (VBool b)
  | TInt => z <- stringTo s ;; Ok (VInt z)
  | TString => x <- stringTo s ;; Ok (VString x)
  | TVectorInt => l <- stringTo s ;; Ok (VIntVector l)
  | TVectorString => l <- stringTo s ;; Ok (VStringVector l)
  end.

(** [ctkCLI::toString(in)] *)
Definition toString_value (v : Value) : string :=
  match v with
  | VBool b => toString b
  | VInt z => toString z
  | VString s => toString s
  | VIntVector l => toString l
  | VStringVector l => toString l
  end.

(** [getValue()]: the value itself when the object is a
    [ctkParamData<BasicType>], the conversion of its string otherwise. *)
Definition getValue (t : BasicType) (section key : string)
  (a : ctkCmdLineApplication) : result Value :=
  match getParam section key a with
  | None => Err NullDeref
  | Some p =>
      if String.eqb (getType p) (getTypeName t) && same_kind t (value p)
      then Ok (value p)
      else stringTo_at t (getString p)
  end.

Definition setDescription (section key str : string) :=
  set_param_tag section key "description" str.

Definition setLabel (section key str : string) :=
  set_param_tag section key "label" str.

Definition setChannel (section key : string) (input : bool) :=
  set_param_tag section key "channel" (if input then "input" else "output").

(** [CTK_PARAM_DEFINE_TAG("enumeration",Enumeration)] *)
Definition setEnumeration (section key str : string) :=
  set_param_tag section key "enumeration" str.

(** [CTK_PARAM_DEFINE_ATTRIB(ATTRIB,FUNCNAME)]:
    [app.getParam(section,key)->attribs[ATTRIB]=str] *)
Definition set_param_attrib (section key attrib str : string)
  (a : ctkCmdLineApplication) : result ctkCmdLineApplication :=
  match getParam section key a with
  | Some p =>
      Ok (store section key
            (mkParam (type_name p) (value p) (ctkCLI.tags p)
               (StrMap.insert attrib str (attribs p)) (constraints p)) a)
  | None => Err NullDeref
  end.

Definition setFileExtensions (section key str : string) :=
  set_param_attrib section key "fileExtensions" str.

Definition setType (section key str : string) :=
  set_param_attrib section key "type" str.

Definition setMultiple (section key str : string) :=
  set_param_attrib section key "multiple" str.

Definition setCoordinateSystem (section key str : string) :=
  set_param_attrib section key "coordinateSystem" str.

(** The text of a name as [getNormName] writes it. *)
Definition norm (s : string) : string :=
  map_string (fun c => if Ascii.eqb c " "%char then "-"%char else c)
    (map_string tolower s).

Definition is_upper (c : ascii) : bool :=
  let n := nat_of_ascii c in Nat.leb 65 n && Nat.leb n 90.

(** The text of the value is read back as the value. *)
Definition roundtrips (v : Value) : Prop :=
  stringTo_at (kind_of v) (toString_value v) = Ok v.

End ctkParam.

(** ** A registry built the way main.cpp builds one *)

Module Demo.

Import App.

Definition declared : result ctkCmdLineApplication :=
  let a0 := setContributor "Santa"
              (setVersion "1.0"
                 (setCategory "Toys"
                    (App.ctor "The Big Test" "Does absolutely nothing."))) in
  a1 <- ctkParam.ctor "Basic Types" "Bool Param" new_bool a0 ;;
  a2 <- ctkParam.declare "Basic Types" "Bool Param" "Just a test" "b" a1 ;;
  a3 <- ctkParam.setValue "Basic Types" "Bool Param" (VBool true) a2 ;;
  a4 <- ctkParam.ctor "Name" "First Name" new_string a3 ;;
  a5 <- ctkParam.ctor "Vector Types" "Int Vec" new_vector_int a4 ;;
  a6 <- setString_at "Vector Types" "Int Vec" "1,2,3,4" a5 ;;
  a7 <- ctkParam.ctor_special "Special" "File" new_File a6 ;;
  ctkParam.declare_index "Special" "File" "Input File" 0 a7.

Definition app : ctkCmdLineApplication :=
  Eval vm_compute in
    match declared with
    | Ok a => a
    | Err _ => App.ctor "" ""
    end.

Definition world : World := mkWorld "" "" StrMap.empty.

End Demo.

(** A registry without any parameter. *)
Module Bare.

Definition app : App.ctkCmdLineApplication := App.ctor "tool" "".

End Bare.

(** ** Reading the ini text line by line *)

Module IniSpec.

Import App.

(** The lines [getline(strstr,line,'\n')] yields until [strstr.eof()]. *)
Fixpoint lines_of (s : string) : list string :=
  match s with
  | EmptyString => [EmptyString]
  | String c s' =>
      if Ascii.eqb c newline then EmptyString :: lines_of s'
      else match lines_of s' with
           | l :: ls => String c l :: ls
           | [] => [String c EmptyString]
           end
  end.

(** The section, key and value of every line that is neither skipped nor
    a header, in the order of the text. *)
Fixpoint assignments_from (list_ : string) (lines : list string)
  : list (string * string * string) :=
  match lines with
  | [] => []
  | line :: rest =>
      match classify line with
      | Skip => assignments_from list_ rest
      | Header l => assignments_from l rest
      | Assign key value => (list_, key, value) :: assignments_from list_ rest
      end
  end.

(** The body of the loop of [parse] over the lines, one after the other. *)
Fixpoint run_lines (lines : list string) (list_ : string)
  (a : ctkCmdLineApplication) : result ctkCmdLineApplication :=
  match lines with
  | [] => Ok a
  | line :: rest =>
      match classify line with
      | Skip => run_lines rest list_ a
      | Header l => run_lines rest l a
      | Assign key value =>
          a' <- setString_at list_ key value a ;; run_lines rest list_ a'
      end
  end.

Definition assignments (ini : string) : list (string * string * string) :=
  assignments_from "Global" (lines_of ini).

(** The reading of the ini text under which a value is given to the
    parameter registered at its section and key, and a line naming no
    registered parameter is passed over. *)
Definition apply_declared (t : string * string * string)
  (a : ctkCmdLineApplication) : result ctkCmdLineApplication :=
  let '(section, key, value) := t in
  match getParam section key a with
  | Some p => p' <- setString value p ;; Ok (store section key p' a)
  | None => Ok a
  end.

(** A pair is declared when a parameter is registered under it. *)
Definition declared (a : ctkCmdLineApplication) (t : string * string * string)
  : Prop := getParam (fst (fst t)) (snd (fst t)) a <> None.

Fixpoint apply_all (ts : list (string * string * string))
  (a : ctkCmdLineApplication) : result ctkCmdLineApplication :=
  match ts with
  | [] => Ok a
  | t :: rest => a' <- apply_declared t a ;; apply_all rest a'
  end.

End IniSpec.

(** ** Vocabulary of the round-trip statement *)

Module RoundTrip.

Definition in_int_range (z : Z) : Prop := INT_MIN <= z <= INT_MAX.

Definition comma_free (s : string) : Prop := mem_char ","%char s = false.

(** What [vectortoString] adds after the first element. *)
Fixpoint join_tail {T : Type} `{StringConv T} (l : list T) (delim : string)
  : string :=
  match l with
  | [] => EmptyString
  | y :: l' => delim ++ toString y ++ join_tail l' delim
  end.

(** The last element of the vector [x :: l]. *)
Fixpoint last_of {T : Type} (x : T) (l : list T) : T :=
  match l with
  | [] => x
  | y :: l' => last_of y l'
  end.


End RoundTrip.

(** ** Vocabulary of the properties of the conversions *)

Module Text.

Definition is_digit (c : ascii) : bool :=
  match digit_of c with
  | Some _ => true
  | None => false
  end.

Fixpoint all_chars (f : ascii -> bool) (s : string) : bool :=
  match s with
  | EmptyString => true
  | String c s' => f c && all_chars f s'
  end.

Definition starts_with (f : ascii -> bool) (s : string) : bool :=
  match s with
  | EmptyString => false
  | String c _ => f c
  end.

Fixpoint ends_with (f : ascii -> bool) (s : string) : bool :=
  match s with
  | EmptyString => false
  | String c EmptyString => f c
  | String _ s' => ends_with f s'
  end.

Definition is_blank (c : ascii) : bool := mem_char c blanks.

(** The pieces of [s] between the occurrences of [delim]; a text that ends
    with [delim] has an empty last piece. *)
Fixpoint split_on (delim : ascii) (s : string) : list string :=
  match s with
  | EmptyString => [EmptyString]
  | String c s' =>
      if Ascii.eqb c delim then EmptyString :: split_on delim s'
      else match split_on delim s' with
           | l :: ls => String c l :: ls
           | [] => [String c EmptyString]
           end
  end.

(** The pieces for which the loop of [stringToVector] runs its body: an
    empty last piece is not among them. *)
Definition pushed (pieces : list string) : list string :=
  if String.eqb (List.last pieces EmptyString) EmptyString
  then removelast pieces else pieces.

Fixpoint mapM {A B : Type} (f : A -> result B) (l : list A) : result (list B) :=
  match l with
  | [] => Ok []
  | x :: l' => y <- f x ;; ys <- mapM f l' ;; Ok (y :: ys)
  end.

End Text.

(** ** The order of the keys *)

Module MapOrder.

Import App.

(** [k] comes before the first key of [m]. *)
Definition below {V : Type} (k : string) (m : StrMap.t V) : Prop :=
  match m with
  | [] => True
  | (k', _) :: _ => String.compare k k' = Lt
  end.

(** The keys of [m] ascend strictly: the order in which an iterator of
    [std::map] visits them. *)
Fixpoint sorted {V : Type} (m : StrMap.t V) : Prop :=
  match m with
  | [] => True
  | (k, _) :: m' => below k m' /\ sorted m'
  end.

(** The parameters registered in a section; none when the section is not
    there. *)
Definition section_of (section : string) (a : ctkCmdLineApplication)
  : StrMap.t ctkParamData :=
  match StrMap.find section (param a) with
  | Some sec => sec
  | None => StrMap.empty
  end.

(** The maps of an application as [std::map] keeps them. *)
Definition wf (a : ctkCmdLineApplication) : Prop :=
  sorted (param a) /\
  Forall (fun ks => sorted (snd ks)) (param a) /\
  sorted (commandLineFlags a) /\
  sorted (tags a).

End MapOrder.

(** ** The ini text of a registry *)

Module IniText.

Import App Text.

Definition is_mark (c : ascii) : bool :=
  Ascii.eqb c "#"%char || Ascii.eqb c "["%char.

(** Names and values that the lines of an ini text can carry: a section
    name holds no line break; a key holds neither a line break nor [=],
    starts neither with [#] nor with [[] and has no blank at either end; a
    value holds no line break and has no blank at either end; none of
    them holds a NUL. *)
Definition name_ok (section : string) : Prop :=
  mem_char newline section = false /\ mem_char NUL section = false.

Definition key_ok (key : string) : Prop :=
  mem_char newline key = false /\
  mem_char NUL key = false /\
  mem_char "="%char key = false /\
  starts_with is_mark key = false /\
  starts_with is_blank key = false /\
  ends_with is_blank key = false.

Definition value_ok (value : string) : Prop :=
  mem_char newline value = false /\
  mem_char NUL value = false /\
  starts_with is_blank value = false /\
  ends_with is_blank value = false.

Definition text_ok (a : ctkCmdLineApplication) : Prop :=
  Forall (fun sec : string * Section_ =>
            name_ok (fst sec) /\
            Forall (fun kp : string * ctkParamData =>
                      key_ok (fst kp) /\ value_ok (getString (snd kp)))
              (snd sec))
    (param a).

(** Section, key and string of every parameter, in the order of the
    maps. *)
Definition entries_of (sec : string * Section_)
  : list (string * string * string) :=
  map (fun kp : string * ctkParamData =>
         (fst sec, fst kp, getString (snd kp))) (snd sec).

Definition entries (a : ctkCmdLineApplication)
  : list (string * string * string) :=
  flat_map entries_of (param a).

(** The lines [save] writes for a section. *)
Definition entry_line (kp : string * ctkParamData) : string :=
  fst kp ++ " = " ++ getString (snd kp).

Definition section_lines (sec : string * Section_) : list string :=
  "" :: ("[" ++ fst sec ++ "]") :: ""
  :: (map entry_line (snd sec) ++ [""; ""])%list.

(** Lines, each ended by a line break, before [rest]. *)
Fixpoint unlines (ls : list string) (rest : string) : string :=
  match ls with
  | [] => rest
  | l :: ls' => l ++ nl ++ unlines ls' rest
  end.



(** The string of the parameter is read back as the value it has. *)
Definition stable (p : ctkParamData) : Prop :=
  setString (getString p) p = Ok p.

Definition all_stable (a : ctkCmdLineApplication) : Prop :=
  Forall (fun sec : string * Section_ =>
            Forall (fun kp : string * ctkParamData => stable (snd kp))
              (snd sec))
    (param a).

End IniText.

(** ** Vocabulary of the properties of the descriptor *)

Module Descriptor.

(** The element of an application tag. *)
Definition app_tag_line (tag v : string) : string :=
  "  <" ++ tag ++ ">" ++ v ++ "</" ++ tag ++ ">" ++ nl.

(** The element of an item of an enumeration. *)
Definition element_line (e : string) : string :=
  "        <element>" ++ e ++ "</element>" ++ nl.

(** The element of the tag [enumeration] for the items [l]; nothing for
    no item. *)
Definition enumeration_block (l : list string) : string :=
  match l with
  | [] => EmptyString
  | _ =>
      "      <enumeration>" ++ nl
      ++ String.concat EmptyString (map element_line l)
      ++ "      </enumeration>" ++ nl
  end.

(** The application tags [getSynopsis] reads with [tags[...]]. *)
Definition read_by_synopsis (k : string) : bool :=
  String.eqb k "titel" || String.eqb k "description"
  || String.eqb k "contributor" || String.eqb k "acknowledgements".

End Descriptor.

(** * Properties *)

Import App.

(** ** Maps *)

Lemma compare_refl (s : string) : String.compare s s = Eq.
Proof.
  induction s as [|c s IH]; simpl; [reflexivity|].
  unfold Ascii.compare. rewrite N.compare_refl. exact IH.
Qed.

Lemma compare_Eq_eqb (k k' : string) :
  String.compare k k' = Eq -> String.eqb k k' = true.
Proof. intros H. apply String.compare_eq_iff in H. subst. apply String.eqb_refl. Qed.

Lemma compare_not_Eq_eqb (k k' : string) :
  String.compare k k' <> Eq -> String.eqb k k' = false.
Proof.
  intros H. apply String.eqb_neq. intros ->. apply H, compare_refl.
Qed.

Lemma find_insert_eq {V : Type} (k : string) (v : V) (m : StrMap.t V) :
  StrMap.find k (StrMap.insert k v m) = Some v.
Proof.
  induction m as [|[k' v'] m IH]; simpl.
  - now rewrite String.eqb_refl.
  - destruct (String.compare k k') eqn:E; simpl.
    + now rewrite String.eqb_refl.
    + now rewrite String.eqb_refl.
    + rewrite compare_not_Eq_eqb by congruence. exact IH.
Qed.

Lemma find_insert_neq {V : Type} (k k0 : string) (v : V) (m : StrMap.t V) :
  k0 <> k -> StrMap.find k0 (StrMap.insert k v m) = StrMap.find k0 m.
Proof.
  intros Hne. apply String.eqb_neq in Hne.
  induction m as [|[k' v'] m IH]; simpl.
  - now rewrite Hne.
  - destruct (String.compare k k') eqn:E; simpl.
    + apply String.compare_eq_iff in E. subst k'. now rewrite Hne.
    + now rewrite Hne.
    + destruct (String.eqb k0 k'); [reflexivity|exact IH].
Qed.

Lemma param_store section key p a :
  param (store section key p a) =
  match StrMap.find section (param a) with
  | Some sec =>
      StrMap.insert section (StrMap.insert key p sec) (param a)
  | None =>
      StrMap.insert section (StrMap.insert key p StrMap.empty)
        (StrMap.insert section StrMap.empty (param a))
  end.
Proof.
  unfold store, StrMap.index.
  destruct (StrMap.find section (param a)); reflexivity.
Qed.

Lemma getParam_store_eq section key p a :
  getParam section key (store section key p a) = Some p.
Proof.
  unfold getParam. rewrite param_store.
  destruct (StrMap.find section (param a));
    rewrite find_insert_eq; apply find_insert_eq.
Qed.

Lemma getParam_store_neq section key section' key' p a :
  (section', key') <> (section, key) ->
  getParam section' key' (store section key p a) = getParam section' key' a.
Proof.
  intros Hne. unfold getParam. rewrite param_store.
  destruct (String.eqb_spec section' section) as [->|Hs].
  - assert (Hk : key' <> key) by congruence.
    destruct (StrMap.find section (param a)) eqn:E;
      rewrite find_insert_eq, find_insert_neq by assumption; reflexivity.
  - destruct (StrMap.find section (param a)) eqn:E;
      rewrite !find_insert_neq by assumption; reflexivity.
Qed.


(** ** Strings and streams *)

Lemma append_nil_r (s : string) : s ++ "" = s.
Proof. induction s as [|c s IH]; simpl; [reflexivity|now rewrite IH]. Qed.

Lemma append_assoc (s1 s2 s3 : string) : (s1 ++ s2) ++ s3 = s1 ++ (s2 ++ s3).
Proof. induction s1 as [|c s1 IH]; simpl; [reflexivity|now rewrite IH]. Qed.

Lemma length_append (s1 s2 : string) :
  String.length (s1 ++ s2) = (String.length s1 + String.length s2)%nat.
Proof. induction s1 as [|c s1 IH]; simpl; [reflexivity|now rewrite IH]. Qed.

Lemma extract_until_absent (t : string) (d : ascii) :
  mem_char d t = false -> extract_until t d = (t, "", false).
Proof.
  induction t as [|c t IH]; simpl; [reflexivity|].
  intros H. apply orb_false_iff in H. destruct H as [Hc Ht].
  rewrite Ascii.eqb_sym, Hc, (IH Ht). reflexivity.
Qed.

Lemma extract_until_first (t r : string) (d : ascii) :
  mem_char d t = false -> extract_until (t ++ String d r) d = (t, r, true).
Proof.
  induction t as [|c t IH]; simpl.
  - now rewrite Ascii.eqb_refl.
  - intros H. apply orb_false_iff in H. destruct H as [Hc Ht].
    rewrite Ascii.eqb_sym, Hc, (IH Ht). reflexivity.
Qed.

(** ** The empty string as a vector (C10) *)

(** C10.  [stringToVector] on the empty string: the first [getline] sets
    [eofbit] and [failbit] without extracting anything, the loop body is
    never run, and the guard [if (item.empty()) ret.pop_back()] is reached
    with [item] empty and [ret] empty, so [pop_back] is called on an empty
    vector.  This is so at every element type and delimiter, and therefore
    for [setString("")] on a parameter that stores a vector, and for an ini
    line that gives such a parameter an empty value. *)
Theorem stringToVector_empty_pops_empty_vector :
  (forall (T : Type) (C : StringConv T) (fuel : nat) (delim : ascii),
      stringToVector_loop (T := T) (S fuel) (istringstream "") "" [] delim
      = Ok ("", [])) /\
  (forall (T : Type) (C : StringConv T) (delim : ascii),
      stringToVector (T := T) "" delim = Err PopBackEmpty) /\
  stringTo (T := list Z) "" = Err PopBackEmpty /\
  stringTo (T := list string) "" = Err PopBackEmpty /\
  (forall ty l tg at_ cs,
      setString "" (mkParam ty (VIntVector l) tg at_ cs) = Err PopBackEmpty) /\
  (forall ty l tg at_ cs,
      setString "" (mkParam ty (VStringVector l) tg at_ cs)
      = Err PopBackEmpty) /\
  parse ("[Vector Types]" ++ nl ++ "Int Vec =" ++ nl) Demo.app
  = Err PopBackEmpty.
Proof.
  repeat split; reflexivity.
Qed.

(** ** Trailing comma (C5) *)

(** C5.  An integer sequence without a trailing comma is parsed element by
    element.  With a trailing comma the last [getline] extracts nothing,
    [item] is left empty and no element is pushed for it, yet the guard
    pops: the element removed is the last number, not an empty token. *)
Theorem stringToVector_trailing_comma :
  stringToVector (T := Z) "1,2,3,4" ","%char = Ok [1; 2; 3; 4] /\
  stringToVector (T := Z) "1,2,3," ","%char = Ok [1; 2] /\
  stringToVector (T := Z) "1,2,3," ","%char <> Ok [1; 2; 3] /\
  stringToVector (T := string) "a,b," ","%char = Ok ["a"] /\
  stringToVector (T := string) "a,b,," ","%char = Ok ["a"; "b"].
Proof.
  repeat split; try (vm_compute; reflexivity).
  vm_compute. discriminate.
Qed.

(** ** Application tags in the descriptor (C9) *)

Lemma xml_app_tags_insert (k v : string) (a : ctkCmdLineApplication) :
  ~ In k app_tags -> xml_app_tags (set_tag k v a) = xml_app_tags a.
Proof.
  intros Hk. unfold xml_app_tags. f_equal.
  apply map_ext_in. intros tag Htag.
  unfold set_tag, set_tags. cbn [tags].
  rewrite find_insert_neq; [reflexivity|].
  intros ->. exact (Hk Htag).
Qed.

(** C9.  [setDocumentationUrl] writes the key [documentationUrl] and
    [setTitel] writes the key [titel], while [getXMLDescription] looks for
    [documentation-url] and [title]: whatever is set through these two
    setters, the application tags of the descriptor are the same as
    before.  The tags the setters of [category], [version], [license],
    [contributor], [acknowledgements] and [description] write are found, in
    the order of [app_tags] whatever the order of the calls. *)
Theorem xml_ignores_documentationUrl_and_titel :
  (forall str a,
      xml_app_tags (setDocumentationUrl str a) = xml_app_tags a) /\
  (forall str a, xml_app_tags (setTitel str a) = xml_app_tags a) /\
  xml_app_tags (setDocumentationUrl "http://example.org" Bare.app)
  = "  <title>tool</title>" ++ nl ++ "  <description></description>" ++ nl /\
  xml_app_tags (setLicense "Apache" (setCategory "Toys" Bare.app))
  = xml_app_tags (setCategory "Toys" (setLicense "Apache" Bare.app)) /\
  xml_app_tags (setLicense "Apache" (setCategory "Toys" Bare.app))
  = "  <category>Toys</category>" ++ nl ++ "  <title>tool</title>" ++ nl
    ++ "  <description></description>" ++ nl
    ++ "  <license>Apache</license>" ++ nl.
Proof.
  split; [|split].
  - intros. apply xml_app_tags_insert. vm_compute. intuition discriminate.
  - intros. apply xml_app_tags_insert. vm_compute. intuition discriminate.
  - repeat split; vm_compute; reflexivity.
Qed.

(** ** Round trips (C6) *)

Lemma read_digits_acc (d : Decimal.uint) (acc : positive) (n : nat) :
  read_digits (NilEmpty.string_of_uint d) (Z.pos acc) n
  = (Z.pos (Pos.of_uint_acc d acc), (n + Decimal.nb_digits d)%nat).
Proof.
  revert acc n.
  induction d; intros acc n; cbn [NilEmpty.string_of_uint Decimal.nb_digits];
    [ cbn; f_equal; lia | .. ];
    cbn [read_digits];
    match goal with
    | |- context [digit_of ?c] =>
        let v := eval vm_compute in (digit_of c) in
        change (digit_of c) with v
    end;
    cbn [Pos.of_uint_acc];
    match goal with
    | |- read_digits _ ?z _ = (Z.pos (Pos.of_uint_acc _ ?q), _) =>
        replace z with (Z.pos q) by lia
    end;
    rewrite IHd; f_equal; lia.
Qed.

Lemma read_digits_uint (d : Decimal.uint) (n : nat) :
  read_digits (NilEmpty.string_of_uint d) 0 n
  = (Z.of_N (Pos.of_uint d), (n + Decimal.nb_digits d)%nat).
Proof.
  revert n.
  induction d; intros n; cbn [NilEmpty.string_of_uint Decimal.nb_digits];
    [ cbn; f_equal; lia | .. ];
    cbn [read_digits];
    match goal with
    | |- context [digit_of ?c] =>
        let v := eval vm_compute in (digit_of c) in
        change (digit_of c) with v
    end;
    cbn [Pos.of_uint];
    [ change (10 * 0 + 0) with 0; rewrite IHd; f_equal; lia | .. ];
    match goal with
    | |- read_digits _ ?z _ = (Z.of_N (N.pos (Pos.of_uint_acc _ ?q)), _) =>
        change z with (Z.pos q)
    end;
    rewrite read_digits_acc; f_equal; lia.
Qed.

Lemma string_of_uint_comma_free (d : Decimal.uint) :
  mem_char ","%char (NilEmpty.string_of_uint d) = false.
Proof. induction d; cbn; auto. Qed.

(** The text of a positive number starts with a digit. *)
Lemma stringTo_int_digits (p : positive) :
  let s := NilEmpty.string_of_uint (Pos.to_uint p) in
  skipws s = s /\
  match s with
  | String c _ => c <> "-"%char /\ c <> "+"%char
  | EmptyString => False
  end.
Proof.
  cbv zeta. pose proof (DecimalPos.Unsigned.to_uint_nonnil p) as Hnil.
  destruct (Pos.to_uint p); [congruence| ..]; cbn; repeat split; discriminate.
Qed.

Lemma read_digits_to_uint (p : positive) :
  read_digits (NilEmpty.string_of_uint (Pos.to_uint p)) 0 0
  = (Z.pos p, Decimal.nb_digits (Pos.to_uint p)).
Proof.
  rewrite read_digits_uint, DecimalPos.Unsigned.of_to. reflexivity.
Qed.

Lemma nb_digits_to_uint (p : positive) :
  Nat.eqb (Decimal.nb_digits (Pos.to_uint p)) 0 = false.
Proof.
  apply Nat.eqb_neq. intros H. apply DecimalFacts.nb_digits_0 in H.
  exact (DecimalPos.Unsigned.to_uint_nonnil p H).
Qed.

Lemma stringTo_toString_int (z : Z) :
  INT_MIN <= z <= INT_MAX -> stringTo_int (toString_int z) = Ok z.
Proof.
  intros Hz.
  assert (Hrange : (INT_MIN <=? z) && (z <=? INT_MAX) = true).
  { apply andb_true_iff. split; apply Z.leb_le; lia. }
  destruct z as [|p|p].
  - reflexivity.
  - unfold toString_int, stringTo_int. cbn [Z.to_int NilZero.string_of_int].
    unfold NilZero.string_of_uint.
    pose proof (DecimalPos.Unsigned.to_uint_nonnil p) as Hnil.
    destruct (stringTo_int_digits p) as [Hws Hsign]. cbv zeta in Hws, Hsign.
    pose proof (read_digits_to_uint p) as Hrd.
    pose proof (nb_digits_to_uint p) as Hnb.
    destruct (Pos.to_uint p) eqn:Eu; [congruence| ..];
      rewrite Hws;
      cbn [NilEmpty.string_of_uint] in *;
      cbv iota beta; rewrite Hrd; cbv iota beta; rewrite Hnb, Hrange;
      reflexivity.
  - unfold toString_int, stringTo_int. cbn [Z.to_int NilZero.string_of_int].
    unfold NilZero.string_of_uint.
    pose proof (DecimalPos.Unsigned.to_uint_nonnil p) as Hnil.
    pose proof (read_digits_to_uint p) as Hrd.
    pose proof (nb_digits_to_uint p) as Hnb.
    assert (Hs : skipws (String "-" (NilEmpty.string_of_uint (Pos.to_uint p)))
                 = String "-" (NilEmpty.string_of_uint (Pos.to_uint p)))
      by reflexivity.
    destruct (Pos.to_uint p) eqn:Eu; [congruence| ..];
      rewrite Hs; cbv iota beta; rewrite Hrd; cbv iota beta;
      rewrite Hnb; change (- Z.pos p) with (Z.neg p); rewrite Hrange;
      reflexivity.
Qed.

Import RoundTrip.

Lemma vectortoString_cons {T : Type} {C : StringConv T}
  (x : T) (l : list T) (delim : string) :
  vectortoString (x :: l) delim = toString x ++ join_tail l delim.
Proof.
  unfold vectortoString. generalize (toString x) as acc.
  induction l as [|y l IH]; intros acc; cbn [fold_left join_tail].
  - now rewrite append_nil_r.
  - rewrite IH, !append_assoc. reflexivity.
Qed.

Lemma length_join_tail {T : Type} {C : StringConv T} (l : list T) :
  (List.length l <= String.length (join_tail l ","))%nat.
Proof.
  induction l as [|y l IH]; cbn [join_tail List.length]; [lia|].
  rewrite !length_append. cbn. lia.
Qed.

Lemma last_of_last {T : Type} (x d : T) (l : list T) :
  List.last (x :: l) d = last_of x l.
Proof.
  revert x. induction l as [|y l IH]; intros x; [reflexivity|].
  cbn [last_of]. rewrite <- IH. reflexivity.
Qed.

(** The loop of [stringToVector] on a comma-joined text: every element is
    read back, and [item] ends as the text of the last one. *)
Lemma stringToVector_loop_join {T : Type} {C : StringConv T} (l : list T) :
  forall (x : T) (fuel : nat) (item : string) (ret : list T),
    (List.length l + 2 <= fuel)%nat ->
    Forall (fun y => comma_free (toString y) /\ stringTo (toString y) = Ok y)
      (x :: l) ->
    toString (last_of x l) <> "" ->
    stringToVector_loop fuel
      (istringstream (toString x ++ join_tail l ",")) item ret ","%char
    = Ok (toString (last_of x l), (ret ++ x :: l)%list).
Proof.
  induction l as [|y l IH]; intros x fuel item ret Hfuel Hall Hlast.
  - inversion Hall as [|? ? [Hfree Hparse] _]; subst.
    cbn [join_tail last_of] in *. rewrite append_nil_r.
    destruct fuel as [|[|fuel]]; [cbn in Hfuel; lia | cbn in Hfuel; lia |].
    cbn [stringToVector_loop]. unfold getline at 1.
    cbn [istringstream good eofbit failbit buf negb andb].
    rewrite (extract_until_absent _ _ Hfree).
    apply String.eqb_neq in Hlast. rewrite Hlast.
    cbn [stream_ok failbit negb]. rewrite Hparse. cbn [bind].
    reflexivity.
  - inversion Hall as [|? ? [Hfree Hparse] Hrest]; subst.
    cbn [join_tail last_of] in *.
    destruct fuel as [|fuel]; [cbn in Hfuel; lia|].
    cbn [stringToVector_loop]. unfold getline at 1.
    cbn [istringstream good eofbit failbit buf negb andb].
    change ("," ++ toString y ++ join_tail l ",")
      with (String ","%char (toString y ++ join_tail l ",")).
    rewrite (extract_until_first _ _ _ Hfree).
    cbn [stream_ok failbit negb]. rewrite Hparse. cbn [bind].
    fold (istringstream (toString y ++ join_tail l ",")).
    rewrite IH; [| cbn in Hfuel; lia | assumption | assumption].
    rewrite <- app_assoc. reflexivity.
Qed.

Lemma stringToVector_vectortoString {T : Type} {C : StringConv T}
  (x : T) (l : list T) :
  Forall (fun y => comma_free (toString y) /\ stringTo (toString y) = Ok y)
    (x :: l) ->
  toString (last_of x l) <> "" ->
  stringToVector (vectortoString (x :: l) ",") ","%char = Ok (x :: l).
Proof.
  intros Hall Hlast. unfold stringToVector.
  rewrite vectortoString_cons, stringToVector_loop_join; try assumption.
  - cbn [bind]. apply String.eqb_neq in Hlast. rewrite Hlast. reflexivity.
  - rewrite length_append. pose proof (length_join_tail l). lia.
Qed.

Lemma toString_int_comma_free (z : Z) : comma_free (toString_int z).
Proof.
  unfold comma_free, toString_int.
  destruct z as [|p|p]; cbn [Z.to_int NilZero.string_of_int];
    unfold NilZero.string_of_uint; [reflexivity| |].
  - destruct (Pos.to_uint p) eqn:E; try reflexivity;
      rewrite <- E; apply string_of_uint_comma_free.
  - destruct (Pos.to_uint p) eqn:E; try reflexivity;
      rewrite <- E; cbn [mem_char]; rewrite string_of_uint_comma_free;
      reflexivity.
Qed.

Lemma toString_int_nonempty (z : Z) : toString_int z <> "".
Proof.
  unfold toString_int.
  destruct z as [|p|p]; cbn [Z.to_int NilZero.string_of_int];
    unfold NilZero.string_of_uint; try discriminate.
  pose proof (DecimalPos.Unsigned.to_uint_nonnil p).
  destruct (Pos.to_uint p); [congruence| ..]; discriminate.
Qed.

(** C6, as amended.  [stringTo<T>(toString<T>(x)) == x] holds for every
    bool, every int, every string, every non-empty vector of ints, and
    every non-empty vector of strings whose elements hold no comma and
    whose last element is not empty.  (The instantiations at float and
    double are not part of this development, and nothing is stated about
    the empty vector.) *)
Theorem stringTo_toString_roundtrip :
  (forall b : bool, stringTo (toString b) = Ok b) /\
  (forall z : Z, in_int_range z -> stringTo (toString z) = Ok z) /\
  (forall s : string, stringTo (toString s) = Ok s) /\
  (forall l : list Z,
      l <> [] -> Forall in_int_range l -> stringTo (toString l) = Ok l) /\
  (forall l : list string,
      l <> [] -> Forall comma_free l -> List.last l "" <> "" ->
      stringTo (toString l) = Ok l).
Proof.
  split; [|split; [|split; [|split]]].
  - intros []; reflexivity.
  - intros z Hz. apply stringTo_toString_int. exact Hz.
  - reflexivity.
  - intros [|x l] Hne Hall; [congruence|].
    cbn [stringTo toString conv_vector_int].
    apply stringToVector_vectortoString.
    + eapply Forall_impl; [|exact Hall].
      intros z Hz. split.
      * apply toString_int_comma_free.
      * apply stringTo_toString_int. exact Hz.
    + apply toString_int_nonempty.
  - intros [|x l] Hne Hall Hlast; [congruence|].
    cbn [stringTo toString conv_vector_string].
    apply stringToVector_vectortoString.
    + eapply Forall_impl; [|exact Hall].
      intros y Hy. split; [exact Hy|reflexivity].
    + rewrite <- (last_of_last x ""). exact Hlast.
Qed.

Lemma stringTo_toString_roundtrip_witness :
  stringTo (toString (-2147483648)) = Ok (-2147483648) /\
  stringTo (toString [3; -1; 0]) = Ok [3; -1; 0] /\
  stringTo (toString ["a"; ""; "b c"]) = Ok ["a"; ""; "b c"].
Proof.
  destruct stringTo_toString_roundtrip as (_ & Hint & _ & Hvi & Hvs).
  split; [|split].
  - apply Hint. unfold in_int_range, INT_MIN, INT_MAX. lia.
  - apply Hvi; [discriminate|].
    repeat constructor; unfold INT_MIN, INT_MAX; lia.
  - apply Hvs; [discriminate| |discriminate].
    repeat constructor.
Defined.

(** C6, as stated, fails: a vector of strings with an element that holds a
    comma comes back as a longer vector. *)
Lemma roundtrip_string_vector_counterexample :
  vectortoString ["a,b"] "," = "a,b" /\
  stringToVector (T := string) (vectortoString ["a,b"] ",") ","%char
  = Ok ["a"; "b"] /\
  stringTo (T := list string) (toString ["a,b"]) <> Ok ["a,b"].
Proof. split; [reflexivity|split; [reflexivity|discriminate]]. Qed.

(** ** setParam (C7) *)

Lemma setString_VString ty v tg at_ cs s :
  setString s (mkParam ty (VString v) tg at_ cs)
  = Ok (mkParam ty (VString s) tg at_ cs).
Proof. reflexivity. Qed.





(** ** Loading ini text (C8) *)

Import IniSpec.

Lemma extract_until_line_found (s t r : string) :
  extract_until s newline = (t, r, true) -> lines_of s = t :: lines_of r.
Proof.
  revert t r. induction s as [|c s IH]; intros t r; cbn [extract_until lines_of].
  - discriminate.
  - destruct (Ascii.eqb c newline).
    + intros [= <- <-]. reflexivity.
    + destruct (extract_until s newline) as [[t' r'] f'].
      intros [= <- <- ->]. rewrite (IH t' r' eq_refl). reflexivity.
Qed.

Lemma extract_until_line_last (s t r : string) :
  extract_until s newline = (t, r, false) -> lines_of s = [t].
Proof.
  revert t r. induction s as [|c s IH]; intros t r; cbn [extract_until lines_of].
  - intros [= <- <-]. reflexivity.
  - destruct (Ascii.eqb c newline).
    + discriminate.
    + destruct (extract_until s newline) as [[t' r'] f'].
      intros [= <- <- ->]. rewrite (IH t' r' eq_refl). reflexivity.
Qed.

Lemma length_lines_of (s : string) :
  (List.length (lines_of s) <= String.length s + 1)%nat.
Proof.
  induction s as [|c s IH]; cbn [lines_of String.length List.length]; [lia|].
  destruct (Ascii.eqb c newline); cbn [List.length]; [lia|].
  destruct (lines_of s); cbn [List.length] in *; lia.
Qed.

(** With fuel for every line and one more test of [eof], the loop of
    [parse] is the line-by-line reading. *)
Lemma parse_loop_run_lines (fuel : nat) :
  forall (s list_ : string) (a : ctkCmdLineApplication),
    (List.length (lines_of s) + 1 <= fuel)%nat ->
    parse_loop fuel (istringstream s) list_ a = run_lines (lines_of s) list_ a.
Proof.
  induction fuel as [|fuel IH]; intros s list_ a Hfuel; [lia|].
  cbn [parse_loop]. unfold getline, good, eof, istringstream.
  cbn [eofbit failbit buf negb andb].
  destruct (extract_until s newline) as [[t r] found] eqn:E.
  destruct found.
  - pose proof (extract_until_line_found _ _ _ E) as Hl.
    rewrite Hl in *. cbn [run_lines List.length] in *.
    fold (istringstream r).
    destruct (classify t) as [|l|key value]; rewrite ?IH by lia;
      try reflexivity.
    destruct (setString_at list_ key value a); cbn [bind]; [|reflexivity].
    apply IH. lia.
  - pose proof (extract_until_line_last _ _ _ E) as Hl.
    rewrite Hl in *. cbn [run_lines List.length] in *.
    destruct fuel as [|fuel]; [lia|].
    destruct (classify t) as [|l|key value]; cbn [parse_loop eof eofbit];
      unfold eof; cbn [eofbit]; reflexivity.
Qed.

Lemma parse_run_lines (ini : string) (a : ctkCmdLineApplication) :
  parse ini a = run_lines (lines_of ini) "Global" a.
Proof.
  unfold parse. apply parse_loop_run_lines.
  pose proof (length_lines_of ini). lia.
Qed.

(** [setString] on a registered parameter registers and unregisters
    nothing. *)
Lemma setString_at_keys section key value a a' :
  setString_at section key value a = Ok a' ->
  forall s k, getParam s k a' = None <-> getParam s k a = None.
Proof.
  unfold setString_at. destruct (getParam section key a) as [p|] eqn:Hp;
    [|discriminate].
  destruct (setString value p) as [p'|]; cbn [bind]; [|discriminate].
  intros [= <-] s k.
  destruct (String.eqb_spec s section) as [->|Hs];
    [destruct (String.eqb_spec k key) as [->|Hk]|].
  - rewrite getParam_store_eq, Hp. split; discriminate.
  - rewrite getParam_store_neq by congruence. reflexivity.
  - rewrite getParam_store_neq by congruence. reflexivity.
Qed.

Lemma run_lines_undeclared (lines : list string) :
  forall list_ a s k v,
    In (s, k, v) (assignments_from list_ lines) ->
    getParam s k a = None ->
    exists e, run_lines lines list_ a = Err e.
Proof.
  induction lines as [|line rest IH]; intros list_ a s k v Hin Hnone;
    cbn [assignments_from run_lines] in *; [contradiction|].
  destruct (classify line) as [|l|key value]; eauto.
  destruct Hin as [[= <- <- <-]|Hin].
  - unfold setString_at. rewrite Hnone. cbn [bind]. eauto.
  - destruct (setString_at list_ key value a) as [a'|e] eqn:E; cbn [bind];
      [|eauto].
    eapply IH; [exact Hin|].
    apply (setString_at_keys _ _ _ _ _ E). exact Hnone.
Qed.

Lemma run_lines_first_undeclared (lines : list string) :
  forall list_ a pre s k v post a1,
    assignments_from list_ lines = (pre ++ (s, k, v) :: post)%list ->
    Forall (declared a) pre ->
    apply_all pre a = Ok a1 ->
    getParam s k a = None ->
    run_lines lines list_ a = Err NullDeref.
Proof.
  induction lines as [|line rest IH];
    intros list_ a pre s k v post a1 Hsplit Hpre Hrun Hnone;
    cbn [assignments_from run_lines] in *.
  - destruct pre; discriminate.
  - destruct (classify line) as [|l|key value]; eauto.
    destruct pre as [|[[s0 k0] v0] pre].
    + cbn [app] in Hsplit. injection Hsplit as <- <- <- Hrest.
      unfold setString_at. rewrite Hnone. reflexivity.
    + cbn [app] in Hsplit. injection Hsplit as <- <- <- Hrest.
      inversion Hpre as [|? ? Hd Hpre']; subst.
      unfold declared in Hd. cbn [fst snd] in Hd.
      cbn [apply_all apply_declared] in Hrun. unfold setString_at.
      destruct (getParam list_ key a) as [p|] eqn:Hp; [|congruence].
      destruct (setString value p) as [p'|e] eqn:Hset; cbn [bind] in *;
        [|discriminate].
      assert (Hkeys : forall s' k', getParam s' k' (store list_ key p' a) = None
                                    <-> getParam s' k' a = None).
      { apply (setString_at_keys list_ key value). unfold setString_at.
        rewrite Hp, Hset. reflexivity. }
      eapply IH; [exact Hrest| |exact Hrun|now apply Hkeys].
      eapply Forall_impl; [|exact Hpre'].
      intros t Ht. unfold declared in *. now rewrite Hkeys.
Qed.

Lemma run_lines_declared (lines : list string) :
  forall list_ a,
    Forall (declared a) (assignments_from list_ lines) ->
    run_lines lines list_ a = apply_all (assignments_from list_ lines) a.
Proof.
  induction lines as [|line rest IH]; intros list_ a Hall;
    cbn [assignments_from run_lines apply_all] in *; [reflexivity|].
  destruct (classify line) as [|l|key value]; eauto.
  inversion Hall as [|? ? Hd Hrest]; subst.
  unfold declared in Hd. cbn [fst snd] in Hd.
  cbn [apply_all apply_declared]. unfold setString_at.
  destruct (getParam list_ key a) as [p|] eqn:Hp; [|congruence].
  destruct (setString value p) as [p'|e] eqn:Hset; cbn [bind]; [|reflexivity].
  apply IH.
  eapply Forall_impl; [|exact Hrest].
  intros t Ht. unfold declared in *.
  rewrite (setString_at_keys list_ key value a); [exact Ht|].
  unfold setString_at. rewrite Hp, Hset. reflexivity.
Qed.

(** C8.  A line [key = value] whose key is not registered in the current
    section makes [parse] fail: the text is never loaded with such a line
    passed over, and when the lines before it were applied the failure is
    the call through the null pointer that [param[list][key]] yields.
    When every pair the text mentions is registered, [parse] is the
    application of [setString] to the registered parameter, line after
    line. *)
Theorem parse_undeclared_key_is_fatal
  (ini : string) (a : ctkCmdLineApplication) :
  (forall s k v,
      In (s, k, v) (assignments ini) -> getParam s k a = None ->
      exists e, parse ini a = Err e) /\
  (forall pre s k v post a1,
      assignments ini = (pre ++ (s, k, v) :: post)%list ->
      Forall (declared a) pre -> apply_all pre a = Ok a1 ->
      getParam s k a = None ->
      parse ini a = Err NullDeref) /\
  (Forall (declared a) (assignments ini) ->
   parse ini a = apply_all (assignments ini) a).
Proof.
  rewrite parse_run_lines. unfold assignments. split; [|split].
  - intros s k v Hin Hnone. eapply run_lines_undeclared; eassumption.
  - intros pre s k v post a1 Hsplit Hpre Hrun Hnone.
    eapply run_lines_first_undeclared; eassumption.
  - apply run_lines_declared.
Qed.

Lemma parse_undeclared_key_is_fatal_witness :
  parse ("[Name]" ++ nl ++ "Last Name = Wayne" ++ nl) Demo.app
  = Err NullDeref /\
  parse ("[Name]" ++ nl ++ "First Name = Bruce" ++ nl) Demo.app
  = apply_all [("Name", "First Name", "Bruce")] Demo.app.
Proof.
  split.
  - apply (proj1 (proj2 (parse_undeclared_key_is_fatal
                           ("[Name]" ++ nl ++ "Last Name = Wayne" ++ nl)
                           Demo.app))
             [] "Name" "Last Name" "Wayne" [] Demo.app);
      [reflexivity | constructor | reflexivity | reflexivity].
  - apply (proj2 (proj2 (parse_undeclared_key_is_fatal
                           ("[Name]" ++ nl ++ "First Name = Bruce" ++ nl)
                           Demo.app))).
    repeat constructor. discriminate.
Defined.

(** ** The scan of the command line (C1, C3, C4) *)

Lemma list_set_nth {A : Type} (l : list A) (n : nat) (x y : A) :
  nth_error l n = Some x -> nth_error (list_set l n y) n = Some y.
Proof.
  revert n. induction l as [|z l IH]; intros [|n]; cbn; try discriminate.
  - reflexivity.
  - apply IH.
Qed.

Lemma argv_get_set (argv : list (option string)) (i : Z) (x y : option string) :
  argv_get argv i = Ok x -> argv_get (argv_set argv i y) i = Ok y.
Proof.
  unfold argv_get, argv_set. destruct (i <? 0); [discriminate|].
  destruct (nth_error argv (Z.to_nat i)) eqn:E; [|discriminate].
  intros _. now rewrite (list_set_nth _ _ _ y E).
Qed.

Lemma builtin_false (cmd : string) :
  builtin cmd = false ->
  String.eqb cmd "--xml" = false /\
  (String.eqb cmd "--help" || String.eqb cmd "-h") = false /\
  (String.eqb cmd "--ctk-save-ini" || String.eqb cmd "--ctk-load-ini") = false.
Proof.
  unfold builtin. intros H.
  apply orb_false_iff in H. destruct H as [H H3].
  apply orb_false_iff in H. destruct H as [H1 H2]. auto.
Qed.

(** The body of the loop at a token that starts with [-], is not a
    built-in switch and is not the last one: the cell is set to null and
    the flag is looked up. *)
Lemma scan_step_flag (argc : Z) (st : scan_state) (cmd : string) :
  argv_get (argv st) (i st) = Ok (Some cmd) ->
  char_at 0 cmd = "-"%char ->
  builtin cmd = false ->
  i st <> argc - 1 ->
  scan_step argc st
  = dispatch cmd
      (mkScan (i st) (index st) (argv_set (argv st) (i st) None)
         (app st) (world st)).
Proof.
  intros Hget Hdash Hb Hlast. unfold scan_step.
  rewrite Hget. cbn [bind cstring].
  destruct (builtin_false _ Hb) as (-> & -> & ->).
  rewrite Hdash, Ascii.eqb_refl.
  apply Z.eqb_neq in Hlast. rewrite Hlast. reflexivity.
Qed.

Lemma scan_step_flag_last (argc : Z) (st : scan_state) (cmd : string) :
  argv_get (argv st) (i st) = Ok (Some cmd) ->
  char_at 0 cmd = "-"%char ->
  builtin cmd = false ->
  i st = argc - 1 ->
  scan_step argc st
  = Ok (Break,
        mkScan (i st) (index st) (argv st) (app st)
          (expected_value cmd (world st))).
Proof.
  intros Hget Hdash Hb Hlast. unfold scan_step.
  rewrite Hget. cbn [bind cstring].
  destruct (builtin_false _ Hb) as (-> & -> & ->).
  rewrite Hdash, Ascii.eqb_refl.
  apply Z.eqb_eq in Hlast. rewrite Hlast. reflexivity.
Qed.

Lemma toString_index_no_dash (n : Z) :
  0 <= n -> Ascii.eqb (char_at 0 (toString n)) "-"%char = false.
Proof.
  intros Hn. cbn [toString conv_int]. unfold toString_int.
  destruct n as [|p|p]; [reflexivity| |lia].
  cbn [Z.to_int NilZero.string_of_int]. unfold NilZero.string_of_uint.
  pose proof (DecimalPos.Unsigned.to_uint_nonnil p) as Hnil.
  destruct (Pos.to_uint p); [congruence| ..]; reflexivity.
Qed.

(** C1.  At a flag token bound to a parameter that is not boolean, and
    followed by another token, the loop first writes the null pointer
    into [argv[i]] and then calls [p->setString(argv[i])] with that same
    cell: the string is built from a null pointer and the token after the
    flag is never given to the parameter.  So it is for the command line
    [--name-first-name Bruce]. *)
Theorem flag_value_read_from_nulled_cell :
  (forall argc st cmd section key p,
      argv_get (argv st) (i st) = Ok (Some cmd) ->
      char_at 0 cmd = "-"%char ->
      builtin cmd = false ->
      i st <> argc - 1 ->
      StrMap.find cmd (commandLineFlags (app st)) = Some (section, key) ->
      getParam section key (app st) = Some p ->
      String.eqb (getType p) getTypeName_bool = false ->
      scan_step argc st = Err NullString) /\
  parseCommandLine 2 (main_argv ["--name-first-name"; "Bruce"])
    Demo.app Demo.world
  = Err NullString.
Proof.
  split; [|reflexivity].
  intros argc st cmd section key p Hget Hdash Hb Hlast Hfind Hp Hty.
  rewrite (scan_step_flag _ _ _ Hget Hdash Hb Hlast).
  unfold dispatch. cbn [app argv i commandLineFlags].
  rewrite Hfind, Hp, Hty, (argv_get_set _ _ _ None Hget).
  reflexivity.
Qed.

Lemma flag_value_read_from_nulled_cell_witness :
  scan_step 2
    (mkScan 0 0 (main_argv ["--name-first-name"; "Bruce"]) Demo.app Demo.world)
  = Err NullString.
Proof.
  apply (proj1 flag_value_read_from_nulled_cell 2 _
           "--name-first-name" "Name" "First Name"
           (mkParam "string" (VString "")
              [("description", ""); ("longflag", "name-first-name");
               ("name", "name-first-name")] [] []));
    try reflexivity.
  cbn. lia.
Defined.

(** The synopsis reads tags of the parameters and so inserts some; it
    writes no value. *)
Lemma fold_append_Forall2 {X Y B : Type} (R : X -> Y -> Prop)
  (step : list Y * B -> X -> list Y * B) :
  (forall st x, exists y b, step st x = ((fst st ++ [y])%list, b) /\ R x y) ->
  forall (l : list X) (pre : list Y) (b : B),
    exists l',
      fst (fold_left step l (pre, b)) = (pre ++ l')%list /\ Forall2 R l l'.
Proof.
  intros Hstep. induction l as [|x l IH]; intros pre b; cbn [fold_left].
  - exists []. split; [now rewrite List.app_nil_r|constructor].
  - destruct (Hstep (pre, b) x) as (y & b' & -> & Hxy). cbn [fst].
    destruct (IH (pre ++ [y])%list b') as (l' & -> & Hl).
    exists (y :: l'). split; [now rewrite <- List.app_assoc|].
    now constructor.
Qed.

Lemma find_Forall2 {V V' : Type} (Q : V -> V' -> Prop)
  (m : StrMap.t V) (m' : StrMap.t V') (k : string) (v : V) :
  Forall2 (fun x y => fst y = fst x /\ Q (snd x) (snd y)) m m' ->
  StrMap.find k m = Some v ->
  exists v', StrMap.find k m' = Some v' /\ Q v v'.
Proof.
  induction 1 as [|[k1 v1] [k2 v2] m m' [Hk Hq] _ IH]; cbn [StrMap.find];
    [discriminate|].
  cbn [fst snd] in Hk, Hq. subst k2.
  destruct (String.eqb k k1); [|exact IH].
  intros [= <-]. eauto.
Qed.

Lemma visit_section_values {A : Type}
  (f : string -> string -> ctkParamData -> A -> ctkParamData * A)
  (section : string) (sec : Section_) (acc : A) :
  (forall s k p acc0, value (fst (f s k p acc0)) = value p) ->
  Forall2 (fun x y : string * ctkParamData =>
             fst y = fst x /\ value (snd y) = value (snd x))
    sec (fst (visit_section f section sec acc)).
Proof.
  intros Hf.
  destruct (fold_append_Forall2
              (fun x y : string * ctkParamData =>
                 fst y = fst x /\ value (snd y) = value (snd x))
              (fun (st : Section_ * A) (kp : string * ctkParamData) =>
                 let (p', acc') := f section (fst kp) (snd kp) (snd st) in
                 ((fst st ++ [(fst kp, p')])%list, acc'))) with
    (l := sec) (pre := @nil (string * ctkParamData)) (b := acc)
    as (l' & Heq & Hl);
    [|change (fst (visit_section f section sec acc) = l') in Heq;
      rewrite Heq; exact Hl].
  intros st x. cbv beta.
  destruct (f section (fst x) (snd x) _) as [p' acc'] eqn:E.
  exists (fst x, p'), acc'. split; [reflexivity|]. split; [reflexivity|].
  apply (f_equal fst) in E. cbn [fst snd] in E |- *. rewrite <- E. apply Hf.
Qed.

Lemma usage_line_value (indent : string) (p : ctkParamData) :
  value (snd (usage_line indent p)) = value p.
Proof.
  unfold usage_line.
  repeat match goal with
         | |- context [let (_, _) := ?x in _] => destruct x
         | |- context [if ?b then _ else _] => destruct b
         end; reflexivity.
Qed.

Lemma printOptionVerbose_value (p : ctkParamData) :
  value (snd (printOptionVerbose p)) = value p.
Proof.
  unfold printOptionVerbose.
  repeat match goal with
         | |- context [let (_, _) := ?x in _] => destruct x
         | |- context [if ?b then _ else _] => destruct b
         end; reflexivity.
Qed.

Lemma fold_left_invariant {X M : Type} (Inv : M -> Prop) (f : M -> X -> M) :
  (forall m x, Inv m -> Inv (f m x)) ->
  forall (l : list X) (m : M), Inv m -> Inv (fold_left f l m).
Proof.
  intros Hf. induction l as [|x l IH]; intros m Hm; cbn [fold_left]; auto.
Qed.

Lemma getSynopsis_keeps_values
  (section key : string) (p : ctkParamData) (a : ctkCmdLineApplication) :
  getParam section key a = Some p ->
  exists p',
    getParam section key (snd (getSynopsis a)) = Some p' /\
    value p' = value p.
Proof.
  intros Hp.
  set (Rp := fun x y : string * ctkParamData =>
               fst y = fst x /\ value (snd y) = value (snd x)).
  set (Rs := fun x y : string * Section_ =>
               fst y = fst x /\ Forall2 Rp (snd x) (snd y)).
  assert (Hget : forall m m' q,
             Forall2 Rs m m' ->
             match StrMap.find section m with
             | Some sec => StrMap.find key sec
             | None => None
             end = Some q ->
             exists q',
               match StrMap.find section m' with
               | Some sec => StrMap.find key sec
               | None => None
               end = Some q' /\ value q' = value q).
  { intros m m' q Hm Hq.
    destruct (StrMap.find section m) as [sec|] eqn:Hsec; [|discriminate].
    destruct (find_Forall2 (fun s s' : Section_ => Forall2 Rp s s')
                m m' section sec Hm Hsec) as (sec' & -> & Hsecs).
    exact (find_Forall2 (fun x y => value y = value x) sec sec' key q
             Hsecs Hq). }
  unfold getSynopsis.
  destruct (at_ "titel" (tags a)) as [titel tg1].
  match goal with
  | |- context [visit_params ?f ?m ?acc] =>
      pose proof (fold_append_Forall2 Rs
                    (fun (st : StrMap.t Section_ * _) (ks : string * Section_) =>
                       let (sec', acc') :=
                         visit_section f (fst ks) (snd ks) (snd st) in
                       ((fst st ++ [(fst ks, sec')])%list, acc'))) as H1;
      specialize (fun H => H1 H m [] acc);
      change (fold_left _ m ([], acc)) with (visit_params f m acc) in H1;
      destruct H1 as (l1 & Hl1 & HR1)
  end.
  { intros st ks. cbv beta.
    match goal with
    | |- context [visit_section ?f ?s ?sec ?acc] =>
        pose proof (visit_section_values f s sec acc) as Hv;
        destruct (visit_section f s sec acc) as [sec' acc']
    end.
    exists (fst ks, sec'), acc'. split; [reflexivity|]. split; [reflexivity|].
    apply Hv. intros s k q acc0.
    pose proof (usage_line_value
                  ("      " ++ spaces (String.length titel)) q) as Hu.
    destruct (usage_line _ q) as [[line idx] q']. exact Hu. }
  destruct (visit_params _ _ _) as [m1 [usage indexed]].
  cbn [fst List.app] in Hl1. subst l1.
  match goal with
  | |- context [fold_left ?step m1 ([], "")] =>
      destruct (fold_append_Forall2 Rs step) with
        (l := m1) (pre := @nil (string * Section_)) (b := "")
        as (l2 & Hl2 & HR2)
  end.
  { intros st ks. cbv beta.
    match goal with
    | |- context [visit_section ?f ?s ?sec ?acc] =>
        pose proof (visit_section_values f s sec acc) as Hv;
        destruct (visit_section f s sec acc) as [sec' text]
    end.
    eexists (fst ks, sec'), _. split; [reflexivity|]. split; [reflexivity|].
    apply Hv. intros s k q acc0.
    pose proof (printOptionVerbose_value q) as Hu.
    destruct (printOptionVerbose q) as [t q']. exact Hu. }
  destruct (fold_left _ m1 _) as [m2 verbose].
  cbn [fst List.app] in Hl2. subst l2.
  destruct (at_ "description" tg1) as [description tg2].
  destruct (at_ "contributor" tg2) as [contributor tg3].
  destruct (at_ "acknowledgements" tg3) as [acknowledgements tg4].
  cbn [snd]. unfold getParam at 1. cbn [param].
  destruct (Hget _ _ _ HR1 Hp) as (q1 & Hq1 & Hv1).
  destruct (Hget _ _ _ HR2 Hq1) as (q2 & Hq2 & Hv2).
  rewrite <- Hv1, <- Hv2. clear Hq1 Hv1 Hv2 HR1 HR2 Hp Hget.
  revert Hq2. generalize q2. intros q Hq.
  apply (fold_left_invariant
           (fun m : StrMap.t Section_ =>
              exists p',
                match StrMap.find section m with
                | Some sec => StrMap.find key sec
                | None => None
                end = Some p' /\ value p' = value q));
    [|eauto].
  clear Hq. intros m e (p0 & Hp0 & Hv0).
  destruct (StrMap.find (fst (snd e)) m) as [sec0|] eqn:Hsec0; [|eauto].
  destruct (String.eqb_spec section (fst (snd e))) as [Hs|Hs];
    [|rewrite find_insert_neq by exact Hs; eauto].
  rewrite <- Hs in Hsec0 |- *. rewrite find_insert_eq.
  rewrite Hsec0 in Hp0.
  destruct (String.eqb_spec key (snd (snd e))) as [Hk|Hk];
    [|rewrite find_insert_neq by exact Hk; eauto].
  rewrite <- Hk, find_insert_eq, Hp0.
  eexists. split; [reflexivity|exact Hv0].
Qed.

(** C3, as amended.  At the flag token of a boolean parameter that is
    not one of the switches of the loop itself and is followed by another
    token, the loop negates the stored value, marks the flag token alone
    as handled and goes on with the token after it, which it reads as a
    token of its own.  When such a flag token is the last one, the loop
    stops with the diagnostic about the missing value: the value, the
    array and the registry are as before.  A token [--help] or [-h] is
    taken as the help switch before any flag is looked up: the synopsis
    is printed, the token is marked as handled, and a boolean parameter
    bound to it keeps its value. *)
Theorem bool_flag_toggles_when_followed
  (argc : Z) (st : scan_state) (cmd section key : string)
  (p : ctkParamData) (b : bool) :
  argv_get (argv st) (i st) = Ok (Some cmd) ->
  char_at 0 cmd = "-"%char ->
  StrMap.find cmd (commandLineFlags (app st)) = Some (section, key) ->
  getParam section key (app st) = Some p ->
  getType p = getTypeName_bool ->
  value p = VBool b ->
  (builtin cmd = false -> i st <> argc - 1 ->
   scan_step argc st
   = Ok (Continue,
         mkScan (i st + 1) (index st) (argv_set (argv st) (i st) None)
           (store section key (set_value p (VBool (negb b))) (app st))
           (world st))) /\
  (builtin cmd = false -> i st = argc - 1 ->
   scan_step argc st
   = Ok (Break,
         mkScan (i st) (index st) (argv st) (app st)
           (expected_value cmd (world st)))) /\
  (String.eqb cmd "--help" || String.eqb cmd "-h" = true ->
   exists p',
     scan_step argc st
     = Ok (Continue,
           mkScan (i st + 1) (index st) (argv_set (argv st) (i st) None)
             (snd (getSynopsis (app st)))
             (put_cout (fst (getSynopsis (app st))) (world st))) /\
     getParam section key (snd (getSynopsis (app st))) = Some p' /\
     value p' = VBool b).
Proof.
  intros Hget Hdash Hfind Hp Hty Hval. split; [|split].
  - intros Hb Hlast.
    rewrite (scan_step_flag _ _ _ Hget Hdash Hb Hlast).
    unfold dispatch. cbn [app argv i index world commandLineFlags].
    rewrite Hfind, Hp, Hty, String.eqb_refl.
    unfold getString, setString. rewrite Hval.
    destruct b; reflexivity.
  - intros Hb Hlast. apply scan_step_flag_last; assumption.
  - intros Hhelp.
    destruct (getSynopsis_keeps_values _ _ _ _ Hp) as (p' & Hp' & Hv).
    exists p'. split; [|split; [exact Hp'|congruence]].
    unfold scan_step. rewrite Hget. cbn [bind cstring].
    assert (Hxml : String.eqb cmd "--xml" = false).
    { apply orb_true_iff in Hhelp.
      destruct Hhelp as [H|H]; apply String.eqb_eq in H; subst; reflexivity. }
    rewrite Hxml, Hhelp.
    destruct (getSynopsis (app st)). reflexivity.
Qed.

Lemma bool_flag_toggles_when_followed_witness :
  scan_step 2
    (mkScan 0 0 (main_argv ["--basic-types-bool-param"; "x"])
       Demo.app Demo.world)
  = Ok (Continue,
        mkScan 1 0 [None; Some "x"; None]
          (store "Basic Types" "Bool Param"
             (mkParam "boolean" (VBool false)
                [("description", "Just a test"); ("flag", "b");
                 ("longflag", "basic-types-bool-param");
                 ("name", "basic-types-bool-param")] [] [])
             Demo.app)
          Demo.world).
Proof.
  apply (proj1 (bool_flag_toggles_when_followed 2
                  (mkScan 0 0 (main_argv ["--basic-types-bool-param"; "x"])
                     Demo.app Demo.world)
                  "--basic-types-bool-param" "Basic Types" "Bool Param"
                  (mkParam "boolean" (VBool true)
                     [("description", "Just a test"); ("flag", "b");
                      ("longflag", "basic-types-bool-param");
                      ("name", "basic-types-bool-param")] [] [])
                  true
                  eq_refl eq_refl eq_refl eq_refl eq_refl eq_refl)).
  - reflexivity.
  - cbn. lia.
Defined.

(** C3, as stated, fails on its own example: with the boolean parameter
    at [true] and the command line [--basic-types-bool-param], the scan
    stops before the lookup; the value is still [true] and the token is
    still in the array. *)
Lemma bool_flag_alone_counterexample :
  exists r p,
    parseCommandLine 1 (main_argv ["--basic-types-bool-param"])
      Demo.app Demo.world = Ok r /\
    getParam "Basic Types" "Bool Param" (app_out r) = Some p /\
    value p = VBool true /\
    value p <> VBool false /\
    argv_out r = [Some "--basic-types-bool-param"; None] /\
    argv_out r <> [None] /\
    handled_out r = 0.
Proof.
  eexists. eexists.
  split; [vm_compute; reflexivity|].
  split; [vm_compute; reflexivity|].
  repeat split; try reflexivity; discriminate.
Qed.

(** C4.  A token that starts with [-] and is followed by another token is
    marked as handled before the flags are searched, so an unknown flag
    gets its diagnostic and is nevertheless taken out of the array.  A
    token without [-] that matches no index is passed without diagnostic
    and stays.  On [--not-a-flag x] the scan leaves a null pointer in the
    first cell, and after the last loop the array holds [x] twice. *)
Theorem unknown_flag_is_marked_handled :
  (forall argc st cmd,
      argv_get (argv st) (i st) = Ok (Some cmd) ->
      char_at 0 cmd = "-"%char ->
      builtin cmd = false ->
      i st <> argc - 1 ->
      StrMap.find cmd (commandLineFlags (app st)) = None ->
      scan_step argc st
      = Ok (Continue,
            mkScan (i st + 1) (index st) (argv_set (argv st) (i st) None)
              (app st)
              (put_cerr ("Ignored command line argument " ++ cmd ++ nl)
                 (world st)))) /\
  (forall argc st cmd,
      argv_get (argv st) (i st) = Ok (Some cmd) ->
      Ascii.eqb (char_at 0 cmd) "-"%char = false ->
      builtin cmd = false ->
      0 <= index st ->
      StrMap.find (toString (index st)) (commandLineFlags (app st)) = None ->
      scan_step argc st
      = Ok (Continue,
            mkScan (i st + 1) (index st + 1) (argv st) (app st) (world st))) /\
  scan_loop 2 2 (mkScan 0 0 (main_argv ["--not-a-flag"; "x"])
                   Bare.app Demo.world)
  = Ok (mkScan 2 1 [None; Some "x"; None] Bare.app
          (mkWorld ""
             ("Ignored command line argument --not-a-flag" ++ nl)
             StrMap.empty)) /\
  parseCommandLine 2 (main_argv ["--not-a-flag"; "x"]) Bare.app Demo.world
  = Ok (mkParsed 2 [Some "x"; Some "x"; None] 1 Bare.app
          (mkWorld ""
             ("Ignored command line argument --not-a-flag" ++ nl)
             StrMap.empty)).
Proof.
  split; [|split; [|split; reflexivity]].
  - intros argc st cmd Hget Hdash Hb Hlast Hfind.
    rewrite (scan_step_flag _ _ _ Hget Hdash Hb Hlast).
    unfold dispatch. cbn [app argv i index world commandLineFlags].
    rewrite Hfind, Hdash, Ascii.eqb_refl. reflexivity.
  - intros argc st cmd Hget Hdash Hb Hidx Hfind.
    unfold scan_step. rewrite Hget. cbn [bind cstring].
    destruct (builtin_false _ Hb) as (-> & -> & ->).
    rewrite Hdash. unfold dispatch.
    cbn [app argv i index world commandLineFlags].
    rewrite Hfind, (toString_index_no_dash _ Hidx). reflexivity.
Qed.

Lemma unknown_flag_is_marked_handled_witness :
  scan_step 2
    (mkScan 0 0 (main_argv ["--not-a-flag"; "x"]) Bare.app Demo.world)
  = Ok (Continue,
        mkScan 1 0 [None; Some "x"; None] Bare.app
          (mkWorld ""
             ("Ignored command line argument --not-a-flag" ++ nl)
             StrMap.empty)) /\
  scan_step 2
    (mkScan 1 0 [None; Some "x"; None] Bare.app Demo.world)
  = Ok (Continue, mkScan 2 1 [None; Some "x"; None] Bare.app Demo.world).
Proof.
  split.
  - apply (proj1 unknown_flag_is_marked_handled 2
             (mkScan 0 0 (main_argv ["--not-a-flag"; "x"])
                Bare.app Demo.world) "--not-a-flag");
      try reflexivity.
    cbn. lia.
  - apply (proj1 (proj2 unknown_flag_is_marked_handled) 2
             (mkScan 1 0 [None; Some "x"; None] Bare.app Demo.world) "x");
      reflexivity.
Defined.

(** ** The removal of the handled arguments (C2) *)

(** The int the caller passed by address is never written. *)
Lemma parseCommandLine_argc_unchanged argc argv a w r :
  parseCommandLine argc argv a w = Ok r -> argc_out r = argc.
Proof.
  unfold parseCommandLine.
  destruct (scan_loop _ _ _) as [st|]; cbn [bind]; [|discriminate].
  destruct (compact _ _) as [[argv' handled]|]; cbn [bind]; [|discriminate].
  intros [= <-]. reflexivity.
Qed.

(** C2.  On [--xml a b] the scan marks the first cell.  The last loop
    counts one handled cell and copies [argv[1]] into [argv[0]], but moves
    nothing else: the array is [a a b], not [a b].  The statement
    [argc-=handled] changes the pointer, so the caller's count is still
    [3].  When the marked cell is the last one, as on [--xml] alone, the
    loop reads [argv[argc]], which is null, and then past the end of the
    array. *)
Theorem compaction_duplicates_and_keeps_argc :
  (exists r,
      parseCommandLine 3 (main_argv ["--xml"; "a"; "b"]) Bare.app Demo.world
      = Ok r /\
      argv_out r = [Some "a"; Some "a"; Some "b"; None] /\
      argv_out r <> [Some "a"; Some "b"; None; None] /\
      handled_out r = 1 /\
      argc_out r = 3 /\
      argc_out r <> 3 - handled_out r) /\
  compact 3 [None; Some "a"; Some "b"; None]
  = Ok ([Some "a"; Some "a"; Some "b"; None], 1) /\
  compact 3 [Some "a"; None; Some "b"; None]
  = Ok ([Some "a"; Some "b"; Some "b"; None], 1) /\
  compact 1 [None; None] = Err OutOfBounds /\
  parseCommandLine 1 (main_argv ["--xml"]) Bare.app Demo.world
  = Err OutOfBounds.
Proof.
  split; [|repeat split; reflexivity].
  eexists. split; [vm_compute; reflexivity|].
  repeat split; try reflexivity; discriminate.
Qed.

(** ** The loops never run out of fuel *)

Lemma terminates_Ok {A : Type} (a : A) : terminates (Ok a).
Proof. discriminate. Qed.

Lemma terminates_bind {A B : Type} (r : result A) (f : A -> result B) :
  terminates r -> (forall a, r = Ok a -> terminates (f a)) ->
  terminates (bind r f).
Proof.
  intros Hr Hf. destruct r as [a|e]; cbn [bind]; [now apply Hf|].
  intros [= ->]. now apply Hr.
Qed.

Lemma extract_until_shorter (s t r : string) (d : ascii) :
  extract_until s d = (t, r, true) -> (String.length r < String.length s)%nat.
Proof.
  revert t r. induction s as [|c s IH]; intros t r; cbn [extract_until].
  - discriminate.
  - destruct (Ascii.eqb c d).
    + intros [= <- <-]. cbn. lia.
    + destruct (extract_until s d) as [[t' r'] f'].
      intros [= <- <- ->]. specialize (IH t' r' eq_refl). cbn. lia.
Qed.

Lemma stringToVector_loop_terminates {T : Type} {C : StringConv T} :
  (forall s, terminates (stringTo (T := T) s)) ->
  forall (fuel : nat) (str : istream) (item : string) (ret : list T)
         (delim : ascii),
    ((if good str then String.length (buf str) + 2 else 1) <= fuel)%nat ->
    terminates (stringToVector_loop fuel str item ret delim).
Proof.
  intros Hconv. induction fuel as [|fuel IH]; intros str item ret delim Hfuel.
  - destruct (good str); lia.
  - cbn [stringToVector_loop]. unfold getline.
    destruct (good str) eqn:Hgood.
    + destruct (extract_until (buf str) delim) as [[t r] found] eqn:E.
      destruct found; cbn [stream_ok failbit negb].
      * apply terminates_bind; [apply Hconv|]. intros v _.
        apply IH. cbn [good eofbit failbit buf negb andb].
        pose proof (extract_until_shorter _ _ _ _ E). lia.
      * destruct (String.eqb t ""); cbn [negb]; [apply terminates_Ok|].
        apply terminates_bind; [apply Hconv|]. intros v _.
        apply IH. cbn [good eofbit failbit buf negb andb]. lia.
    + cbn [stream_ok failbit negb]. apply terminates_Ok.
Qed.

Lemma stringToVector_terminates {T : Type} {C : StringConv T}
  (s : string) (delim : ascii) :
  (forall s0, terminates (stringTo (T := T) s0)) ->
  terminates (stringToVector (T := T) s delim).
Proof.
  intros Hconv. unfold stringToVector. apply terminates_bind.
  - apply stringToVector_loop_terminates; [exact Hconv|]. cbn. lia.
  - intros [item ret] _. destruct (String.eqb item "").
    + destruct ret; cbn; discriminate.
    + apply terminates_Ok.
Qed.

Lemma stringTo_int_terminates (s : string) : terminates (stringTo_int s).
Proof.
  unfold stringTo_int, terminates.
  destruct (skipws s) as [|c r]; cbn [read_digits Nat.eqb]; [discriminate|].
  repeat match goal with
         | |- context [let '(_, _) := ?x in _] => destruct x
         | |- context [if ?b then _ else _] => destruct b
         end; discriminate.
Qed.

Lemma stringTo_bool_terminates (s : string) : terminates (stringTo_bool s).
Proof.
  unfold stringTo_bool.
  destruct (_ || _); [apply terminates_Ok|].
  destruct (_ || _); [apply terminates_Ok|].
  apply terminates_bind; [apply stringTo_int_terminates|].
  intros; apply terminates_Ok.
Qed.

Lemma setString_terminates (s : string) (p : ctkParamData) :
  terminates (setString s p).
Proof.
  unfold setString.
  destruct (value p); (apply terminates_bind; [|intros; apply terminates_Ok]).
  - apply stringTo_bool_terminates.
  - apply stringTo_int_terminates.
  - apply terminates_Ok.
  - apply stringToVector_terminates. apply stringTo_int_terminates.
  - apply stringToVector_terminates. intros; apply terminates_Ok.
Qed.

Lemma setString_at_terminates section key value a :
  terminates (setString_at section key value a).
Proof.
  unfold setString_at. destruct (getParam section key a); [|discriminate].
  apply terminates_bind; [apply setString_terminates|].
  intros; apply terminates_Ok.
Qed.

Lemma run_lines_terminates (lines : list string) :
  forall list_ a, terminates (run_lines lines list_ a).
Proof.
  induction lines as [|line rest IH]; intros list_ a; cbn [run_lines];
    [apply terminates_Ok|].
  destruct (classify line); auto.
  apply terminates_bind; [apply setString_at_terminates|auto].
Qed.

Lemma parse_terminates (ini : string) (a : ctkCmdLineApplication) :
  terminates (parse ini a).
Proof. rewrite parse_run_lines. apply run_lines_terminates. Qed.

Lemma load_terminates iniFile a w : terminates (load iniFile a w).
Proof.
  unfold load. destruct (open_in iniFile w); [|apply terminates_Ok].
  destruct (getline _ _ _).
  apply terminates_bind; [apply parse_terminates|].
  intros; apply terminates_Ok.
Qed.

Lemma concat_results_terminates (l : list (result string)) :
  Forall terminates l -> terminates (concat_results l).
Proof.
  induction 1 as [|r l Hr Hl IH]; cbn [concat_results];
    [apply terminates_Ok|].
  apply terminates_bind; [exact Hr|]. intros s _.
  apply terminates_bind; [exact IH|]. intros; apply terminates_Ok.
Qed.

Lemma xml_tag_terminates (kv : string * string) : terminates (xml_tag kv).
Proof.
  unfold xml_tag.
  destruct (String.eqb (snd kv) ""); [apply terminates_Ok|].
  destruct (String.eqb (fst kv) "enumeration"); [|apply terminates_Ok].
  apply terminates_bind.
  - apply stringToVector_terminates. intros; apply terminates_Ok.
  - intros [|e l] _; apply terminates_Ok.
Qed.

Lemma getXMLDescription_terminates (a : ctkCmdLineApplication) :
  terminates (getXMLDescription a).
Proof.
  unfold getXMLDescription.
  apply terminates_bind; [|intros; apply terminates_Ok].
  apply concat_results_terminates, Forall_forall.
  intros r Hr. apply in_map_iff in Hr. destruct Hr as (sec & <- & _).
  unfold xml_section.
  apply terminates_bind; [|intros; apply terminates_Ok].
  apply concat_results_terminates, Forall_forall.
  intros r Hr. apply in_map_iff in Hr. destruct Hr as (kp & <- & _).
  unfold xml_param.
  apply terminates_bind; [|intros; apply terminates_Ok].
  apply concat_results_terminates, Forall_forall.
  intros r Hr. apply in_map_iff in Hr. destruct Hr as (kv & <- & _).
  apply xml_tag_terminates.
Qed.

Lemma dispatch_terminates (cmd : string) (st : scan_state) :
  terminates (dispatch cmd st).
Proof.
  unfold dispatch.
  destruct (StrMap.find cmd (commandLineFlags (app st))) as [[section key]|];
    [|apply terminates_Ok].
  destruct (getParam section key (app st)) as [p|]; [|discriminate].
  apply terminates_bind; [|intros; apply terminates_Ok].
  destruct (String.eqb (getType p) getTypeName_bool).
  - apply terminates_bind; [apply stringTo_bool_terminates|].
    intros; apply setString_terminates.
  - apply terminates_bind.
    + unfold argv_get. destruct (i st <? 0); [discriminate|].
      destruct (nth_error _ _); discriminate.
    + intros arg _. apply terminates_bind; [destruct arg; discriminate|].
      intros; apply setString_terminates.
Qed.

Lemma dispatch_advances (cmd : string) (st st' : scan_state) (c : control) :
  dispatch cmd st = Ok (c, st') -> c = Continue /\ i st' = i st + 1.
Proof.
  unfold dispatch.
  destruct (StrMap.find cmd (commandLineFlags (app st))) as [[section key]|].
  - destruct (getParam section key (app st)) as [p|]; [|discriminate].
    match goal with
    | |- bind ?r _ = _ -> _ => destruct r as [p'|]
    end; cbn [bind]; [|discriminate].
    intros [= <- <-]. split; reflexivity.
  - intros [= <- <-]. split; reflexivity.
Qed.

Lemma argv_get_terminates argv n : terminates (argv_get argv n).
Proof.
  unfold argv_get. destruct (n <? 0); [discriminate|].
  destruct (nth_error _ _); discriminate.
Qed.

Lemma cstring_terminates arg : terminates (cstring arg).
Proof. destruct arg; discriminate. Qed.

Lemma scan_step_terminates (argc : Z) (st : scan_state) :
  terminates (scan_step argc st).
Proof.
  unfold scan_step.
  apply terminates_bind; [apply argv_get_terminates|]. intros arg _.
  apply terminates_bind; [apply cstring_terminates|]. intros cmd _.
  destruct (String.eqb cmd "--xml").
  { apply terminates_bind; [apply getXMLDescription_terminates|].
    intros; apply terminates_Ok. }
  destruct (_ || _).
  { destruct (getSynopsis (app st)). apply terminates_Ok. }
  destruct (_ || _).
  { destruct (i st =? argc - 1); [apply terminates_Ok|].
    apply terminates_bind; [apply argv_get_terminates|]. intros file _.
    apply terminates_bind; [apply cstring_terminates|]. intros name _.
    destruct (Ascii.eqb _ _); [apply terminates_Ok|].
    apply terminates_bind; [apply load_terminates|].
    intros [? ?] _. apply terminates_Ok. }
  destruct (Ascii.eqb _ _).
  - destruct (i st =? argc - 1); [apply terminates_Ok|].
    apply dispatch_terminates.
  - apply dispatch_terminates.
Qed.

(** Every turn of the loop that does not leave it moves [i] forward. *)
Lemma scan_step_advances (argc : Z) (st st' : scan_state) :
  scan_step argc st = Ok (Continue, st') -> i st < i st'.
Proof.
  unfold scan_step.
  destruct (argv_get (argv st) (i st)) as [arg|]; cbn [bind]; [|discriminate].
  destruct (cstring arg) as [cmd|]; cbn [bind]; [|discriminate].
  destruct (String.eqb cmd "--xml").
  { destruct (getXMLDescription (app st)); cbn [bind]; [|discriminate].
    intros [= <-]. cbn. lia. }
  destruct (_ || _).
  { destruct (getSynopsis (app st)). intros [= <-]. cbn. lia. }
  destruct (_ || _).
  { destruct (i st =? argc - 1); [discriminate|].
    destruct (argv_get _ _) as [file|]; cbn [bind]; [|discriminate].
    destruct (cstring file) as [name|]; cbn [bind]; [|discriminate].
    destruct (Ascii.eqb _ _).
    - intros [= <-]. cbn. lia.
    - destruct (load _ _ _) as [[? ?]|]; cbn [bind]; [|discriminate].
      intros [= <-]. cbn. lia. }
  destruct (Ascii.eqb _ _).
  - destruct (i st =? argc - 1); [discriminate|].
    intros H. apply dispatch_advances in H. cbn [i] in H. lia.
  - intros H. apply dispatch_advances in H. cbn [i] in H. lia.
Qed.

Lemma scan_loop_terminates (fuel : nat) :
  forall (argc : Z) (st : scan_state),
    (Z.to_nat (argc - i st) <= fuel)%nat ->
    terminates (scan_loop fuel argc st).
Proof.
  induction fuel as [|fuel IH]; intros argc st Hfuel; cbn [scan_loop].
  - destruct (i st <? argc) eqn:E; [|apply terminates_Ok].
    apply Z.ltb_lt in E. lia.
  - destruct (i st <? argc) eqn:E; [|apply terminates_Ok].
    apply Z.ltb_lt in E.
    apply terminates_bind; [apply scan_step_terminates|].
    intros [c st'] Hstep. destruct c; [|apply terminates_Ok].
    apply IH. apply scan_step_advances in Hstep. lia.
Qed.

Lemma length_list_set {A : Type} (l : list A) (n : nat) (x : A) :
  List.length (list_set l n x) = List.length l.
Proof.
  revert n. induction l as [|y l IH]; intros [|n]; cbn; auto.
Qed.

Lemma length_argv_set argv n p :
  List.length (argv_set argv n p) = List.length argv.
Proof.
  unfold argv_set. destruct (n <? 0); [reflexivity|apply length_list_set].
Qed.

Lemma argv_get_in_range argv n p :
  argv_get argv n = Ok p -> 0 <= n < Z.of_nat (List.length argv).
Proof.
  unfold argv_get. destruct (n <? 0) eqn:E; [discriminate|].
  apply Z.ltb_ge in E.
  destruct (nth_error argv (Z.to_nat n)) eqn:Hn; [|discriminate].
  intros _. assert (Z.to_nat n < List.length argv)%nat.
  { apply nth_error_Some. congruence. }
  lia.
Qed.

Lemma compact_loop_terminates (fuel : nat) :
  forall (argc n handled : Z) (argv : list (option string)),
    0 <= handled ->
    (Z.to_nat (argc - n)
     + Z.to_nat (Z.of_nat (List.length argv) - (n + handled)) <= fuel)%nat ->
    terminates (compact_loop fuel argc n handled argv).
Proof.
  induction fuel as [|fuel IH]; intros argc n handled argv Hh Hfuel;
    cbn [compact_loop].
  - destruct (n <? argc) eqn:E; [|apply terminates_Ok].
    apply Z.ltb_lt in E. lia.
  - destruct (n <? argc) eqn:E; [|apply terminates_Ok].
    apply Z.ltb_lt in E.
    apply terminates_bind; [apply argv_get_terminates|].
    intros [s|] Hget.
    + apply IH; [lia|]. apply argv_get_in_range in Hget. lia.
    + apply terminates_bind; [apply argv_get_terminates|].
      intros next Hnext. apply argv_get_in_range in Hnext.
      apply IH; [lia|]. rewrite length_argv_set. lia.
Qed.

(** [parseCommandLine] ends for every array and every count. *)
Lemma parseCommandLine_terminates argc argv a w :
  terminates (parseCommandLine argc argv a w).
Proof.
  unfold parseCommandLine.
  apply terminates_bind.
  - apply scan_loop_terminates. cbn [i]. lia.
  - intros st _. apply terminates_bind; [|intros [? ?] _; apply terminates_Ok].
    unfold compact. apply compact_loop_terminates; lia.
Qed.

(** * Further properties *)

Import Text.

(** ** Reading an int *)

Lemma is_digit_not_space (c : ascii) :
  is_digit c = true ->
  isspace c = false /\ c <> "-"%char /\ c <> "+"%char.
Proof.
  destruct c as [[] [] [] [] [] [] [] []]; cbn; intros H;
    try discriminate H; repeat split; discriminate.
Qed.

Lemma skipws_spaces (ws s : string) :
  all_chars isspace ws = true -> skipws (ws ++ s) = skipws s.
Proof.
  induction ws as [|c ws IH]; cbn [all_chars append skipws]; [reflexivity|].
  intros H. apply andb_true_iff in H. destruct H as [Hc Hws].
  rewrite Hc. now apply IH.
Qed.

Lemma read_digits_stop (rest : string) (acc : Z) (n : nat) :
  starts_with is_digit rest = false -> read_digits rest acc n = (acc, n).
Proof.
  destruct rest as [|c rest]; cbn [starts_with read_digits]; [reflexivity|].
  unfold is_digit. destruct (digit_of c); [discriminate|reflexivity].
Qed.

Lemma read_digits_app (ds rest : string) :
  forall (acc : Z) (n : nat),
    all_chars is_digit ds = true ->
    starts_with is_digit rest = false ->
    read_digits (ds ++ rest) acc n = read_digits ds acc n.
Proof.
  induction ds as [|c ds IH]; intros acc n Hds Hrest;
    cbn [append read_digits all_chars] in *.
  - now apply read_digits_stop.
  - apply andb_true_iff in Hds. destruct Hds as [Hc Hds].
    unfold is_digit in Hc. destruct (digit_of c); [|discriminate].
    now apply IH.
Qed.

Lemma string_of_uint_digits (d : Decimal.uint) :
  all_chars is_digit (NilEmpty.string_of_uint d) = true.
Proof. induction d; cbn; auto. Qed.

(** The text of an int: a minus sign for a negative number, then digits
    that read back as its absolute value. *)
Lemma toString_int_shape (z : Z) :
  exists ds,
    toString_int z = (if z <? 0 then "-" else "") ++ ds /\
    starts_with is_digit ds = true /\
    all_chars is_digit ds = true /\
    fst (read_digits ds 0 0) = Z.abs z.
Proof.
  unfold toString_int. destruct z as [|p|p];
    cbn [Z.to_int NilZero.string_of_int Z.ltb Z.compare Z.abs].
  - exists "0". repeat split.
  - unfold NilZero.string_of_uint.
    pose proof (DecimalPos.Unsigned.to_uint_nonnil p) as Hnil.
    pose proof (read_digits_to_uint p) as Hrd.
    pose proof (string_of_uint_digits (Pos.to_uint p)) as Hall.
    exists (NilEmpty.string_of_uint (Pos.to_uint p)).
    rewrite Hrd. repeat split; try assumption.
    + destruct (Pos.to_uint p); [congruence| ..]; reflexivity.
    + destruct (Pos.to_uint p); [congruence| ..]; reflexivity.
  - unfold NilZero.string_of_uint.
    pose proof (DecimalPos.Unsigned.to_uint_nonnil p) as Hnil.
    pose proof (read_digits_to_uint p) as Hrd.
    pose proof (string_of_uint_digits (Pos.to_uint p)) as Hall.
    exists (NilEmpty.string_of_uint (Pos.to_uint p)).
    rewrite Hrd. repeat split; try assumption.
    + destruct (Pos.to_uint p); [congruence| ..]; reflexivity.
    + destruct (Pos.to_uint p); [congruence| ..]; reflexivity.
Qed.

Lemma read_digits_count (ds : string) :
  forall (acc : Z) (n : nat),
    starts_with is_digit ds = true ->
    Nat.eqb (snd (read_digits ds acc n)) 0 = false.
Proof.
  assert (Hmono : forall s acc n, (n <= snd (read_digits s acc n))%nat).
  { induction s as [|c s IH]; intros acc n; cbn [read_digits snd]; [lia|].
    destruct (digit_of c); cbn [snd]; [|lia].
    specialize (IH (10 * acc + z) (S n)). lia. }
  intros acc n. destruct ds as [|c ds]; cbn [starts_with read_digits];
    [discriminate|].
  unfold is_digit. destruct (digit_of c) as [d|]; [|discriminate].
  intros _. apply Nat.eqb_neq.
  specialize (Hmono ds (10 * acc + d) (S n)). lia.
Qed.

(** X1.  The extraction of an int skips white space before the number and
    stops at the first character that is not a digit: what follows the
    number is ignored. *)
Theorem stringTo_int_ignores_what_follows (ws rest : string) (z : Z) :
  all_chars isspace ws = true ->
  starts_with is_digit rest = false ->
  INT_MIN <= z <= INT_MAX ->
  stringTo_int (ws ++ toString_int z ++ rest) = Ok z.
Proof.
  intros Hws Hrest Hz.
  assert (Hrange : (INT_MIN <=? z) && (z <=? INT_MAX) = true).
  { apply andb_true_iff. split; apply Z.leb_le; lia. }
  destruct (toString_int_shape z) as (ds & Hshape & Hhead & Hall & Hval).
  unfold stringTo_int. rewrite (skipws_spaces _ _ Hws), Hshape.
  pose proof (read_digits_app ds rest 0 0 Hall Hrest) as Happ.
  pose proof (read_digits_count ds 0 0 Hhead) as Hcount.
  destruct (read_digits ds 0 0) as [v n] eqn:Hrd. cbn [fst snd] in *.
  destruct (z <? 0) eqn:Hneg.
  - cbn [append skipws]. change (isspace "-") with false. cbv iota.
    rewrite Happ. cbv iota beta. rewrite Hcount.
    apply Z.ltb_lt in Hneg.
    replace (- v) with z by lia. now rewrite Hrange.
  - cbn [append]. destruct ds as [|c ds']; [discriminate|].
    cbn [starts_with] in Hhead.
    destruct (is_digit_not_space c Hhead) as (Hsp & Hminus & Hplus).
    cbn [append skipws] in *. rewrite Hsp.
    assert (Hsign :
      (match String c (ds' ++ rest) with
       | String "-"%char r => (true, r)
       | String "+"%char r => (false, r)
       | _ => (false, String c (ds' ++ rest))
       end) = (false, String c (ds' ++ rest))).
    { clear - Hhead. destruct c as [[] [] [] [] [] [] [] []];
        try discriminate Hhead; reflexivity. }
    rewrite Hsign, Happ. cbv iota beta. rewrite Hcount.
    apply Z.ltb_ge in Hneg.
    replace v with z by lia. now rewrite Hrange.
Qed.

Lemma stringTo_int_ignores_what_follows_witness :
  stringTo_int ("  " ++ toString_int (-12) ++ "px") = Ok (-12).
Proof.
  apply stringTo_int_ignores_what_follows;
    [reflexivity | reflexivity | unfold INT_MIN, INT_MAX; lia].
Defined.

(** ** Reading a bool *)

Lemma number_is_no_keyword (s : string) :
  starts_with (fun c => is_digit c || Ascii.eqb c "-"%char) s = true ->
  String.eqb s "true" || String.eqb s "yes" = false /\
  String.eqb s "false" || String.eqb s "no" = false.
Proof.
  destruct s as [|c s]; cbn [starts_with]; [discriminate|].
  destruct c as [[] [] [] [] [] [] [] []]; cbn; intros H;
    try discriminate H; split; reflexivity.
Qed.

(** X2.  Besides the four words, [stringTo<bool>] reads its argument as
    an int and answers whether it is positive: the text of every int [z]
    is read as [z > 0], so [0] and the negative numbers are [false]. *)
Theorem stringTo_bool_of_number (z : Z) :
  INT_MIN <= z <= INT_MAX ->
  stringTo_bool (toString_int z) = Ok (0 <? z).
Proof.
  intros Hz. unfold stringTo_bool.
  destruct (toString_int_shape z) as (ds & Hshape & Hhead & _ & _).
  assert (Hstart :
    starts_with (fun c => is_digit c || Ascii.eqb c "-"%char)
      (toString_int z) = true).
  { rewrite Hshape. destruct (z <? 0); [reflexivity|].
    destruct ds as [|c ds]; [discriminate|].
    cbn [append starts_with] in *. now rewrite Hhead. }
  destruct (number_is_no_keyword _ Hstart) as [-> ->].
  rewrite (stringTo_toString_int z Hz). reflexivity.
Qed.

Lemma stringTo_bool_of_number_witness :
  stringTo_bool (toString_int 7) = Ok true /\
  stringTo_bool (toString_int (-3)) = Ok false.
Proof.
  split; apply stringTo_bool_of_number; unfold INT_MIN, INT_MAX; lia.
Defined.

(** ** Splitting at the delimiter *)

Lemma split_on_nonempty (d : ascii) (s : string) : split_on d s <> [].
Proof.
  destruct s as [|c s]; cbn [split_on]; [discriminate|].
  destruct (Ascii.eqb c d); [discriminate|].
  destruct (split_on d s); discriminate.
Qed.

Lemma extract_until_split_found (d : ascii) (s t r : string) :
  extract_until s d = (t, r, true) -> split_on d s = t :: split_on d r.
Proof.
  revert t r. induction s as [|c s IH]; intros t r; cbn [extract_until split_on].
  - discriminate.
  - destruct (Ascii.eqb c d).
    + intros [= <- <-]. reflexivity.
    + destruct (extract_until s d) as [[t' r'] f'].
      intros [= <- <- ->]. rewrite (IH t' r' eq_refl). reflexivity.
Qed.

Lemma extract_until_split_last (d : ascii) (s t r : string) :
  extract_until s d = (t, r, false) -> split_on d s = [t].
Proof.
  revert t r. induction s as [|c s IH]; intros t r; cbn [extract_until split_on].
  - intros [= <- <-]. reflexivity.
  - destruct (Ascii.eqb c d).
    + discriminate.
    + destruct (extract_until s d) as [[t' r'] f'].
      intros [= <- <- ->]. rewrite (IH t' r' eq_refl). reflexivity.
Qed.

Lemma length_split_on (d : ascii) (s : string) :
  (List.length (split_on d s) <= String.length s + 1)%nat.
Proof.
  induction s as [|c s IH]; cbn [split_on String.length List.length]; [lia|].
  destruct (Ascii.eqb c d); cbn [List.length]; [lia|].
  destruct (split_on d s); cbn [List.length] in *; lia.
Qed.

Lemma pushed_cons (t : string) (pieces : list string) :
  pieces <> [] -> pushed (t :: pieces) = t :: pushed pieces.
Proof.
  intros Hne. unfold pushed.
  destruct pieces as [|u pieces]; [congruence|].
  change (List.last (t :: u :: pieces) "") with (List.last (u :: pieces) "").
  destruct (String.eqb _ ""); reflexivity.
Qed.

Lemma last_cons (t : string) (pieces : list string) :
  pieces <> [] -> List.last (t :: pieces) "" = List.last pieces "".
Proof. destruct pieces; [congruence|reflexivity]. Qed.

Lemma bind_assoc {A B C : Type} (r : result A) (f : A -> result B)
  (g : B -> result C) :
  bind (bind r f) g = bind r (fun a => bind (f a) g).
Proof. destruct r; reflexivity. Qed.

(** The loop of [stringToVector] in terms of the pieces of the text. *)
Lemma stringToVector_loop_split {T : Type} {C : StringConv T}
  (d : ascii) (fuel : nat) :
  forall (s item : string) (ret : list T),
    (List.length (split_on d s) + 1 <= fuel)%nat ->
    stringToVector_loop fuel (istringstream s) item ret d
    = (l <- mapM stringTo (pushed (split_on d s)) ;;
       Ok (List.last (split_on d s) "", (ret ++ l)%list)).
Proof.
  induction fuel as [|fuel IH]; intros s item ret Hfuel; [lia|].
  cbn [stringToVector_loop]. unfold getline, good, istringstream.
  cbn [eofbit failbit buf negb andb].
  destruct (extract_until s d) as [[t r] found] eqn:E.
  destruct found.
  - pose proof (extract_until_split_found _ _ _ _ E) as Hs.
    pose proof (split_on_nonempty d r) as Hne.
    rewrite Hs in *. cbn [List.length] in Hfuel.
    rewrite (pushed_cons _ _ Hne), (last_cons _ _ Hne).
    cbn [stream_ok failbit negb mapM].
    destruct (stringTo t) as [v|e]; cbn [bind]; [|reflexivity].
    fold (istringstream r). rewrite IH by lia.
    destruct (mapM stringTo (pushed (split_on d r))) as [l|e]; cbn [bind];
      [|reflexivity].
    rewrite <- List.app_assoc. reflexivity.
  - pose proof (extract_until_split_last _ _ _ _ E) as Hs.
    rewrite Hs in *. cbn [List.length] in Hfuel.
    unfold pushed. cbn [List.last removelast].
    destruct (String.eqb t "") eqn:Et; cbn [stream_ok failbit negb mapM bind].
    + apply String.eqb_eq in Et. subst t. now rewrite List.app_nil_r.
    + destruct (stringTo t) as [v|e]; cbn [bind]; [|reflexivity].
      destruct fuel as [|fuel]; [lia|].
      cbn [stringToVector_loop]. unfold getline, good.
      cbn [eofbit failbit buf negb andb stream_ok]. reflexivity.
Qed.

(** X3.  [stringToVector] cuts the text at every delimiter and converts
    the pieces in order.  An empty last piece (the text is empty or ends
    with the delimiter) is not converted, and in that case the last
    converted element is removed again; removing from no element at all is
    the undefined [pop_back]. *)
Theorem stringToVector_by_pieces {T : Type} {C : StringConv T}
  (s : string) (d : ascii) :
  stringToVector (T := T) s d
  = (l <- mapM stringTo (pushed (split_on d s)) ;;
     if String.eqb (List.last (split_on d s) "") "" then pop_back l
     else Ok l).
Proof.
  unfold stringToVector. rewrite stringToVector_loop_split.
  - rewrite bind_assoc. reflexivity.
  - pose proof (length_split_on d s). lia.
Qed.

Lemma split_on_free (d : ascii) (t : string) :
  mem_char d t = false -> split_on d t = [t].
Proof.
  intros H. apply (extract_until_split_last d t t "").
  now apply extract_until_absent.
Qed.

Lemma split_on_app (d : ascii) (t r : string) :
  mem_char d t = false -> split_on d (t ++ String d r) = t :: split_on d r.
Proof.
  intros H. apply extract_until_split_found.
  now apply extract_until_first.
Qed.

Lemma split_on_join_trailing {T : Type} {C : StringConv T} (l : list T) :
  forall x : T,
    Forall (fun y => comma_free (toString y)) (x :: l) ->
    split_on "," ((toString x ++ join_tail l ",") ++ ",")
    = (map toString (x :: l) ++ [""])%list.
Proof.
  induction l as [|y l IH]; intros x Hall;
    inversion Hall as [|? ? Hx Hrest]; subst; cbn [join_tail map app].
  - rewrite append_nil_r.
    change (toString x ++ ",") with (toString x ++ String ","%char "").
    rewrite split_on_app by exact Hx. reflexivity.
  - change ("," ++ toString y ++ join_tail l ",")
      with (String ","%char (toString y ++ join_tail l ",")).
    rewrite append_assoc.
    change (String ","%char (toString y ++ join_tail l ",") ++ ",")
      with (String ","%char ((toString y ++ join_tail l ",") ++ ",")).
    rewrite split_on_app by exact Hx.
    rewrite (IH y Hrest). reflexivity.
Qed.

Lemma mapM_roundtrip {T : Type} {C : StringConv T} (l : list T) :
  Forall (fun y => stringTo (toString y) = Ok y) l ->
  mapM stringTo (map toString l) = Ok l.
Proof.
  induction 1 as [|y l Hy _ IH]; cbn [map mapM]; [reflexivity|].
  rewrite Hy. cbn [bind]. rewrite IH. reflexivity.
Qed.

Lemma stringToVector_trailing {T : Type} {C : StringConv T}
  (x : T) (l : list T) :
  Forall (fun y => comma_free (toString y) /\ stringTo (toString y) = Ok y)
    (x :: l) ->
  stringToVector (vectortoString (x :: l) "," ++ ",") ","%char
  = Ok (removelast (x :: l)).
Proof.
  intros Hall.
  rewrite stringToVector_by_pieces, vectortoString_cons.
  rewrite split_on_join_trailing
    by (eapply Forall_impl; [|exact Hall]; intros ? []; assumption).
  unfold pushed. rewrite List.last_last, String.eqb_refl, List.removelast_last.
  rewrite mapM_roundtrip
    by (eapply Forall_impl; [|exact Hall]; intros ? []; assumption).
  reflexivity.
Qed.

(** X4.  One delimiter after the last element costs that element: the
    text of a vector followed by a comma is read as the vector without
    its last element, for vectors of ints and for vectors of strings
    without commas. *)
Theorem trailing_comma_drops_last_element :
  (forall l : list Z,
      l <> [] -> Forall in_int_range l ->
      stringToVector (vectortoString l "," ++ ",") ","%char
      = Ok (removelast l)) /\
  (forall l : list string,
      l <> [] -> Forall comma_free l ->
      stringToVector (vectortoString l "," ++ ",") ","%char
      = Ok (removelast l)).
Proof.
  split.
  - intros [|x l] Hne Hall; [congruence|].
    apply stringToVector_trailing.
    eapply Forall_impl; [|exact Hall]. intros z Hz. split.
    + apply toString_int_comma_free.
    + apply stringTo_toString_int. exact Hz.
  - intros [|x l] Hne Hall; [congruence|].
    apply stringToVector_trailing.
    eapply Forall_impl; [|exact Hall]. intros y Hy.
    split; [exact Hy|reflexivity].
Qed.

Lemma trailing_comma_drops_last_element_witness :
  stringToVector (vectortoString [10; 20; 30] "," ++ ",") ","%char
  = Ok [10; 20] /\
  stringToVector (vectortoString ["x"; ""] "," ++ ",") ","%char
  = Ok ["x"].
Proof.
  destruct trailing_comma_drops_last_element as [Hint Hstr]. split.
  - apply (Hint [10; 20; 30]); [discriminate|].
    repeat constructor; unfold INT_MIN, INT_MAX; lia.
  - apply (Hstr ["x"; ""]); [discriminate|]. repeat constructor.
Defined.

Lemma split_on_single (d : ascii) (s t : string) :
  split_on d s = [t] -> t = s.
Proof.
  revert t. induction s as [|c s IH]; intros t; cbn [split_on].
  - now intros [= <-].
  - destruct (Ascii.eqb c d).
    + intros [= _ H]. now destruct (split_on_nonempty d s).
    + destruct (split_on d s) as [|u us] eqn:E;
        [now destruct (split_on_nonempty d s)|].
      intros [= <- ->]. now rewrite (IH u eq_refl).
Qed.

Lemma mapM_Ok {A B : Type} (f : A -> B) (l : list A) :
  mapM (fun x => Ok (f x)) l = Ok (map f l).
Proof.
  induction l as [|x l IH]; cbn [mapM map bind]; [reflexivity|].
  rewrite IH. reflexivity.
Qed.

(** A text that is not empty is always read as a vector of strings. *)
Lemma stringToVector_string_total (s : string) (d : ascii) :
  s <> "" -> exists l, stringToVector (T := string) s d = Ok l.
Proof.
  intros Hs. rewrite stringToVector_by_pieces.
  cbn [stringTo conv_string]. unfold stringTo_string.
  rewrite (mapM_Ok (fun x : string => x)), map_id. cbn [bind].
  unfold pushed.
  destruct (String.eqb (List.last (split_on d s) "") "") eqn:E; [|eauto].
  destruct (split_on d s) as [|t [|u pieces]] eqn:Hp.
  - now destruct (split_on_nonempty d s).
  - apply split_on_single in Hp. subst t. cbn [List.last] in E.
    apply String.eqb_eq in E. congruence.
  - cbn [removelast pop_back]. eauto.
Qed.

(** ** Trimming *)

Lemma ltrim_spec (s : string) :
  exists pre,
    s = pre ++ ltrim s blanks /\
    all_chars is_blank pre = true /\
    starts_with is_blank (ltrim s blanks) = false.
Proof.
  induction s as [|c s (pre & Hs & Hpre & Hstart)]; cbn [ltrim].
  - exists "". repeat split.
  - fold (is_blank c). destruct (is_blank c) eqn:Hc.
    + exists (String c pre). cbn [append all_chars]. rewrite Hc, Hpre.
      repeat split; [now f_equal|assumption].
    + exists "". repeat split. exact Hc.
Qed.

Lemma rtrim_spec (s : string) :
  exists post,
    s = rtrim s blanks ++ post /\
    all_chars is_blank post = true /\
    ends_with is_blank (rtrim s blanks) = false.
Proof.
  induction s as [|c s (post & Hs & Hpost & Hend)]; cbn [rtrim].
  - exists "". repeat split.
  - destruct (rtrim s blanks) as [|a r] eqn:E.
    + cbn [append] in Hs. subst post.
      fold (is_blank c). destruct (is_blank c) eqn:Hc.
      * exists (String c s). cbn [append all_chars]. rewrite Hc, Hpost.
        repeat split.
      * exists s. repeat split; [assumption|]. cbn [ends_with]. exact Hc.
    + exists post. cbn [append]. repeat split; [now f_equal|assumption|].
      exact Hend.
Qed.

Lemma rtrim_keeps_start (s : string) :
  starts_with is_blank s = false ->
  starts_with is_blank (rtrim s blanks) = false.
Proof.
  destruct s as [|c s]; cbn [rtrim starts_with]; [reflexivity|].
  intros Hc. destruct (rtrim s blanks).
  - fold (is_blank c). now rewrite Hc.
  - exact Hc.
Qed.

(** X5.  [trim] takes away blanks (space and tab) at both ends and
    nothing else, and it takes all of them: the result neither starts nor
    ends with a blank. *)
Theorem trim_strips_blanks (s : string) :
  (exists pre post,
      s = pre ++ trim s ++ post /\
      all_chars is_blank pre = true /\
      all_chars is_blank post = true) /\
  starts_with is_blank (trim s) = false /\
  ends_with is_blank (trim s) = false.
Proof.
  unfold trim.
  destruct (ltrim_spec s) as (pre & Hs & Hpre & Hstart).
  destruct (rtrim_spec (ltrim s blanks)) as (post & Hl & Hpost & Hend).
  split; [|split].
  - exists pre, post. repeat split; try assumption.
    rewrite <- Hl. exact Hs.
  - now apply rtrim_keeps_start.
  - exact Hend.
Qed.

Lemma trim_fixpoint (s : string) :
  starts_with is_blank s = false -> ends_with is_blank s = false ->
  trim s = s.
Proof.
  intros Hstart Hend. unfold trim.
  assert (Hl : ltrim s blanks = s).
  { destruct s as [|c s]; cbn [ltrim starts_with] in *; [reflexivity|].
    fold (is_blank c). now rewrite Hstart. }
  rewrite Hl. clear Hl Hstart.
  induction s as [|c s IH]; cbn [rtrim]; [reflexivity|].
  destruct s as [|a s].
  - cbn [rtrim ends_with] in *. fold (is_blank c). now rewrite Hend.
  - rewrite IH by exact Hend. reflexivity.
Qed.

(** ** The maps keep their keys in order *)

Import MapOrder.

Lemma ascii_compare_trans (a b c : ascii) :
  Ascii.compare a b = Lt -> Ascii.compare b c = Lt -> Ascii.compare a c = Lt.
Proof.
  unfold Ascii.compare. rewrite !N.compare_lt_iff. apply N.lt_trans.
Qed.

Lemma compare_trans (s1 : string) :
  forall s2 s3,
    String.compare s1 s2 = Lt -> String.compare s2 s3 = Lt ->
    String.compare s1 s3 = Lt.
Proof.
  induction s1 as [|a s1 IH]; intros [|b s2] [|c s3]; cbn [String.compare];
    try discriminate; try reflexivity.
  destruct (Ascii.compare a b) eqn:Eab; try discriminate;
    destruct (Ascii.compare b c) eqn:Ebc; try discriminate; intros H1 H2.
  - apply Ascii.compare_eq_iff in Eab, Ebc. subst.
    unfold Ascii.compare. rewrite N.compare_refl. eapply IH; eassumption.
  - apply Ascii.compare_eq_iff in Eab. subst. now rewrite Ebc.
  - apply Ascii.compare_eq_iff in Ebc. subst. now rewrite Eab.
  - now rewrite (ascii_compare_trans _ _ _ Eab Ebc).
Qed.

Lemma compare_Lt_Gt (k k' : string) :
  String.compare k k' = Lt <-> String.compare k' k = Gt.
Proof.
  rewrite (String.compare_antisym k k').
  destruct (String.compare k' k); cbn; split; congruence.
Qed.

Lemma below_sorted_find {V : Type} (k : string) (m : StrMap.t V) :
  below k m -> sorted m -> StrMap.find k m = None.
Proof.
  induction m as [|[k' v'] m IH]; cbn [below sorted StrMap.find];
    [reflexivity|].
  intros Hlt [Hb Hs].
  rewrite compare_not_Eq_eqb by congruence.
  apply IH; [|exact Hs].
  destruct m as [|[k'' v''] m]; cbn [below] in *; [exact I|].
  eapply compare_trans; eassumption.
Qed.

Lemma sorted_insert {V : Type} (k : string) (v : V) (m : StrMap.t V) :
  sorted m -> sorted (StrMap.insert k v m) /\
              (forall k0, String.compare k0 k = Lt -> below k0 m ->
                          below k0 (StrMap.insert k v m)).
Proof.
  induction m as [|[k' v'] m IH]; cbn [sorted StrMap.insert below].
  - intros _. split; [split; exact I|]. intros k0 H _. exact H.
  - intros [Hb Hs]. destruct (String.compare k k') eqn:E.
    + apply String.compare_eq_iff in E. subst k'.
      split; [split; assumption|]. intros k0 H _. exact H.
    + split; [cbn [sorted below]; repeat split; assumption|].
      intros k0 H _. exact H.
    + destruct (IH Hs) as [Hs' Hb']. split.
      * cbn [sorted]. split; [|exact Hs'].
        apply Hb'; [|exact Hb]. now apply compare_Lt_Gt.
      * intros k0 _ H0. exact H0.
Qed.

(** Two maps in key order that answer every lookup alike are the same. *)
Lemma sorted_ext {V : Type} (m1 : StrMap.t V) :
  forall m2,
    sorted m1 -> sorted m2 ->
    (forall k, StrMap.find k m1 = StrMap.find k m2) -> m1 = m2.
Proof.
  induction m1 as [|[k1 v1] m1 IH]; intros [|[k2 v2] m2] Hs1 Hs2 Hfind.
  - reflexivity.
  - specialize (Hfind k2). cbn [StrMap.find] in Hfind.
    rewrite String.eqb_refl in Hfind. discriminate.
  - specialize (Hfind k1). cbn [StrMap.find] in Hfind.
    rewrite String.eqb_refl in Hfind. discriminate.
  - destruct Hs1 as [Hb1 Hs1]. destruct Hs2 as [Hb2 Hs2].
    destruct (String.compare k1 k2) eqn:E.
    + apply String.compare_eq_iff in E. subst k2.
      pose proof (Hfind k1) as H1. cbn [StrMap.find] in H1.
      rewrite String.eqb_refl in H1. injection H1 as <-.
      f_equal. apply IH; try assumption.
      intros k. destruct (String.eqb_spec k k1) as [->|Hne].
      * now rewrite !below_sorted_find.
      * specialize (Hfind k). cbn [StrMap.find] in Hfind.
        apply String.eqb_neq in Hne. now rewrite Hne in Hfind.
    + exfalso. specialize (Hfind k1). cbn [StrMap.find] in Hfind.
      rewrite String.eqb_refl in Hfind.
      rewrite compare_not_Eq_eqb in Hfind by congruence.
      rewrite below_sorted_find in Hfind; [discriminate| |exact Hs2].
      destruct m2 as [|[k3 v3] m2]; cbn [below] in *; [exact I|].
      eapply compare_trans; eassumption.
    + exfalso. apply compare_Lt_Gt in E.
      specialize (Hfind k2). cbn [StrMap.find] in Hfind.
      rewrite String.eqb_refl in Hfind.
      rewrite compare_not_Eq_eqb in Hfind by congruence.
      rewrite below_sorted_find in Hfind; [discriminate| |exact Hs1].
      destruct m1 as [|[k3 v3] m1]; cbn [below] in *; [exact I|].
      eapply compare_trans; eassumption.
Qed.

Lemma find_insert {V : Type} (k k0 : string) (v : V) (m : StrMap.t V) :
  StrMap.find k0 (StrMap.insert k v m)
  = if String.eqb k0 k then Some v else StrMap.find k0 m.
Proof.
  destruct (String.eqb_spec k0 k) as [->|Hne].
  - apply find_insert_eq.
  - now apply find_insert_neq.
Qed.

Lemma insert_commute {V : Type} (k1 k2 : string) (v1 v2 : V)
  (m : StrMap.t V) :
  sorted m -> k1 <> k2 ->
  StrMap.insert k1 v1 (StrMap.insert k2 v2 m)
  = StrMap.insert k2 v2 (StrMap.insert k1 v1 m).
Proof.
  intros Hs Hne. apply sorted_ext.
  - apply sorted_insert, sorted_insert, Hs.
  - apply sorted_insert, sorted_insert, Hs.
  - intros k. rewrite !find_insert.
    destruct (String.eqb_spec k k1) as [->|]; [|reflexivity].
    apply String.eqb_neq in Hne. now rewrite Hne.
Qed.

Lemma insert_same {V : Type} (k : string) (v : V) (m : StrMap.t V) :
  sorted m -> StrMap.find k m = Some v -> StrMap.insert k v m = m.
Proof.
  intros Hs Hfind. apply sorted_ext.
  - apply sorted_insert, Hs.
  - exact Hs.
  - intros k0. rewrite find_insert.
    destruct (String.eqb_spec k0 k) as [->|]; congruence.
Qed.

Lemma insert_twice {V : Type} (k : string) (v1 v2 : V) (m : StrMap.t V) :
  sorted m ->
  StrMap.insert k v1 (StrMap.insert k v2 m) = StrMap.insert k v1 m.
Proof.
  intros Hs. apply sorted_ext.
  - apply sorted_insert, sorted_insert, Hs.
  - apply sorted_insert, Hs.
  - intros k0. rewrite !find_insert.
    destruct (String.eqb k0 k); reflexivity.
Qed.

Lemma find_param_store section key p a s :
  StrMap.find s (param (store section key p a))
  = if String.eqb s section
    then Some (StrMap.insert key p (section_of section a))
    else StrMap.find s (param a).
Proof.
  rewrite param_store. unfold section_of.
  destruct (StrMap.find section (param a)) eqn:E; rewrite !find_insert;
    destruct (String.eqb s section); reflexivity.
Qed.

Lemma Forall_insert {V : Type} (Q : V -> Prop) (k : string) (v : V)
  (m : StrMap.t V) :
  Forall (fun kv => Q (snd kv)) m -> Q v ->
  Forall (fun kv => Q (snd kv)) (StrMap.insert k v m).
Proof.
  intros Hm Hv. induction Hm as [|[k' v'] m Hk Hm IH]; cbn [StrMap.insert].
  - repeat constructor. exact Hv.
  - destruct (String.compare k k'); repeat constructor; assumption.
Qed.

Lemma find_Forall {V : Type} (Q : V -> Prop) (k : string) (v : V)
  (m : StrMap.t V) :
  Forall (fun kv => Q (snd kv)) m -> StrMap.find k m = Some v -> Q v.
Proof.
  induction 1 as [|[k' v'] m Hk Hm IH]; cbn [StrMap.find]; [discriminate|].
  destruct (String.eqb k k'); [now intros [= <-]|exact IH].
Qed.

Lemma sorted_section_of section a :
  wf a -> sorted (section_of section a).
Proof.
  intros (_ & Hsecs & _). unfold section_of.
  destruct (StrMap.find section (param a)) eqn:E; [|exact I].
  exact (find_Forall sorted _ _ _ Hsecs E).
Qed.

Lemma wf_store section key p a : wf a -> wf (store section key p a).
Proof.
  intros Hwf. pose proof (sorted_section_of section a Hwf) as Hsec.
  destruct Hwf as (Hp & Hsecs & Hf & Ht).
  unfold wf. rewrite param_store.
  assert (Hfl : commandLineFlags (store section key p a) = commandLineFlags a).
  { unfold store, StrMap.index.
    destruct (StrMap.find section (param a)); reflexivity. }
  assert (Htg : tags (store section key p a) = tags a).
  { unfold store, StrMap.index.
    destruct (StrMap.find section (param a)); reflexivity. }
  rewrite Hfl, Htg. unfold section_of in Hsec.
  destruct (StrMap.find section (param a)) eqn:E.
  - repeat split; try assumption.
    + apply sorted_insert, Hp.
    + apply (Forall_insert sorted); [exact Hsecs|].
      apply sorted_insert, Hsec.
  - repeat split; try assumption.
    + apply sorted_insert, sorted_insert, Hp.
    + apply (Forall_insert sorted).
      * apply (Forall_insert sorted); [exact Hsecs|exact I].
      * cbn. auto.
Qed.

Lemma wf_ctor titel description : wf (App.ctor titel description).
Proof.
  unfold wf, App.ctor. cbn [param commandLineFlags tags].
  repeat split; constructor.
Qed.

Lemma wf_setFlag flag section key a : wf a -> wf (setFlag flag section key a).
Proof.
  intros (Hp & Hsecs & Hf & Ht). unfold wf, setFlag.
  cbn [param commandLineFlags tags]. repeat split; try assumption.
  apply sorted_insert, Hf.
Qed.

Lemma wf_set_tag xmltag str a : wf a -> wf (set_tag xmltag str a).
Proof.
  intros (Hp & Hsecs & Hf & Ht). unfold wf, set_tag, set_tags.
  cbn [param commandLineFlags tags]. repeat split; try assumption.
  apply sorted_insert, Ht.
Qed.

Lemma wf_setParam section key p a a' :
  wf a -> setParam section key p a = Ok a' -> wf a'.
Proof.
  intros Hwf. unfold setParam.
  destruct (StrMap.index section StrMap.empty (param a)) as [sec m].
  destruct (negb _).
  - destruct (setString _ p) as [p'|]; cbn [bind]; [|discriminate].
    intros [= <-]. now apply wf_store.
  - intros [= <-]. now apply wf_store.
Qed.

Lemma wf_setString_at section key value a a' :
  wf a -> setString_at section key value a = Ok a' -> wf a'.
Proof.
  intros Hwf. unfold setString_at.
  destruct (getParam section key a) as [p|]; [|discriminate].
  destruct (setString value p) as [p'|]; cbn [bind]; [|discriminate].
  intros [= <-]. now apply wf_store.
Qed.

Lemma store_fields section key p a :
  commandLineFlags (store section key p a) = commandLineFlags a /\
  tags (store section key p a) = tags a.
Proof.
  unfold store, StrMap.index.
  destruct (StrMap.find section (param a)); split; reflexivity.
Qed.

Lemma app_ext (a b : ctkCmdLineApplication) :
  param a = param b -> commandLineFlags a = commandLineFlags b ->
  tags a = tags b -> a = b.
Proof. destruct a, b. cbn. now intros -> -> ->. Qed.

(** X6.  The registry does not remember the order of the declarations:
    storing two parameters under different pairs gives the same registry
    in either order, and with it the same ini text and the same
    descriptor. *)
Theorem store_order_is_forgotten
  (s1 k1 s2 k2 : string) (p1 p2 : ctkParamData) (a : ctkCmdLineApplication) :
  wf a -> (s1, k1) <> (s2, k2) ->
  store s1 k1 p1 (store s2 k2 p2 a) = store s2 k2 p2 (store s1 k1 p1 a) /\
  save_text (store s1 k1 p1 (store s2 k2 p2 a))
  = save_text (store s2 k2 p2 (store s1 k1 p1 a)) /\
  getXMLDescription (store s1 k1 p1 (store s2 k2 p2 a))
  = getXMLDescription (store s2 k2 p2 (store s1 k1 p1 a)).
Proof.
  intros Hwf Hne.
  assert (Heq : store s1 k1 p1 (store s2 k2 p2 a)
                = store s2 k2 p2 (store s1 k1 p1 a)).
  { apply app_ext.
    - apply sorted_ext.
      + apply wf_store, wf_store, Hwf.
      + apply wf_store, wf_store, Hwf.
      + intros s. pose proof (sorted_section_of s2 a Hwf) as Hsec2.
        rewrite !find_param_store. unfold section_of in *.
        rewrite !find_param_store.
        destruct (String.eqb_spec s1 s2) as [->|Hs].
        * rewrite String.eqb_refl.
          destruct (String.eqb s s2); [|reflexivity].
          f_equal. apply insert_commute; [exact Hsec2|congruence].
        * assert (Hs' : String.eqb s2 s1 = false)
            by (apply String.eqb_neq; congruence).
          rewrite Hs'.
          destruct (String.eqb s s1) eqn:E1; destruct (String.eqb s s2) eqn:E2;
            try reflexivity.
          apply String.eqb_eq in E1, E2. congruence.
    - destruct (store_fields s1 k1 p1 (store s2 k2 p2 a)) as [-> _].
      destruct (store_fields s2 k2 p2 a) as [-> _].
      destruct (store_fields s2 k2 p2 (store s1 k1 p1 a)) as [-> _].
      destruct (store_fields s1 k1 p1 a) as [-> _]. reflexivity.
    - destruct (store_fields s1 k1 p1 (store s2 k2 p2 a)) as [_ ->].
      destruct (store_fields s2 k2 p2 a) as [_ ->].
      destruct (store_fields s2 k2 p2 (store s1 k1 p1 a)) as [_ ->].
      destruct (store_fields s1 k1 p1 a) as [_ ->]. reflexivity. }
  rewrite Heq. repeat split.
Qed.

Lemma store_order_is_forgotten_witness :
  save_text (store "B" "y" new_int (store "A" "x" new_bool Bare.app))
  = save_text (store "A" "x" new_bool (store "B" "y" new_int Bare.app)).
Proof.
  apply (store_order_is_forgotten "B" "y" "A" "x" new_int new_bool Bare.app).
  - apply wf_ctor.
  - discriminate.
Defined.

(** ** The ini text that [save] writes and [parse] reads *)

Import IniText.

Lemma mem_char_app (c : ascii) (s1 s2 : string) :
  mem_char c (s1 ++ s2) = mem_char c s1 || mem_char c s2.
Proof.
  induction s1 as [|a s1 IH]; cbn [append mem_char]; [reflexivity|].
  now rewrite IH, orb_assoc.
Qed.

Lemma rtrim_app_blank (s : string) :
  rtrim (s ++ " ") blanks = rtrim s blanks.
Proof.
  induction s as [|c s IH]; [reflexivity|].
  cbn [append rtrim]. now rewrite IH.
Qed.

Lemma rtrim_fixpoint (s : string) :
  ends_with is_blank s = false -> rtrim s blanks = s.
Proof.
  induction s as [|c s IH]; cbn [rtrim]; [reflexivity|].
  destruct s as [|a s].
  - cbn [rtrim ends_with]. fold (is_blank c). now intros ->.
  - intros Hend. rewrite IH by exact Hend. reflexivity.
Qed.

Lemma trim_key_blank (key : string) :
  starts_with is_blank key = false -> ends_with is_blank key = false ->
  trim (key ++ " ") = key.
Proof.
  intros Hstart Hend. unfold trim.
  destruct key as [|c key]; [reflexivity|].
  cbn [starts_with] in Hstart. cbn [append ltrim].
  fold (is_blank c). rewrite Hstart.
  change (String c (key ++ " ")) with (String c key ++ " ").
  rewrite rtrim_app_blank. now apply rtrim_fixpoint.
Qed.

Lemma trim_blank_value (value : string) :
  starts_with is_blank value = false -> ends_with is_blank value = false ->
  trim (" " ++ value) = value.
Proof.
  intros Hstart Hend. rewrite <- (trim_fixpoint value Hstart Hend) at 2.
  reflexivity.
Qed.

(** A line [key = value] as [save] writes it is read as that key and that
    value. *)
Lemma classify_entry_line (key value : string) :
  key_ok key -> value_ok value ->
  classify (key ++ " = " ++ value) = Assign key value.
Proof.
  intros (_ & _ & Hkeq & Hkmark & Hkstart & Hkend)
         (_ & Hvnul & Hvstart & Hvend).
  unfold classify.
  assert (Hlen : (String.length (key ++ " = " ++ value) <? 2)%nat = false).
  { apply Nat.ltb_ge. rewrite length_append. cbn. lia. }
  assert (Hfirst : is_mark (first_char (key ++ " = " ++ value)) = false).
  { destruct key as [|c key]; [reflexivity|exact Hkmark]. }
  unfold is_mark in Hfirst. apply orb_false_iff in Hfirst.
  destruct Hfirst as [Hhash Hbracket].
  rewrite Hlen, Hhash, Hbracket. cbn [orb].
  unfold getline at 1, good, istringstream.
  cbn [eofbit failbit buf negb andb].
  change (key ++ " = " ++ value)
    with (key ++ " " ++ String "="%char (" " ++ value)).
  rewrite <- append_assoc.
  rewrite extract_until_first
    by (rewrite mem_char_app, Hkeq; reflexivity).
  unfold getline, good. cbn [eofbit failbit buf negb andb].
  rewrite extract_until_absent
    by (cbn [append mem_char]; rewrite Hvnul; reflexivity).
  rewrite trim_key_blank, trim_blank_value by assumption.
  reflexivity.
Qed.

Lemma substring_prefix (s t : string) :
  String.substring 0 (String.length s) (s ++ t) = s.
Proof.
  induction s as [|c s IH]; cbn [String.length append String.substring].
  - destruct t; reflexivity.
  - now rewrite IH.
Qed.

Lemma classify_header (name : string) :
  classify ("[" ++ name ++ "]") = Header name.
Proof.
  unfold classify.
  assert (Hlen : (String.length ("[" ++ name ++ "]") <? 2)%nat = false).
  { apply Nat.ltb_ge. cbn [append String.length].
    rewrite length_append. cbn. lia. }
  rewrite Hlen. cbn [append first_char orb Ascii.eqb].
  change (Ascii.eqb "[" "#") with false.
  change (Ascii.eqb "[" "[") with true. cbv iota.
  cbn [String.length]. rewrite length_append. cbn [String.length].
  replace (S (String.length name + 1) - 2)%nat with (String.length name)
    by lia.
  cbn [String.substring]. now rewrite substring_prefix.
Qed.

Lemma lines_of_line (t rest : string) :
  mem_char newline t = false ->
  lines_of (t ++ nl ++ rest) = t :: lines_of rest.
Proof.
  intros H. apply extract_until_line_found.
  change (nl ++ rest) with (String newline rest).
  now apply extract_until_first.
Qed.

Lemma lines_of_unlines (ls : list string) (rest : string) :
  Forall (fun l => mem_char newline l = false) ls ->
  lines_of (unlines ls rest) = (ls ++ lines_of rest)%list.
Proof.
  induction 1 as [|l ls Hl _ IH]; cbn [unlines List.app]; [reflexivity|].
  now rewrite lines_of_line, IH.
Qed.

Lemma unlines_app (l1 l2 : list string) (rest : string) :
  unlines (l1 ++ l2) rest = unlines l1 (unlines l2 rest).
Proof.
  induction l1 as [|l l1 IH]; cbn [List.app unlines]; [reflexivity|].
  now rewrite IH.
Qed.

Lemma concat_empty_cons (x : string) (xs : list string) :
  String.concat "" (x :: xs) = x ++ String.concat "" xs.
Proof.
  destruct xs; cbn [String.concat]; [now rewrite append_nil_r|reflexivity].
Qed.

Lemma concat_entry_lines (l : Section_) (rest : string) :
  String.concat ""
    (map (fun kp : string * ctkParamData =>
            fst kp ++ " = " ++ getString (snd kp) ++ nl) l) ++ rest
  = unlines (map entry_line l) rest.
Proof.
  induction l as [|kp l IH]; cbn [map unlines]; [reflexivity|].
  rewrite concat_empty_cons. unfold entry_line at 1.
  rewrite !append_assoc. cbn [append]. rewrite <- IH. reflexivity.
Qed.

Lemma save_section_unlines (sec : string * Section_) (rest : string) :
  save_section sec ++ rest = unlines (section_lines sec) rest.
Proof.
  unfold save_section, section_lines.
  cbn [unlines]. rewrite unlines_app. cbn [unlines].
  rewrite <- concat_entry_lines.
  rewrite !append_assoc. cbn [append]. reflexivity.
Qed.

Lemma save_text_unlines (a : ctkCmdLineApplication) :
  save_text a = unlines (flat_map section_lines (param a)) "".
Proof.
  unfold save_text.
  induction (param a) as [|sec secs IH]; cbn [map flat_map]; [reflexivity|].
  now rewrite concat_empty_cons, unlines_app, <- IH, save_section_unlines.
Qed.

Lemma assignments_entry_lines (name : string) (l : Section_)
  (more : list string) :
  Forall (fun kp : string * ctkParamData =>
            key_ok (fst kp) /\ value_ok (getString (snd kp))) l ->
  assignments_from name (map entry_line l ++ more)
  = (entries_of (name, l) ++ assignments_from name more)%list.
Proof.
  unfold entries_of. cbn [fst snd].
  induction 1 as [|kp l [Hk Hv] _ IH]; cbn [map List.app assignments_from];
    [reflexivity|].
  unfold entry_line at 1. rewrite (classify_entry_line _ _ Hk Hv).
  now rewrite IH.
Qed.

Lemma assignments_section_lines (cur : string) (secs : StrMap.t Section_) :
  Forall (fun sec : string * Section_ =>
            name_ok (fst sec) /\
            Forall (fun kp : string * ctkParamData =>
                      key_ok (fst kp) /\ value_ok (getString (snd kp)))
              (snd sec)) secs ->
  assignments_from cur (flat_map section_lines secs ++ [""])
  = flat_map entries_of secs.
Proof.
  intros Hall. revert cur.
  induction Hall as [|[name l] secs [_ Hl] _ IH]; intros cur;
    cbn [flat_map List.app].
  - reflexivity.
  - unfold section_lines at 1. cbn [fst snd List.app assignments_from].
    change (classify "") with Skip. rewrite classify_header.
    rewrite <- !List.app_assoc.
    rewrite (assignments_entry_lines name l _ Hl).
    cbn [List.app assignments_from]. change (classify "") with Skip.
    now rewrite IH.
Qed.

Lemma free_lines (c : ascii) (a : ctkCmdLineApplication) :
  mem_char c "[] =" = false ->
  Forall (fun sec : string * Section_ =>
            mem_char c (fst sec) = false /\
            Forall (fun kp : string * ctkParamData =>
                      mem_char c (fst kp) = false /\
                      mem_char c (getString (snd kp)) = false)
              (snd sec))
    (param a) ->
  Forall (fun l => mem_char c l = false) (flat_map section_lines (param a)).
Proof.
  intros Hc.
  induction 1 as [|[name l] secs [Hname Hl] _ IH]; cbn [flat_map];
    [constructor|].
  apply Forall_app. split; [|exact IH].
  unfold section_lines. cbn [fst snd] in *.
  cbn [mem_char orb] in Hc. repeat rewrite orb_false_r in Hc.
  apply orb_false_iff in Hc. destruct Hc as [Hc1 Hc].
  apply orb_false_iff in Hc. destruct Hc as [Hc2 Hc].
  apply orb_false_iff in Hc. destruct Hc as [Hc3 Hc4].
  constructor; [reflexivity|].
  constructor.
  { cbn [append mem_char]. rewrite mem_char_app, Hc1, Hname.
    cbn [mem_char orb]. now rewrite Hc2. }
  constructor; [reflexivity|].
  apply Forall_app. split; [|repeat constructor].
  clear Hname. induction Hl as [|kp l [Hk Hv] _ IHl]; cbn [map];
    constructor; [|exact IHl].
  unfold entry_line. rewrite !mem_char_app, Hk, Hv.
  cbn [mem_char orb]. now rewrite Hc3, Hc4.
Qed.

Lemma newline_free_lines (a : ctkCmdLineApplication) :
  text_ok a ->
  Forall (fun l => mem_char newline l = false)
    (flat_map section_lines (param a)).
Proof.
  intros Hok. apply free_lines; [reflexivity|].
  eapply Forall_impl; [|exact Hok].
  intros sec [[Hname _] Hl]. split; [exact Hname|].
  eapply Forall_impl; [|exact Hl].
  intros kp [(Hk & _) (Hv & _)]. now split.
Qed.

Lemma mem_char_unlines (c : ascii) (ls : list string) (rest : string) :
  Ascii.eqb c newline = false ->
  Forall (fun l => mem_char c l = false) ls ->
  mem_char c rest = false ->
  mem_char c (unlines ls rest) = false.
Proof.
  intros Hc Hls Hrest.
  induction Hls as [|l ls Hl _ IH]; cbn [unlines]; [exact Hrest|].
  rewrite !mem_char_app, Hl, IH. cbn [nl mem_char orb]. now rewrite Hc.
Qed.

Lemma save_text_NUL_free (a : ctkCmdLineApplication) :
  text_ok a -> mem_char NUL (save_text a) = false.
Proof.
  intros Hok. rewrite save_text_unlines.
  apply mem_char_unlines; [reflexivity| |reflexivity].
  apply free_lines; [reflexivity|].
  eapply Forall_impl; [|exact Hok].
  intros sec [[_ Hname] Hl]. split; [exact Hname|].
  eapply Forall_impl; [|exact Hl].
  intros kp [(_ & Hk & _) (_ & Hv & _)]. now split.
Qed.

Lemma assignments_save_text (a : ctkCmdLineApplication) :
  text_ok a -> assignments (save_text a) = entries a.
Proof.
  intros Hok. unfold assignments, entries.
  rewrite save_text_unlines, lines_of_unlines
    by now apply newline_free_lines.
  cbn [lines_of]. now apply assignments_section_lines.
Qed.

Lemma find_In {V : Type} (k : string) (v : V) (m : StrMap.t V) :
  StrMap.find k m = Some v -> In (k, v) m.
Proof.
  induction m as [|[k' v'] m IH]; cbn [StrMap.find]; [discriminate|].
  destruct (String.eqb_spec k k') as [->|].
  - intros [= <-]. now left.
  - intros H. right. now apply IH.
Qed.

Lemma below_In {V : Type} (k0 k : string) (v : V) (m : StrMap.t V) :
  below k0 m -> sorted m -> In (k, v) m -> String.compare k0 k = Lt.
Proof.
  induction m as [|[k' v'] m IH]; cbn [below sorted]; [contradiction|].
  intros Hlt [Hb Hs] [[= <- <-]|Hin]; [exact Hlt|].
  apply IH; try assumption.
  destruct m as [|[k'' v''] m]; cbn [below] in *; [exact I|].
  eapply compare_trans; eassumption.
Qed.

Lemma In_sorted_find {V : Type} (k : string) (v : V) (m : StrMap.t V) :
  sorted m -> In (k, v) m -> StrMap.find k m = Some v.
Proof.
  induction m as [|[k' v'] m IH]; cbn [sorted StrMap.find]; [contradiction|].
  intros [Hb Hs] [[= <- <-]|Hin].
  - now rewrite String.eqb_refl.
  - pose proof (below_In _ _ _ _ Hb Hs Hin) as Hlt.
    rewrite compare_not_Eq_eqb; [now apply IH|].
    apply compare_Lt_Gt in Hlt. congruence.
Qed.

Lemma In_entries (a : ctkCmdLineApplication) (s k v : string) :
  In (s, k, v) (entries a) <->
  exists sec p, In (s, sec) (param a) /\ In (k, p) sec /\ v = getString p.
Proof.
  unfold entries. rewrite in_flat_map. split.
  - intros ([s' sec] & Hsec & Hin). unfold entries_of in Hin.
    apply in_map_iff in Hin. destruct Hin as ([k' p] & [= <- <- <-] & Hp).
    exists sec, p. cbn [fst snd]. auto.
  - intros (sec & p & Hsec & Hp & ->). exists (s, sec). split; [exact Hsec|].
    unfold entries_of. apply in_map_iff. exists (k, p). auto.
Qed.


Lemma entries_getParam (a : ctkCmdLineApplication) (s k v : string) :
  wf a -> In (s, k, v) (entries a) ->
  exists p, getParam s k a = Some p /\ v = getString p.
Proof.
  intros (Hp & Hsecs & _) Hin. apply In_entries in Hin.
  destruct Hin as (sec & p & Hsec & Hkp & ->). exists p. split; [|reflexivity].
  unfold getParam. rewrite (In_sorted_find _ _ _ Hp Hsec).
  apply In_sorted_find; [|exact Hkp].
  rewrite Forall_forall in Hsecs. exact (Hsecs _ Hsec).
Qed.

Lemma store_same section key p a :
  wf a -> getParam section key a = Some p -> store section key p a = a.
Proof.
  intros Hwf Hget. pose proof Hwf as (Hp & Hsecs & _).
  apply app_ext; try apply store_fields.
  rewrite param_store. unfold getParam in Hget.
  destruct (StrMap.find section (param a)) as [sec|] eqn:E; [|discriminate].
  rewrite (insert_same key p sec); [now apply insert_same| |exact Hget].
  exact (find_Forall sorted _ _ _ Hsecs E).
Qed.

Lemma apply_all_stable (a : ctkCmdLineApplication)
  (ts : list (string * string * string)) :
  wf a ->
  (forall s k v, In (s, k, v) ts ->
     exists p, getParam s k a = Some p /\ v = getString p /\ stable p) ->
  apply_all ts a = Ok a.
Proof.
  intros Hwf. induction ts as [|[[s k] v] ts IH]; intros Hts;
    cbn [apply_all]; [reflexivity|].
  destruct (Hts s k v (or_introl eq_refl)) as (p & Hget & -> & Hstable).
  unfold apply_declared. rewrite Hget. unfold stable in Hstable.
  rewrite Hstable. cbn [bind]. rewrite (store_same _ _ _ _ Hwf Hget).
  apply IH. intros s' k' v' Hin. apply Hts. now right.
Qed.

Lemma all_stable_In (a : ctkCmdLineApplication) (s k : string)
  (p : ctkParamData) :
  all_stable a -> getParam s k a = Some p -> stable p.
Proof.
  unfold all_stable, getParam. intros Hall.
  destruct (StrMap.find s (param a)) as [sec|] eqn:E; [|discriminate].
  intros Hp. apply find_In in E, Hp.
  rewrite Forall_forall in Hall. specialize (Hall _ E). cbn [snd] in Hall.
  rewrite Forall_forall in Hall. exact (Hall _ Hp).
Qed.

Lemma parse_save_text (a b : ctkCmdLineApplication) :
  text_ok a -> Forall (declared b) (entries a) ->
  parse (save_text a) b = apply_all (entries a) b.
Proof.
  intros Hok Hdecl. pose proof (assignments_save_text a Hok) as Hassign.
  rewrite parse_run_lines. unfold assignments in Hassign.
  rewrite <- Hassign. apply run_lines_declared. rewrite Hassign. exact Hdecl.
Qed.

(** X7.  The text [save] writes is read by [parse] as one assignment for
    every parameter, with its section, its key and its string, in the
    order of the maps; so loading it into a registry that declares these
    parameters gives each of them its saved string through [setString].
    This holds when the names and strings are such as a line can carry. *)
Theorem saved_text_is_read_back (a : ctkCmdLineApplication) :
  text_ok a ->
  assignments (save_text a) = entries a /\
  (forall b,
      Forall (declared b) (entries a) ->
      parse (save_text a) b = apply_all (entries a) b).
Proof.
  intros Hok. split; [now apply assignments_save_text|].
  intros b Hdecl. now apply parse_save_text.
Qed.

Lemma Demo_text_ok : text_ok Demo.app.
Proof. repeat constructor. Qed.

Lemma Demo_wf : wf Demo.app.
Proof. repeat constructor. Qed.

Lemma saved_text_is_read_back_witness :
  assignments (save_text Demo.app) = entries Demo.app /\
  parse (save_text Demo.app) Demo.app = apply_all (entries Demo.app) Demo.app.
Proof.
  destruct (saved_text_is_read_back Demo.app Demo_text_ok) as [Hassign Hread].
  split; [exact Hassign|]. apply Hread.
  repeat constructor; discriminate.
Defined.

(** X8.  Saving a registry to a file that can be opened for writing and
    loading the file back into it changes nothing, when the names and
    strings are such as a line can carry and the string of every
    parameter is read back as the value it has.  When the file cannot be
    opened, [save] writes nothing and says nothing, and [load] finds what
    was there before. *)
Theorem save_then_load_is_identity
  (iniFile : string) (a : ctkCmdLineApplication) (w : World) :
  wf a -> text_ok a -> all_stable a ->
  parse (save_text a) a = Ok a /\
  (can_write iniFile w = true ->
   load iniFile a (save iniFile a w) = Ok (true, a)) /\
  (can_write iniFile w = false ->
   save iniFile a w = w /\
   load iniFile a (save iniFile a w) = load iniFile a w).
Proof.
  intros Hwf Hok Hstable.
  assert (Hparse : parse (save_text a) a = Ok a).
  { rewrite parse_save_text.
    - apply apply_all_stable; [exact Hwf|].
      intros s k v Hin.
      destruct (entries_getParam a s k v Hwf Hin) as (p & Hget & ->).
      exists p. repeat split; [exact Hget|].
      now apply (all_stable_In a s k).
    - exact Hok.
    - apply Forall_forall. intros [[s k] v] Hin.
      destruct (entries_getParam a s k v Hwf Hin) as (p & Hget & _).
      unfold declared. cbn [fst snd]. congruence. }
  split; [exact Hparse|]. split.
  - intros Hopen. unfold load, save, open_in. rewrite Hopen.
    unfold can_write in Hopen. apply andb_true_iff in Hopen.
    destruct Hopen as [Hname _]. apply negb_true_iff in Hname.
    rewrite Hname. unfold put_file. cbn [files].
    rewrite find_insert_eq. unfold getline, good, istringstream.
    cbn [eofbit failbit buf negb andb].
    rewrite (extract_until_absent _ _ (save_text_NUL_free a Hok)).
    rewrite Hparse. reflexivity.
  - intros Hopen. unfold save. rewrite Hopen. split; reflexivity.
Qed.

Lemma Demo_all_stable : all_stable Demo.app.
Proof. repeat constructor. Qed.

Lemma save_then_load_is_identity_witness :
  load "test.ini" Demo.app (save "test.ini" Demo.app Demo.world)
  = Ok (true, Demo.app).
Proof.
  apply (proj1 (proj2 (save_then_load_is_identity "test.ini" Demo.app
                         Demo.world Demo_wf Demo_text_ok Demo_all_stable))).
  reflexivity.
Defined.

(** ** An empty vector in the ini text *)







(** ** The proxy class *)

Lemma setParam_fresh section key p a :
  getParam section key a = None ->
  setParam section key p a = Ok (store section key p a).
Proof.
  unfold getParam, setParam, StrMap.index.
  destruct (StrMap.find section (param a)) as [sec|]; cbn [StrMap.find];
    [intros ->|intros _]; reflexivity.
Qed.

Lemma set_param_tag_spec section key t v a p :
  getParam section key a = Some p ->
  ctkParam.set_param_tag section key t v a
  = Ok (store section key
          (ctkCLI.set_tags p (StrMap.insert t v (ctkCLI.tags p))) a).
Proof. unfold ctkParam.set_param_tag. now intros ->. Qed.

Lemma commandLineFlags_store section key p a :
  commandLineFlags (store section key p a) = commandLineFlags a.
Proof. apply store_fields. Qed.

Lemma getParam_setFlag flag s k section key a :
  getParam section key (setFlag flag s k a) = getParam section key a.
Proof. reflexivity. Qed.

Lemma map_string_app (f : ascii -> ascii) (s t : string) :
  ctkParam.map_string f (s ++ t)
  = ctkParam.map_string f s ++ ctkParam.map_string f t.
Proof.
  induction s as [|c s IH]; cbn [append ctkParam.map_string];
    [reflexivity|now rewrite IH].
Qed.

Lemma getNormName_norm (section key : string) :
  ctkParam.getNormName section key
  = ctkParam.norm section ++ "-" ++ ctkParam.norm key.
Proof.
  unfold ctkParam.getNormName, ctkParam.norm.
  now rewrite !map_string_app.
Qed.

Lemma norm_chars (s : string) :
  all_chars (fun c => negb (Ascii.eqb c " "%char) && negb (ctkParam.is_upper c))
    (ctkParam.norm s) = true.
Proof.
  unfold ctkParam.norm.
  induction s as [|c s IH]; cbn [ctkParam.map_string all_chars];
    [reflexivity|].
  rewrite IH, andb_true_r.
  destruct c as [[] [] [] [] [] [] [] []]; reflexivity.
Qed.

Lemma all_chars_app (f : ascii -> bool) (s t : string) :
  all_chars f (s ++ t) = all_chars f s && all_chars f t.
Proof.
  induction s as [|c s IH]; cbn [append all_chars]; [reflexivity|].
  now rewrite IH, andb_assoc.
Qed.

Lemma norm_app (s t : string) :
  ctkParam.norm (s ++ t) = ctkParam.norm s ++ ctkParam.norm t.
Proof. unfold ctkParam.norm. now rewrite !map_string_app. Qed.

Lemma norm_idempotent (s : string) :
  ctkParam.norm (ctkParam.norm s) = ctkParam.norm s.
Proof.
  unfold ctkParam.norm.
  induction s as [|c s IH]; cbn [ctkParam.map_string]; [reflexivity|].
  rewrite IH. f_equal.
  destruct c as [[] [] [] [] [] [] [] []]; reflexivity.
Qed.

(** X10.  The long flag derived from a section and a key is the two
    names in lower case with every space turned into a hyphen, joined by
    a hyphen: it holds no space and no capital letter, and it does not
    tell apart names that differ in case, in spaces against hyphens, or in
    where the section ends and the key begins. *)
Theorem getNormName_forgets (section key : string) :
  ctkParam.getNormName section key
  = ctkParam.norm section ++ "-" ++ ctkParam.norm key /\
  all_chars (fun c => negb (Ascii.eqb c " "%char) && negb (ctkParam.is_upper c))
    (ctkParam.getNormName section key) = true /\
  ctkParam.getNormName (ctkParam.norm section) (ctkParam.norm key)
  = ctkParam.getNormName section key /\
  (forall t,
      ctkParam.getNormName (section ++ " " ++ t) key
      = ctkParam.getNormName section (t ++ " " ++ key)).
Proof.
  split; [apply getNormName_norm|]. split; [|split].
  - rewrite getNormName_norm, !all_chars_app, !norm_chars. reflexivity.
  - now rewrite !getNormName_norm, !norm_idempotent.
  - intros t. rewrite !getNormName_norm, !norm_app, !append_assoc.
    reflexivity.
Qed.

Lemma ctor_fresh
  (section key : string) (fresh : ctkParamData) (a : ctkCmdLineApplication) :
  getParam section key a = None ->
  exists a',
    ctkParam.ctor section key fresh a = Ok a' /\
    getParam section key a'
    = Some (ctkCLI.set_tags fresh
              (StrMap.insert "name" (ctkParam.getNormName section key)
                 (StrMap.insert "description" ""
                    (StrMap.insert "longflag"
                       (ctkParam.getNormName section key)
                       (ctkCLI.tags fresh))))) /\
    StrMap.find ("--" ++ ctkParam.getNormName section key)
      (commandLineFlags a') = Some (section, key) /\
    (forall flag, flag <> "--" ++ ctkParam.getNormName section key ->
       StrMap.find flag (commandLineFlags a')
       = StrMap.find flag (commandLineFlags a)) /\
    (forall section' key', (section', key') <> (section, key) ->
       getParam section' key' a' = getParam section' key' a).
Proof.
  intros Hnone. unfold ctkParam.ctor. rewrite Hnone.
  unfold ctkParam.declareType. rewrite (setParam_fresh _ _ _ _ Hnone).
  cbn [bind]. unfold ctkParam.declare.
  rewrite (set_param_tag_spec _ _ _ _ _ fresh)
    by apply getParam_store_eq.
  cbn [bind].
  erewrite set_param_tag_spec
    by (rewrite getParam_setFlag; apply getParam_store_eq).
  cbn [bind String.eqb negb].
  erewrite set_param_tag_spec by apply getParam_store_eq.
  eexists. split; [reflexivity|]. split; [|split; [|split]].
  - rewrite getParam_store_eq. reflexivity.
  - rewrite !commandLineFlags_store. cbn [setFlag commandLineFlags].
    apply find_insert_eq.
  - intros flag Hflag.
    rewrite !commandLineFlags_store. cbn [setFlag commandLineFlags].
    rewrite !commandLineFlags_store. now apply find_insert_neq.
  - intros section' key' Hne.
    rewrite !getParam_store_neq by assumption.
    rewrite getParam_setFlag.
    now rewrite !getParam_store_neq by assumption.
Qed.

Lemma ctor_existing
  (section key : string) (fresh p : ctkParamData)
  (a : ctkCmdLineApplication) :
  getParam section key a = Some p ->
  exists a',
    ctkParam.ctor section key fresh a = Ok a' /\
    getParam section key a'
    = Some (ctkCLI.set_tags p
              (StrMap.insert "name" (ctkParam.getNormName section key)
                 (ctkCLI.tags p))) /\
    commandLineFlags a' = commandLineFlags a /\
    (forall section' key', (section', key') <> (section, key) ->
       getParam section' key' a' = getParam section' key' a).
Proof.
  intros Hp. unfold ctkParam.ctor. rewrite Hp. cbn [bind].
  rewrite (set_param_tag_spec _ _ _ _ _ p Hp).
  eexists. split; [reflexivity|]. split; [|split].
  - apply getParam_store_eq.
  - apply commandLineFlags_store.
  - intros section' key' Hne. now apply getParam_store_neq.
Qed.

(** X11.  The constructor of a proxy on a pair that is not registered
    yet stores the new object with the tags [longflag], [description] and
    [name], and binds the long flag ["--"] + [getNormName] to the pair: the
    parameter can be named on the command line before any [declare].
    Other parameters and other flags are as before.  On a pair that is
    registered the stored object keeps its type and value, and no flag is
    bound. *)
Theorem ctor_makes_parameter_addressable
  (section key : string) (fresh : ctkParamData) (a : ctkCmdLineApplication) :
  let name := ctkParam.getNormName section key in
  (getParam section key a = None ->
   exists a',
     ctkParam.ctor section key fresh a = Ok a' /\
     getParam section key a'
     = Some (ctkCLI.set_tags fresh
               (StrMap.insert "name" name
                  (StrMap.insert "description" ""
                     (StrMap.insert "longflag" name (ctkCLI.tags fresh))))) /\
     StrMap.find ("--" ++ name) (commandLineFlags a') = Some (section, key) /\
     (forall flag, flag <> "--" ++ name ->
        StrMap.find flag (commandLineFlags a')
        = StrMap.find flag (commandLineFlags a)) /\
     (forall section' key', (section', key') <> (section, key) ->
        getParam section' key' a' = getParam section' key' a)) /\
  (forall p,
      getParam section key a = Some p ->
      exists a',
        ctkParam.ctor section key fresh a = Ok a' /\
        getParam section key a'
        = Some (ctkCLI.set_tags p
                  (StrMap.insert "name" name (ctkCLI.tags p))) /\
        commandLineFlags a' = commandLineFlags a /\
        (forall section' key', (section', key') <> (section, key) ->
           getParam section' key' a' = getParam section' key' a)).
Proof.
  cbv zeta. split.
  - apply ctor_fresh.
  - intros p. apply ctor_existing.
Qed.

Lemma ctor_makes_parameter_addressable_witness :
  exists a',
    ctkParam.ctor "Airplane" "Max Speed" new_int Bare.app = Ok a' /\
    StrMap.find "--airplane-max-speed" (commandLineFlags a')
    = Some ("Airplane", "Max Speed").
Proof.
  destruct (proj1 (ctor_makes_parameter_addressable
                     "Airplane" "Max Speed" new_int Bare.app) eq_refl)
    as (a' & Hctor & _ & Hflag & _).
  exists a'. split; [exact Hctor|exact Hflag].
Defined.

Lemma find_tag_after_insert (k t v : string) (m : StrMap.t string) (x : string) :
  (k = t -> x = v) ->
  (k <> t -> StrMap.find k m = Some x) ->
  StrMap.find k (StrMap.insert t v m) = Some x.
Proof.
  intros Heq Hne. rewrite find_insert.
  destruct (String.eqb_spec k t) as [E|E]; [now rewrite (Heq E)|now apply Hne].
Qed.

(** X12.  [declare(description, shortflag)] on a registered parameter
    binds the long flag, and the short flag when one is given, to the
    pair, and writes the tags [longflag], [description] and [flag]; the
    type and the value of the parameter are not touched. *)
Theorem declare_binds_flags
  (section key description shortflag : string)
  (a : ctkCmdLineApplication) (p : ctkParamData) :
  getParam section key a = Some p ->
  exists a' p',
    ctkParam.declare section key description shortflag a = Ok a' /\
    StrMap.find ("--" ++ ctkParam.getNormName section key)
      (commandLineFlags a') = Some (section, key) /\
    (shortflag <> "" ->
     StrMap.find ("-" ++ shortflag) (commandLineFlags a')
     = Some (section, key)) /\
    getParam section key a' = Some p' /\
    value p' = value p /\ type_name p' = type_name p /\
    StrMap.find "longflag" (ctkCLI.tags p')
    = Some (ctkParam.getNormName section key) /\
    StrMap.find "description" (ctkCLI.tags p') = Some description /\
    (shortflag <> "" -> StrMap.find "flag" (ctkCLI.tags p') = Some shortflag).
Proof.
  intros Hp. unfold ctkParam.declare.
  rewrite (set_param_tag_spec _ _ _ _ _ p Hp). cbn [bind].
  erewrite set_param_tag_spec
    by (rewrite getParam_setFlag; apply getParam_store_eq).
  cbn [bind].
  destruct (String.eqb_spec shortflag "") as [->|Hshort]; cbn [negb].
  - eexists. eexists. split; [reflexivity|].
    rewrite commandLineFlags_store, getParam_store_eq.
    cbn [setFlag commandLineFlags]. rewrite commandLineFlags_store.
    repeat split; try congruence.
    + apply find_insert_eq.
    + cbn [ctkCLI.tags ctkCLI.set_tags]. rewrite find_insert_neq by discriminate.
      apply find_insert_eq.
    + cbn [ctkCLI.tags ctkCLI.set_tags]. apply find_insert_eq.
  - erewrite set_param_tag_spec
      by (rewrite getParam_setFlag; apply getParam_store_eq).
    eexists. eexists. split; [reflexivity|].
    rewrite commandLineFlags_store, getParam_store_eq.
    cbn [setFlag commandLineFlags]. rewrite commandLineFlags_store.
    cbn [setFlag commandLineFlags]. rewrite commandLineFlags_store.
    repeat split.
    + rewrite find_insert.
      destruct (String.eqb _ _); [reflexivity|apply find_insert_eq].
    + intros _. apply find_insert_eq.
    + cbn [ctkCLI.tags ctkCLI.set_tags].
      rewrite !find_insert_neq by discriminate. apply find_insert_eq.
    + cbn [ctkCLI.tags ctkCLI.set_tags].
      rewrite find_insert_neq by discriminate. apply find_insert_eq.
    + intros _. cbn [ctkCLI.tags ctkCLI.set_tags]. apply find_insert_eq.
Qed.

Lemma declare_binds_flags_witness :
  exists a' p',
    ctkParam.declare "Basic Types" "Bool Param" "Switch" "s" Demo.app
    = Ok a' /\
    StrMap.find "-s" (commandLineFlags a')
    = Some ("Basic Types", "Bool Param") /\
    getParam "Basic Types" "Bool Param" a' = Some p' /\
    value p' = VBool true.
Proof.
  destruct (declare_binds_flags "Basic Types" "Bool Param" "Switch" "s"
              Demo.app _ eq_refl)
    as (a' & p' & Hdecl & _ & Hshort & Hget & Hval & _).
  exists a', p'. repeat split; try assumption.
  apply Hshort. discriminate.
Defined.

Lemma type_of_value_kind (v : Value) :
  ctkParam.type_of_value v = ctkParam.getTypeName (ctkParam.kind_of v).
Proof. destruct v; reflexivity. Qed.

Lemma getString_set_value (p : ctkParamData) (v : Value) :
  getString (set_value p v) = ctkParam.toString_value v.
Proof. destruct v; reflexivity. Qed.

Lemma same_kind_kind_of (v : Value) :
  ctkParam.same_kind (ctkParam.kind_of v) v = true.
Proof. destruct v; reflexivity. Qed.

(** X13.  What is written through a proxy is read back through a proxy
    of the same type: always when the stored object has that type, and,
    when the stored object keeps a string (the classes for files,
    directories, images and the like), whenever the text of the value is
    read back as the value. *)
Theorem getValue_after_setValue
  (section key : string) (v : Value)
  (a : ctkCmdLineApplication) (p : ctkParamData) :
  getParam section key a = Some p ->
  getType p = ctkParam.getTypeName (ctkParam.kind_of v) \/
  ((exists s0, value p = VString s0) /\ ctkParam.roundtrips v) ->
  exists a',
    ctkParam.setValue section key v a = Ok a' /\
    ctkParam.getValue (ctkParam.kind_of v) section key a' = Ok v.
Proof.
  intros Hp Hcase. unfold ctkParam.setValue. rewrite Hp.
  rewrite type_of_value_kind.
  destruct (String.eqb (getType p)
              (ctkParam.getTypeName (ctkParam.kind_of v))) eqn:E.
  - eexists. split; [reflexivity|].
    unfold ctkParam.getValue. rewrite getParam_store_eq.
    change (getType (set_value p v)) with (getType p). rewrite E.
    cbn [value set_value]. now rewrite same_kind_kind_of.
  - destruct Hcase as [Hty|[[s0 Hs0] Hrt]].
    + rewrite Hty, String.eqb_refl in E. discriminate.
    + rewrite getString_set_value.
      destruct p as [ty pv tg at_ cs]. cbn [value] in Hs0. subst pv.
      rewrite setString_VString. cbn [bind].
      eexists. split; [reflexivity|].
      unfold ctkParam.getValue. rewrite getParam_store_eq.
      cbn [getType type_name] in *. rewrite E. cbn [andb].
      exact Hrt.
Qed.

Lemma getValue_after_setValue_witness :
  exists a',
    ctkParam.setValue "Special" "File" (VInt 42) Demo.app = Ok a' /\
    ctkParam.getValue ctkParam.TInt "Special" "File" a' = Ok (VInt 42).
Proof.
  apply (getValue_after_setValue "Special" "File" (VInt 42) Demo.app
           (mkParam "file" (VString "")
              [("description", "Input File"); ("flag", "special-file");
               ("index", "0"); ("longflag", "special-file")] [] [])
           eq_refl).
  right. split; [now exists ""|reflexivity].
Defined.

(** ** Tokens without a dash *)

Lemma no_dash_not_builtin (cmd : string) :
  Ascii.eqb (char_at 0 cmd) "-"%char = false -> builtin cmd = false.
Proof.
  destruct cmd as [|c cmd]; [reflexivity|].
  unfold char_at. cbn [String.get]. intros Hc.
  unfold builtin. cbn [String.eqb]. rewrite Hc. reflexivity.
Qed.

Lemma scan_step_positional (argc : Z) (st : scan_state) (cmd : string) :
  argv_get (argv st) (i st) = Ok (Some cmd) ->
  Ascii.eqb (char_at 0 cmd) "-"%char = false ->
  scan_step argc st
  = dispatch (toString (index st))
      (mkScan (i st) (index st + 1) (argv st) (app st) (world st)).
Proof.
  intros Hget Hdash. unfold scan_step. rewrite Hget. cbn [bind cstring].
  destruct (builtin_false _ (no_dash_not_builtin _ Hdash)) as (-> & -> & ->).
  now rewrite Hdash.
Qed.

Lemma scan_step_positional_bound
  (argc : Z) (st : scan_state) (cmd section key : string)
  (p p' : ctkParamData) :
  argv_get (argv st) (i st) = Ok (Some cmd) ->
  Ascii.eqb (char_at 0 cmd) "-"%char = false ->
  StrMap.find (toString (index st)) (commandLineFlags (App.app st))
  = Some (section, key) ->
  getParam section key (App.app st) = Some p ->
  String.eqb (getType p) getTypeName_bool = false ->
  setString cmd p = Ok p' ->
  scan_step argc st
  = Ok (Continue,
        mkScan (i st + 1) (index st + 1) (argv st)
          (store section key p' (App.app st)) (world st)).
Proof.
  intros Hget Hdash Hfind Hp Hty Hset.
  rewrite (scan_step_positional _ _ _ Hget Hdash).
  unfold dispatch. cbn [App.app argv i index world].
  rewrite Hfind, Hp, Hty, Hget. cbn [bind cstring]. now rewrite Hset.
Qed.

(** X14.  A token that does not start with [-] is looked up under the
    number of such tokens seen before it.  When that number is bound to a
    parameter that is not boolean, the text of the token itself becomes
    the value of the parameter; when it is bound to a boolean parameter,
    the parameter is negated whatever the text.  In both cases the token
    stays in the array, and this holds for the last token as well. *)
Theorem positional_token_sets_parameter
  (argc : Z) (st : scan_state) (cmd section key : string) (p : ctkParamData) :
  argv_get (argv st) (i st) = Ok (Some cmd) ->
  Ascii.eqb (char_at 0 cmd) "-"%char = false ->
  StrMap.find (toString (index st)) (commandLineFlags (app st))
  = Some (section, key) ->
  getParam section key (app st) = Some p ->
  (forall p',
      String.eqb (getType p) getTypeName_bool = false ->
      setString cmd p = Ok p' ->
      scan_step argc st
      = Ok (Continue,
            mkScan (i st + 1) (index st + 1) (argv st)
              (store section key p' (app st)) (world st))) /\
  (forall b,
      getType p = getTypeName_bool -> value p = VBool b ->
      scan_step argc st
      = Ok (Continue,
            mkScan (i st + 1) (index st + 1) (argv st)
              (store section key (set_value p (VBool (negb b))) (app st))
              (world st))).
Proof.
  intros Hget Hdash Hfind Hp. split.
  - intros p' Hty Hset. eapply scan_step_positional_bound; eassumption.
  - rewrite (scan_step_positional _ _ _ Hget Hdash).
    unfold dispatch. cbn [App.app argv i index world].
    rewrite Hfind, Hp.
    intros b Hty Hval. rewrite Hty, String.eqb_refl.
    unfold getString, setString. rewrite Hval. destruct b; reflexivity.
Qed.

Lemma positional_token_sets_parameter_witness :
  scan_step 1 (mkScan 0 0 (main_argv ["in.txt"]) Demo.app Demo.world)
  = Ok (Continue,
        mkScan 1 1 (main_argv ["in.txt"])
          (store "Special" "File"
             (mkParam "file" (VString "in.txt")
                [("description", "Input File"); ("flag", "special-file");
                 ("index", "0"); ("longflag", "special-file")] [] [])
             Demo.app)
          Demo.world).
Proof.
  apply (proj1 (positional_token_sets_parameter 1
                  (mkScan 0 0 (main_argv ["in.txt"]) Demo.app Demo.world)
                  "in.txt" "Special" "File"
                  (mkParam "file" (VString "")
                     [("description", "Input File"); ("flag", "special-file");
                      ("index", "0"); ("longflag", "special-file")] [] [])
                  eq_refl eq_refl eq_refl eq_refl));
    reflexivity.
Defined.

(** ** What the scan leaves alone *)

Lemma commandLineFlags_getSynopsis (a : ctkCmdLineApplication) :
  commandLineFlags (snd (getSynopsis a)) = commandLineFlags a.
Proof.
  unfold getSynopsis.
  repeat match goal with
         | |- context [let (_, _) := ?x in _] => destruct x
         | |- context [let '(_, _) := ?x in _] => destruct x
         end.
  reflexivity.
Qed.

Lemma commandLineFlags_setString_at section key value a a' :
  setString_at section key value a = Ok a' ->
  commandLineFlags a' = commandLineFlags a.
Proof.
  unfold setString_at. destruct (getParam section key a) as [p|];
    [|discriminate].
  destruct (setString value p); cbn [bind]; [|discriminate].
  intros [= <-]. apply commandLineFlags_store.
Qed.

Lemma commandLineFlags_run_lines (lines : list string) :
  forall list_ a a',
    run_lines lines list_ a = Ok a' ->
    commandLineFlags a' = commandLineFlags a.
Proof.
  induction lines as [|line rest IH]; intros list_ a a'; cbn [run_lines].
  - now intros [= <-].
  - destruct (classify line) as [|l|key value]; try apply IH.
    destruct (setString_at list_ key value a) as [a1|] eqn:E; cbn [bind];
      [|discriminate].
    intros H. rewrite (IH _ _ _ H).
    eapply commandLineFlags_setString_at; eassumption.
Qed.

Lemma commandLineFlags_load iniFile a w loaded a' :
  load iniFile a w = Ok (loaded, a') ->
  commandLineFlags a' = commandLineFlags a.
Proof.
  unfold load. destruct (open_in iniFile w).
  - destruct (getline _ _ _) as [? all].
    destruct (parse all a) as [a1|] eqn:E; cbn [bind]; [|discriminate].
    intros [= _ <-]. rewrite parse_run_lines in E.
    eapply commandLineFlags_run_lines; eassumption.
  - now intros [= _ <-].
Qed.

Lemma dispatch_keeps (cmd : string) (st st' : scan_state) (c : control) :
  dispatch cmd st = Ok (c, st') ->
  commandLineFlags (App.app st') = commandLineFlags (App.app st) /\
  argv st' = argv st.
Proof.
  unfold dispatch.
  destruct (StrMap.find cmd (commandLineFlags (App.app st)))
    as [[section key]|].
  - destruct (getParam section key (App.app st)) as [p|]; [|discriminate].
    match goal with
    | |- bind ?r _ = _ -> _ => destruct r as [p'|]
    end; cbn [bind]; [|discriminate].
    intros [= _ <-]. cbn [App.app argv]. split; [|reflexivity].
    apply commandLineFlags_store.
  - intros [= _ <-]. split; reflexivity.
Qed.

Lemma scan_step_keeps (argc : Z) (st st' : scan_state) (c : control) :
  scan_step argc st = Ok (c, st') ->
  commandLineFlags (App.app st') = commandLineFlags (App.app st) /\
  List.length (argv st') = List.length (argv st).
Proof.
  unfold scan_step.
  destruct (argv_get (argv st) (i st)) as [arg|]; cbn [bind]; [|discriminate].
  destruct (cstring arg) as [cmd|]; cbn [bind]; [|discriminate].
  destruct (String.eqb cmd "--xml").
  { destruct (getXMLDescription (App.app st)); cbn [bind]; [|discriminate].
    intros [= _ <-]. cbn [App.app argv].
    split; [reflexivity|apply length_argv_set]. }
  destruct (_ || _).
  { pose proof (commandLineFlags_getSynopsis (App.app st)) as Hsyn.
    destruct (getSynopsis (App.app st)) as [synopsis a1]. cbn [snd] in Hsyn.
    intros [= _ <-]. cbn [App.app argv].
    split; [exact Hsyn|apply length_argv_set]. }
  destruct (_ || _).
  { destruct (i st =? argc - 1); [intros [= _ <-]; split; reflexivity|].
    destruct (argv_get _ _) as [file|]; cbn [bind]; [|discriminate].
    destruct (cstring file) as [name|]; cbn [bind]; [|discriminate].
    destruct (Ascii.eqb _ _).
    - intros [= _ <-]. cbn [App.app argv].
      split; [reflexivity|apply length_argv_set].
    - destruct (load name (App.app st) (world st)) as [[loaded a1]|] eqn:E;
        cbn [bind]; [|discriminate].
      intros [= _ <-]. cbn [App.app argv].
      split; [|apply length_argv_set].
      eapply commandLineFlags_load; eassumption. }
  destruct (Ascii.eqb _ _).
  - destruct (i st =? argc - 1); [intros [= _ <-]; split; reflexivity|].
    intros H. apply dispatch_keeps in H. cbn [App.app argv] in H.
    destruct H as [-> ->]. split; [reflexivity|apply length_argv_set].
  - intros H. apply dispatch_keeps in H. cbn [App.app argv] in H.
    destruct H as [-> ->]. split; reflexivity.
Qed.

Lemma scan_loop_keeps (fuel : nat) :
  forall (argc : Z) (st st' : scan_state),
    scan_loop fuel argc st = Ok st' ->
    commandLineFlags (App.app st') = commandLineFlags (App.app st) /\
    List.length (argv st') = List.length (argv st).
Proof.
  induction fuel as [|fuel IH]; intros argc st st'; cbn [scan_loop].
  - destruct (i st <? argc); [discriminate|]. intros [= <-]. now split.
  - destruct (i st <? argc); [|intros [= <-]; now split].
    destruct (scan_step argc st) as [[c st1]|] eqn:E; cbn [bind];
      [|discriminate].
    apply scan_step_keeps in E. destruct E as [Hf Hl].
    destruct c.
    + intros H. apply IH in H. destruct H as [-> ->]. now split.
    + intros [= <-]. now split.
Qed.

Lemma compact_loop_length (fuel : nat) :
  forall (argc n handled : Z) (argv argv' : list (option string)) (h : Z),
    compact_loop fuel argc n handled argv = Ok (argv', h) ->
    List.length argv' = List.length argv.
Proof.
  induction fuel as [|fuel IH]; intros argc n handled argv argv' h;
    cbn [compact_loop].
  - destruct (n <? argc); [discriminate|]. now intros [= <- _].
  - destruct (n <? argc); [|now intros [= <- _]].
    destruct (argv_get argv n) as [[s|]|]; cbn [bind]; [| |discriminate].
    + apply IH.
    + destruct (argv_get argv (n + (handled + 1))) as [next|]; cbn [bind];
        [|discriminate].
      intros H. apply IH in H. now rewrite length_argv_set in H.
Qed.

(** X15.  Whatever the command line, [parseCommandLine] binds no flag
    and unbinds none, and the array it hands back has as many cells as
    the array it was given. *)
Theorem parseCommandLine_keeps_flags_and_cells
  (argc : Z) (argv : list (option string))
  (a : ctkCmdLineApplication) (w : World) (r : parsed) :
  parseCommandLine argc argv a w = Ok r ->
  commandLineFlags (app_out r) = commandLineFlags a /\
  List.length (argv_out r) = List.length argv.
Proof.
  unfold parseCommandLine.
  destruct (scan_loop _ _ _) as [st|] eqn:Hscan; cbn [bind]; [|discriminate].
  destruct (compact argc (App.argv st)) as [[argv' handled]|] eqn:Hc;
    cbn [bind]; [|discriminate].
  intros [= <-]. cbn [app_out argv_out].
  apply scan_loop_keeps in Hscan. cbn [App.app App.argv] in Hscan.
  destruct Hscan as [Hf Hl]. split; [exact Hf|].
  unfold compact in Hc. apply compact_loop_length in Hc. congruence.
Qed.

Lemma parseCommandLine_keeps_flags_and_cells_witness :
  exists r,
    parseCommandLine 2 (main_argv ["--basic-types-bool-param"; "x"])
      Demo.app Demo.world = Ok r /\
    commandLineFlags (app_out r) = commandLineFlags Demo.app /\
    List.length (argv_out r) = 3%nat.
Proof.
  eexists. split; [vm_compute; reflexivity|].
  apply (parseCommandLine_keeps_flags_and_cells 2
           (main_argv ["--basic-types-bool-param"; "x"]) Demo.app Demo.world).
  vm_compute. reflexivity.
Defined.

(** ** After the removal loop *)

Lemma list_set_nth_other {A : Type} (l : list A) (n m : nat) (x : A) :
  m <> n -> nth_error (list_set l n x) m = nth_error l m.
Proof.
  revert n m. induction l as [|y l IH]; intros [|n] [|m] Hne;
    cbn [list_set nth_error]; try reflexivity; try congruence.
  apply IH. congruence.
Qed.

Lemma argv_get_set_other (argv : list (option string)) (n m : Z)
  (x : option string) :
  m <> n -> argv_get (argv_set argv n x) m = argv_get argv m.
Proof.
  intros Hne. unfold argv_get, argv_set.
  destruct (m <? 0) eqn:Em; [reflexivity|].
  destruct (n <? 0) eqn:En; [reflexivity|].
  apply Z.ltb_ge in Em, En.
  rewrite list_set_nth_other; [reflexivity|lia].
Qed.

Lemma compact_loop_post (fuel : nat) :
  forall (argc n handled : Z) (argv argv' : list (option string)) (h : Z),
    (forall m, 0 <= m < n -> exists s, argv_get argv m = Ok (Some s)) ->
    compact_loop fuel argc n handled argv = Ok (argv', h) ->
    (forall m, 0 <= m < argc -> exists s, argv_get argv' m = Ok (Some s)) /\
    handled <= h /\
    (forall m, argc <= m -> argv_get argv' m = argv_get argv m).
Proof.
  induction fuel as [|fuel IH]; intros argc n handled argv argv' h Hinv;
    cbn [compact_loop].
  - destruct (n <? argc) eqn:E; [discriminate|]. apply Z.ltb_ge in E.
    intros [= <- <-]. repeat split; [|lia].
    intros m Hm. apply Hinv. lia.
  - destruct (n <? argc) eqn:E.
    + apply Z.ltb_lt in E.
      destruct (argv_get argv n) as [[s|]|] eqn:Hn; cbn [bind];
        [| |discriminate].
      * apply IH. intros m Hm.
        destruct (Z.eq_dec m n) as [->|]; [eauto|]. apply Hinv. lia.
      * destruct (argv_get argv (n + (handled + 1))) as [next|]; cbn [bind];
          [|discriminate].
        intros H. apply IH in H.
        -- destruct H as (Hcells & Hh & Hrest). repeat split;
             [exact Hcells|lia|].
           intros m Hm. rewrite Hrest by exact Hm.
           apply argv_get_set_other. lia.
        -- intros m Hm. rewrite argv_get_set_other by lia. now apply Hinv.
    + apply Z.ltb_ge in E. intros [= <- <-]. repeat split; [|lia].
      intros m Hm. apply Hinv. lia.
Qed.

Lemma compact_loop_nothing_handled (fuel : nat) :
  forall (argc n handled : Z) (argv : list (option string)),
    (Z.to_nat (argc - n) <= fuel)%nat ->
    (forall m, n <= m < argc -> exists s, argv_get argv m = Ok (Some s)) ->
    compact_loop fuel argc n handled argv = Ok (argv, handled).
Proof.
  induction fuel as [|fuel IH]; intros argc n handled argv Hfuel Hall;
    cbn [compact_loop].
  - destruct (n <? argc) eqn:E; [|reflexivity]. apply Z.ltb_lt in E. lia.
  - destruct (n <? argc) eqn:E; [|reflexivity]. apply Z.ltb_lt in E.
    destruct (Hall n) as [s Hs]; [lia|]. rewrite Hs. cbn [bind].
    apply IH; [lia|]. intros m Hm. apply Hall. lia.
Qed.

(** X16.  When the removal loop ends, none of the first [argc] cells is
    null, the cells from [argc] on are as they were, and the array has the
    length it had.  When none of the first [argc] cells was null to begin
    with, nothing is counted and nothing is moved. *)
Theorem compact_leaves_no_null (argc : Z) (argv : list (option string)) :
  (forall argv' handled,
      compact argc argv = Ok (argv', handled) ->
      List.length argv' = List.length argv /\
      0 <= handled /\
      (forall m, 0 <= m < argc -> exists s, argv_get argv' m = Ok (Some s)) /\
      (forall m, argc <= m -> argv_get argv' m = argv_get argv m)) /\
  ((forall m, 0 <= m < argc -> exists s, argv_get argv m = Ok (Some s)) ->
   compact argc argv = Ok (argv, 0)).
Proof.
  split.
  - intros argv' handled Hc. unfold compact in Hc.
    pose proof (compact_loop_length _ _ _ _ _ _ _ Hc) as Hlen.
    apply compact_loop_post in Hc; [|intros m Hm; lia].
    destruct Hc as (Hcells & Hh & Hrest). auto.
  - intros Hall. unfold compact.
    apply compact_loop_nothing_handled; [lia|exact Hall].
Qed.

Lemma compact_leaves_no_null_witness :
  compact 2 (main_argv ["a"; "b"]) = Ok (main_argv ["a"; "b"], 0) /\
  (forall m, 0 <= m < 3 ->
     exists s, argv_get [Some "a"; Some "a"; Some "b"; None] m = Ok (Some s)).
Proof.
  destruct (compact_leaves_no_null 2 (main_argv ["a"; "b"])) as [_ Hid].
  destruct (compact_leaves_no_null 3 [None; Some "a"; Some "b"; None])
    as [Hpost _].
  split.
  - apply Hid. intros m Hm.
    assert (Hcases : m = 0 \/ m = 1) by lia.
    destruct Hcases as [-> | ->]; eexists; reflexivity.
  - apply (Hpost [Some "a"; Some "a"; Some "b"; None] 1). reflexivity.
Defined.

(** ** The descriptor *)

Import Descriptor.

Lemma concat_results_Ok (l : list (result string)) :
  Forall (fun r => exists s, r = Ok s) l -> exists s, concat_results l = Ok s.
Proof.
  induction 1 as [|r l [s ->] _ [rest IH]]; cbn [concat_results bind]; eauto.
  rewrite IH. cbn [bind]. eauto.
Qed.

Lemma xml_tag_Ok (kv : string * string) : exists s, xml_tag kv = Ok s.
Proof.
  unfold xml_tag.
  destruct (String.eqb_spec (snd kv) "") as [|Hne]; [eauto|].
  destruct (String.eqb (fst kv) "enumeration"); [|eauto].
  destruct (stringToVector_string_total (snd kv) ","%char Hne) as [l ->].
  cbn [bind]. destruct l; eauto.
Qed.

(** X17.  [getXMLDescription] always yields a descriptor.  The only
    step that could go wrong, the splitting of an [enumeration] tag, is
    run on texts that are not empty, and on those it never removes from
    an empty vector. *)
Theorem getXMLDescription_always_yields (a : ctkCmdLineApplication) :
  (exists xml, getXMLDescription a = Ok xml) /\
  (forall s d, s <> "" -> exists l, stringToVector (T := string) s d = Ok l).
Proof.
  split; [|intros s d; apply stringToVector_string_total].
  unfold getXMLDescription.
  assert (Hsecs : exists s, concat_results (map xml_section (param a)) = Ok s).
  { apply concat_results_Ok, Forall_forall.
    intros r Hr. apply in_map_iff in Hr. destruct Hr as (sec & <- & _).
    unfold xml_section.
    assert (Hps : exists s, concat_results (map xml_param (snd sec)) = Ok s).
    { apply concat_results_Ok, Forall_forall.
      intros r Hr. apply in_map_iff in Hr. destruct Hr as (kp & <- & _).
      unfold xml_param.
      assert (Hts : exists s,
                 concat_results (map xml_tag (ctkCLI.tags (snd kp))) = Ok s).
      { apply concat_results_Ok, Forall_forall.
        intros r Hr. apply in_map_iff in Hr. destruct Hr as (kv & <- & _).
        apply xml_tag_Ok. }
      destruct Hts as [s ->]. cbn [bind]. eauto. }
    destruct Hps as [s ->]. cbn [bind]. eauto. }
  destruct Hsecs as [s ->]. cbn [bind]. eauto.
Qed.

Lemma getXMLDescription_always_yields_witness :
  exists l, stringToVector (T := string) "red,green" ","%char = Ok l.
Proof.
  apply (proj2 (getXMLDescription_always_yields Bare.app)). discriminate.
Defined.

Lemma xml_app_tags_ext (a b : ctkCmdLineApplication) :
  (forall tag, In tag app_tags ->
     StrMap.find tag (tags a) = StrMap.find tag (tags b)) ->
  xml_app_tags a = xml_app_tags b.
Proof.
  intros H. unfold xml_app_tags. f_equal. apply map_ext_in.
  intros tag Htag. now rewrite (H tag Htag).
Qed.

Lemma concat_map_holds (f : string -> string) (l : list string) (x : string) :
  In x l ->
  exists pre post, String.concat "" (map f l) = pre ++ f x ++ post.
Proof.
  induction l as [|y l IH]; [contradiction|].
  intros [->|Hin]; cbn [map]; rewrite concat_empty_cons.
  - exists "", (String.concat "" (map f l)). reflexivity.
  - destruct (IH Hin) as (pre & post & ->).
    exists (f y ++ pre), post. now rewrite append_assoc.
Qed.

(** X18.  The application tags of the descriptor depend only on what is
    stored under the eight names of [app_tags]: the order in which tags
    are set does not matter, a tag set twice shows its last value, and a
    value stored under one of the eight names has its element in the
    descriptor. *)
Theorem xml_app_tags_by_lookup :
  (forall k1 k2 v1 v2 a,
      k1 <> k2 ->
      xml_app_tags (set_tag k1 v1 (set_tag k2 v2 a))
      = xml_app_tags (set_tag k2 v2 (set_tag k1 v1 a))) /\
  (forall k v1 v2 a,
      xml_app_tags (set_tag k v1 (set_tag k v2 a))
      = xml_app_tags (set_tag k v1 a)) /\
  (forall tag v a,
      In tag app_tags ->
      exists pre post,
        xml_app_tags (set_tag tag v a) = pre ++ app_tag_line tag v ++ post).
Proof.
  split; [|split].
  - intros k1 k2 v1 v2 a Hne. apply xml_app_tags_ext. intros tag _.
    unfold set_tag, set_tags. cbn [tags]. rewrite !find_insert.
    destruct (String.eqb_spec tag k1) as [->|]; [|reflexivity].
    apply String.eqb_neq in Hne. now rewrite Hne.
  - intros k v1 v2 a. apply xml_app_tags_ext. intros tag _.
    unfold set_tag, set_tags. cbn [tags]. rewrite !find_insert.
    destruct (String.eqb tag k); reflexivity.
  - intros tag v a Hin. unfold xml_app_tags.
    destruct (concat_map_holds
                (fun tag0 =>
                   match StrMap.find tag0 (tags (set_tag tag v a)) with
                   | Some v0 =>
                       "  <" ++ tag0 ++ ">" ++ v0 ++ "</" ++ tag0 ++ ">" ++ nl
                   | None => ""
                   end) app_tags tag Hin) as (pre & post & ->).
    exists pre, post. unfold set_tag, set_tags. cbn [tags].
    rewrite find_insert_eq. reflexivity.
Qed.

Lemma xml_app_tags_by_lookup_witness :
  exists pre post,
    xml_app_tags (setLicense "Apache" Bare.app)
    = pre ++ app_tag_line "license" "Apache" ++ post.
Proof.
  apply (proj2 (proj2 xml_app_tags_by_lookup) "license" "Apache" Bare.app).
  cbn. tauto.
Defined.

(** ** The synopsis writes into the tags *)

Lemma find_at_ (k t : string) (m : StrMap.t string) :
  StrMap.find k (snd (at_ t m))
  = if String.eqb k t
    then Some (match StrMap.find t m with Some v => v | None => "" end)
    else StrMap.find k m.
Proof.
  unfold at_, StrMap.index.
  destruct (StrMap.find t m) as [v|] eqn:E; cbn [snd].
  - destruct (String.eqb_spec k t) as [->|]; [exact E|reflexivity].
  - apply find_insert.
Qed.

Lemma tags_getSynopsis (a : ctkCmdLineApplication) :
  tags (snd (getSynopsis a))
  = snd (at_ "acknowledgements"
           (snd (at_ "contributor"
                   (snd (at_ "description" (snd (at_ "titel" (tags a)))))))).
Proof.
  unfold getSynopsis.
  destruct (at_ "titel" (tags a)) as [titel tg1].
  destruct (visit_params _ _ _) as [m1 [usage indexed]].
  destruct (fold_left _ m1 _) as [m2 verbose].
  cbn [snd].
  destruct (at_ "description" tg1) as [description tg2]. cbn [snd].
  destruct (at_ "contributor" tg2) as [contributor tg3]. cbn [snd].
  destruct (at_ "acknowledgements" tg3) as [acknowledgements tg4].
  reflexivity.
Qed.

(** X19.  [getSynopsis] is not read-only: reading [tags["titel"]],
    [tags["description"]], [tags["contributor"]] and
    [tags["acknowledgements"]] inserts each of them, empty, when it is
    missing.  No other application tag is touched.  A descriptor made
    afterwards therefore has an empty [contributor] element where it had
    none before. *)
Theorem getSynopsis_inserts_empty_tags (a : ctkCmdLineApplication) :
  (forall k,
      StrMap.find k (tags (snd (getSynopsis a)))
      = if read_by_synopsis k
        then Some (match StrMap.find k (tags a) with
                   | Some v => v
                   | None => ""
                   end)
        else StrMap.find k (tags a)) /\
  (StrMap.find "contributor" (tags a) = None ->
   exists pre post,
     xml_app_tags (snd (getSynopsis a))
     = pre ++ app_tag_line "contributor" "" ++ post).
Proof.
  assert (Hfind : forall k,
      StrMap.find k (tags (snd (getSynopsis a)))
      = if read_by_synopsis k
        then Some (match StrMap.find k (tags a) with
                   | Some v => v
                   | None => ""
                   end)
        else StrMap.find k (tags a)).
  { intros k. rewrite tags_getSynopsis, !find_at_. unfold read_by_synopsis.
    destruct (String.eqb_spec k "acknowledgements") as [->|];
      [reflexivity|].
    destruct (String.eqb_spec k "contributor") as [->|]; [reflexivity|].
    destruct (String.eqb_spec k "description") as [->|]; [reflexivity|].
    destruct (String.eqb_spec k "titel") as [->|]; reflexivity. }
  split; [exact Hfind|].
  intros Hnone. unfold xml_app_tags.
  destruct (concat_map_holds
              (fun tag =>
                 match StrMap.find tag (tags (snd (getSynopsis a))) with
                 | Some v => "  <" ++ tag ++ ">" ++ v ++ "</" ++ tag ++ ">" ++ nl
                 | None => ""
                 end) app_tags "contributor") as (pre & post & ->).
  { cbn. tauto. }
  exists pre, post. rewrite (Hfind "contributor"), Hnone. reflexivity.
Qed.

Lemma getSynopsis_inserts_empty_tags_witness :
  exists pre post,
    xml_app_tags (snd (getSynopsis Bare.app))
    = pre ++ app_tag_line "contributor" "" ++ post.
Proof.
  apply (proj2 (getSynopsis_inserts_empty_tags Bare.app)). reflexivity.
Defined.

(** ** The switches for ini files *)

Lemma scan_step_ini (argc : Z) (st : scan_state) (cmd name : string) :
  argv_get (argv st) (i st) = Ok (Some cmd) ->
  String.eqb cmd "--ctk-save-ini" || String.eqb cmd "--ctk-load-ini" = true ->
  i st <> argc - 1 ->
  argv_get (argv st) (i st + 1) = Ok (Some name) ->
  scan_step argc st
  = if Ascii.eqb (char_at 6 cmd) "s"%char then
      Ok (Continue,
          mkScan (i st + 2) (index st) (argv_set (argv st) (i st) None)
            (App.app st) (save name (App.app st) (world st)))
    else
      '(_, a') <- load name (App.app st) (world st) ;;
      Ok (Continue,
          mkScan (i st + 2) (index st) (argv_set (argv st) (i st) None)
            a' (world st)).
Proof.
  intros Hget Hcmd Hlast Hname. unfold scan_step.
  rewrite Hget. cbn [bind cstring].
  assert (Hxml : String.eqb cmd "--xml" = false).
  { apply orb_true_iff in Hcmd.
    destruct Hcmd as [H|H]; apply String.eqb_eq in H; subst; reflexivity. }
  assert (Hhelp : String.eqb cmd "--help" || String.eqb cmd "-h" = false).
  { apply orb_true_iff in Hcmd.
    destruct Hcmd as [H|H]; apply String.eqb_eq in H; subst; reflexivity. }
  rewrite Hxml, Hhelp, Hcmd.
  apply Z.eqb_neq in Hlast. rewrite Hlast.
  rewrite argv_get_set_other by lia. rewrite Hname. reflexivity.
Qed.

(** X20.  [--ctk-save-ini <file>] writes the ini text of the registry
    under the file name when that file can be opened for writing, and
    does nothing and says nothing when it cannot; [--ctk-load-ini <file>]
    with a file that cannot be opened changes nothing and says nothing,
    the result of [load] being dropped.  In all cases the switch is
    marked as handled and the file name is not: it stays in the array. *)
Theorem ini_switches_leave_the_file_name
  (argc : Z) (st : scan_state) (name : string) :
  i st <> argc - 1 ->
  argv_get (argv st) (i st + 1) = Ok (Some name) ->
  (argv_get (argv st) (i st) = Ok (Some "--ctk-save-ini") ->
   exists st',
     scan_step argc st = Ok (Continue, st') /\
     i st' = i st + 2 /\
     argv st' = argv_set (argv st) (i st) None /\
     argv_get (argv st') (i st + 1) = Ok (Some name) /\
     App.app st' = App.app st /\
     (can_write name (world st) = true ->
      StrMap.find name (files (world st')) = Some (save_text (App.app st))) /\
     (can_write name (world st) = false -> world st' = world st) /\
     cout (world st') = cout (world st) /\
     cerr (world st') = cerr (world st)) /\
  (argv_get (argv st) (i st) = Ok (Some "--ctk-load-ini") ->
   open_in name (world st) = None ->
   scan_step argc st
   = Ok (Continue,
         mkScan (i st + 2) (index st) (argv_set (argv st) (i st) None)
           (App.app st) (world st))).
Proof.
  intros Hlast Hname. split.
  - intros Hget.
    rewrite (scan_step_ini argc st _ name Hget eq_refl Hlast Hname).
    change (Ascii.eqb (char_at 6 "--ctk-save-ini") "s") with true. cbv iota.
    eexists. split; [reflexivity|]. cbn [i argv App.app world].
    split; [reflexivity|]. split; [reflexivity|].
    split; [rewrite argv_get_set_other by lia; exact Hname|].
    split; [reflexivity|]. unfold save.
    destruct (can_write name (world st)).
    + repeat split; try discriminate.
      intros _. unfold put_file. cbn [files]. apply find_insert_eq.
    + repeat split. discriminate.
  - intros Hget Hnone.
    rewrite (scan_step_ini argc st _ name Hget eq_refl Hlast Hname).
    change (Ascii.eqb (char_at 6 "--ctk-load-ini") "s") with false. cbv iota.
    unfold load. rewrite Hnone. reflexivity.
Qed.

Lemma ini_switches_leave_the_file_name_witness :
  scan_step 2
    (mkScan 0 0 (main_argv ["--ctk-load-ini"; "missing.ini"])
       Demo.app Demo.world)
  = Ok (Continue,
        mkScan 2 0 [None; Some "missing.ini"; None] Demo.app Demo.world).
Proof.
  apply (proj2 (ini_switches_leave_the_file_name 2
                  (mkScan 0 0 (main_argv ["--ctk-load-ini"; "missing.ini"])
                     Demo.app Demo.world) "missing.ini"
                  ltac:(cbn; lia) eq_refl)); reflexivity.
Defined.

(** ** Indexed parameters *)

Lemma scan_step_positional_bool
  (argc : Z) (st : scan_state) (cmd section key : string)
  (p : ctkParamData) (b : bool) :
  argv_get (argv st) (i st) = Ok (Some cmd) ->
  Ascii.eqb (char_at 0 cmd) "-"%char = false ->
  StrMap.find (toString (index st)) (commandLineFlags (App.app st))
  = Some (section, key) ->
  getParam section key (App.app st) = Some p ->
  getType p = getTypeName_bool ->
  value p = VBool b ->
  scan_step argc st
  = Ok (Continue,
        mkScan (i st + 1) (index st + 1) (argv st)
          (store section key (set_value p (VBool (negb b))) (App.app st))
          (world st)).
Proof.
  intros Hget Hdash Hfind Hp Hty Hval.
  rewrite (scan_step_positional _ _ _ Hget Hdash).
  unfold dispatch. cbn [App.app argv i index world].
  rewrite Hfind, Hp, Hty, String.eqb_refl.
  unfold getString, setString. rewrite Hval. destruct b; reflexivity.
Qed.

Lemma declare_index_spec
  (section key description : string) (idx : Z)
  (a : ctkCmdLineApplication) (p : ctkParamData) :
  getParam section key a = Some p ->
  exists a' tg,
    ctkParam.declare_index section key description idx a = Ok a' /\
    StrMap.find (toString idx) (commandLineFlags a') = Some (section, key) /\
    getParam section key a' = Some (ctkCLI.set_tags p tg) /\
    StrMap.find "index" tg = Some (toString idx).
Proof.
  intros Hp. unfold ctkParam.declare_index. rewrite Hp.
  destruct (at_ "longflag" (ctkCLI.tags p)) as [longflag t1].
  erewrite set_param_tag_spec by apply getParam_store_eq.
  cbn [bind].
  erewrite set_param_tag_spec
    by (rewrite getParam_setFlag; apply getParam_store_eq).
  eexists. eexists. split; [reflexivity|]. split; [|split].
  - rewrite commandLineFlags_store. cbn [setFlag commandLineFlags].
    apply find_insert_eq.
  - rewrite getParam_store_eq. unfold ctkCLI.set_tags.
    cbn [type_name value ctkCLI.tags attribs constraints]. reflexivity.
  - rewrite find_insert_neq by discriminate. apply find_insert_eq.
Qed.

(** X21.  [declare(description, idx)] binds the token that is the text
    of [idx] to the pair and writes the tag [index], whatever the type of
    the parameter; type and value stay.  From then on the token without
    [-] that the scan meets when its count of such tokens is [idx] gives
    its text to the parameter when the parameter is not boolean; a
    boolean parameter is negated instead, whatever the token says. *)
Theorem declare_index_binds_position
  (section key description : string) (idx : Z)
  (a : ctkCmdLineApplication) (p : ctkParamData) :
  getParam section key a = Some p ->
  exists a' p',
    ctkParam.declare_index section key description idx a = Ok a' /\
    StrMap.find (toString idx) (commandLineFlags a') = Some (section, key) /\
    getParam section key a' = Some p' /\
    value p' = value p /\ type_name p' = type_name p /\
    StrMap.find "index" (ctkCLI.tags p') = Some (toString idx) /\
    (forall argc st cmd,
        App.app st = a' -> index st = idx ->
        argv_get (argv st) (i st) = Ok (Some cmd) ->
        Ascii.eqb (char_at 0 cmd) "-"%char = false ->
        (forall q,
            String.eqb (getType p) getTypeName_bool = false ->
            setString cmd p' = Ok q ->
            scan_step argc st
            = Ok (Continue,
                  mkScan (i st + 1) (idx + 1) (argv st)
                    (store section key q a') (world st))) /\
        (forall b,
            getType p = getTypeName_bool -> value p = VBool b ->
            scan_step argc st
            = Ok (Continue,
                  mkScan (i st + 1) (idx + 1) (argv st)
                    (store section key (set_value p' (VBool (negb b))) a')
                    (world st)))).
Proof.
  intros Hp.
  destruct (declare_index_spec section key description idx a p Hp)
    as (a' & tg & Hdecl & Hflag & Hp' & Hidx).
  exists a', (ctkCLI.set_tags p tg).
  split; [exact Hdecl|]. split; [exact Hflag|]. split; [exact Hp'|].
  split; [reflexivity|]. split; [reflexivity|]. split; [exact Hidx|].
  intros argc st cmd Happ Hindex Hget Hdash. subst idx a'. split.
  - intros q Hty Hset.
    exact (scan_step_positional_bound argc st cmd section key _ q
             Hget Hdash Hflag Hp' Hty Hset).
  - intros b Hty Hval.
    exact (scan_step_positional_bool argc st cmd section key _ b
             Hget Hdash Hflag Hp' Hty Hval).
Qed.

Lemma declare_index_binds_position_witness :
  exists a',
    ctkParam.declare_index "Basic Types" "Bool Param" "switch" 1 Demo.app
    = Ok a' /\
    StrMap.find "1" (commandLineFlags a')
    = Some ("Basic Types", "Bool Param").
Proof.
  destruct (declare_index_binds_position "Basic Types" "Bool Param" "switch"
              1 Demo.app _ eq_refl)
    as (a' & p' & Hdecl & Hflag & _).
  exists a'. split; [exact Hdecl|exact Hflag].
Defined.

(** ** Proxies whose names come to the same flag *)

(** X22.  When the names of two pairs give the same long flag, the
    proxy constructed last owns the flag: the flag leads to its pair,
    while the parameter constructed first still carries the flag in its
    tag [longflag] and can no longer be reached by it. *)
Theorem later_proxy_takes_the_long_flag
  (s1 k1 s2 k2 : string) (f1 f2 : ctkParamData) (a : ctkCmdLineApplication) :
  (s1, k1) <> (s2, k2) ->
  ctkParam.getNormName s1 k1 = ctkParam.getNormName s2 k2 ->
  getParam s1 k1 a = None -> getParam s2 k2 a = None ->
  exists a1 a2 p,
    ctkParam.ctor s1 k1 f1 a = Ok a1 /\
    ctkParam.ctor s2 k2 f2 a1 = Ok a2 /\
    StrMap.find ("--" ++ ctkParam.getNormName s1 k1) (commandLineFlags a1)
    = Some (s1, k1) /\
    StrMap.find ("--" ++ ctkParam.getNormName s1 k1) (commandLineFlags a2)
    = Some (s2, k2) /\
    getParam s1 k1 a2 = Some p /\
    StrMap.find "longflag" (ctkCLI.tags p)
    = Some (ctkParam.getNormName s1 k1).
Proof.
  intros Hne Hnorm H1 H2.
  destruct (ctor_fresh s1 k1 f1 a H1) as (a1 & Hc1 & Hp1 & Hf1 & _ & Hframe1).
  assert (H2' : getParam s2 k2 a1 = None).
  { rewrite Hframe1; [exact H2|congruence]. }
  destruct (ctor_fresh s2 k2 f2 a1 H2') as (a2 & Hc2 & _ & Hf2 & _ & Hframe2).
  eexists a1, a2, _. repeat split; try eassumption.
  - rewrite Hnorm. exact Hf2.
  - rewrite Hframe2 by exact Hne. exact Hp1.
  - cbn [ctkCLI.tags ctkCLI.set_tags].
    rewrite !find_insert_neq by discriminate. apply find_insert_eq.
Qed.

Lemma later_proxy_takes_the_long_flag_witness :
  exists a1 a2,
    ctkParam.ctor "Image Size" "X" new_int Bare.app = Ok a1 /\
    ctkParam.ctor "Image" "Size X" new_int a1 = Ok a2 /\
    StrMap.find "--image-size-x" (commandLineFlags a2)
    = Some ("Image", "Size X").
Proof.
  destruct (later_proxy_takes_the_long_flag
              "Image Size" "X" "Image" "Size X" new_int new_int Bare.app)
    as (a1 & a2 & p & Hc1 & Hc2 & _ & Hflag & _);
    try reflexivity; try discriminate.
  exists a1, a2. repeat split; assumption.
Defined.

(** ** The enumeration element *)

Lemma vectortoString_nonempty (x : string) (l : list string) :
  last_of x l <> "" -> vectortoString (x :: l) "," <> "".
Proof.
  rewrite vectortoString_cons. cbn [toString conv_string].
  unfold toString_string.
  destruct l as [|y l]; cbn [last_of join_tail].
  - now rewrite append_nil_r.
  - intros _. destruct x; discriminate.
Qed.

(** X23.  In the descriptor the tag [enumeration] becomes one [element]
    for every item of the comma-joined text, in order; a comma after the
    last item makes that item disappear, and with it the whole
    [enumeration] element when it was the only one. *)
Theorem enumeration_elements (l : list string) :
  l <> [] -> Forall comma_free l ->
  (List.last l "" <> "" ->
   xml_tag ("enumeration", vectortoString l ",")
   = Ok (enumeration_block l)) /\
  xml_tag ("enumeration", vectortoString l "," ++ ",")
  = Ok (enumeration_block (removelast l)).
Proof.
  intros Hne Hall. destruct l as [|x l]; [congruence|].
  assert (Hall' :
    Forall (fun y : string =>
              comma_free (toString y) /\ stringTo (toString y) = Ok y)
      (x :: l)).
  { eapply Forall_impl; [|exact Hall]. intros y Hy. now split. }
  split.
  - intros Hlast. rewrite (last_of_last x "") in Hlast.
    unfold xml_tag. cbn [fst snd String.eqb].
    pose proof (vectortoString_nonempty x l Hlast) as Htext.
    apply String.eqb_neq in Htext. rewrite Htext.
    change (String.eqb "enumeration" "enumeration") with true. cbv iota.
    rewrite (stringToVector_vectortoString x l Hall' Hlast).
    reflexivity.
  - unfold xml_tag. cbn [fst snd].
    assert (Htext : String.eqb (vectortoString (x :: l) "," ++ ",") "" = false).
    { apply String.eqb_neq. intros H.
      apply (f_equal String.length) in H. rewrite length_append in H.
      cbn in H. lia. }
    rewrite Htext.
    change (String.eqb "enumeration" "enumeration") with true. cbv iota.
    rewrite (stringToVector_trailing x l Hall'). cbn [bind].
    destruct (removelast (x :: l)); reflexivity.
Qed.

Lemma enumeration_elements_witness :
  xml_tag ("enumeration", vectortoString ["red"; "green"] ",")
  = Ok (enumeration_block ["red"; "green"]) /\
  xml_tag ("enumeration", vectortoString ["red"; "green"] "," ++ ",")
  = Ok (enumeration_block ["red"]).
Proof.
  destruct (enumeration_elements ["red"; "green"]) as [Hall Htrail];
    [discriminate|repeat constructor|].
  split; [apply Hall; discriminate|exact Htrail].
Defined.
